(** * Deployment orchestration engine

    A shallow embedding of the deployment service: the Job Store with its
    two backends, the status reporter, the multi-project pipeline driver,
    the backup discipline of the upload and proxy stages, the in-process
    task queue, the webhook validation and the status query.

    Source files are named at each definition.  Asynchronous code is
    embedded in a state-and-exception monad over one [World]; external
    adapters (git, build tool, ssh, nginx binary, backend service) are the
    fields of an environment record [Env]. *)

From Stdlib Require Import String Ascii List ZArith Lia Bool.
From stdpp Require Import base option list gmap strings.

(** ** Results and the effect monad *)

(** A settled promise: fulfilled with a value or rejected with an [Error]
    whose [message] is the carried string. *)
Inductive Result (A : Type) : Type :=
| Ok (a : A)
| Throw (message : string).
Arguments Ok {A} a.
Arguments Throw {A} message.

Definition is_ok {A} (r : Result A) : bool :=
  match r with Ok _ => true | Throw _ => false end.

(** ** Data model (src/types/interfaces.ts) *)

(** One entry of [MultiProjectDeploymentStatus.projects]. *)
Record ProjectStageStatus := mkProjectStageStatus {
  ps_status : string;
  ps_progress : nat;
  ps_message : string
}.

(** [MultiProjectDeploymentStatus].  Time stamps are clock readings; the
    [projects] object is a finite map from project id to stage status. *)
Record MultiProjectDeploymentStatus := mkMultiStatus {
  ds_deploymentId : string;
  ds_overallStatus : string;
  ds_projects : gmap string ProjectStageStatus;
  ds_startTime : nat;
  ds_estimatedCompletion : option nat
}.

(** [ServerConfig], as far as the pipeline reads it. *)
Record ServerConfig := mkServerConfig {
  host : string;
  deployPath : string;
  backupPath : option string
}.

(** [MultiProjectJobData]: the payload the queue hands to the processor. *)
Record MultiProjectJobData := mkJobData {
  jd_deploymentId : string;
  jd_projectIds : list string;
  jd_branch : string;
  jd_commitHash : option string
}.

(** A JavaScript object used as a string-keyed dictionary whose key order
    is observable ([Object.keys], [Object.entries]): assignment to a
    present key keeps its place, a new key goes last. *)
Fixpoint obj_set {V} (k : string) (v : V) (o : list (string * V)) : list (string * V) :=
  match o with
  | [] => [(k, v)]
  | (k', v') :: o' =>
      if String.eqb k k' then (k, v) :: o' else (k', v') :: obj_set k v o'
  end.

Fixpoint obj_get {V} (k : string) (o : list (string * V)) : option V :=
  match o with
  | [] => None
  | (k', v') :: o' => if String.eqb k k' then Some v' else obj_get k o'
  end.

(** ** Job Store (src/jobs/deploymentJob.ts, [redis]) *)

(** The value of one hash field.  [VJson st] is the text
    [JSON.stringify(st)] of a status record; [VStr s] is any other text
    (the flat fields of the single-project layout hold such text). *)
Inductive Val :=
| VStr (s : string)
| VJson (st : MultiProjectDeploymentStatus).

(** JavaScript truthiness of a field read from [hgetall]: [undefined] and
    the empty string are falsy. *)
Definition truthy (o : option Val) : bool :=
  match o with
  | None => false
  | Some (VStr s) => negb (String.eqb s "")
  | Some (VJson _) => true
  end.

(** [JSON.parse] followed by the property writes the callers perform: a
    serialized status record parses back to itself; any other text makes
    the caller throw (a syntax error, or a type error on [projects]). *)
Definition JSON_parse (v : Val) : Result MultiProjectDeploymentStatus :=
  match v with
  | VJson st => Ok st
  | VStr _ => Throw "SyntaxError"
  end.

(** The hashes of the store, by key.  The bounded log lists live under
    keys with another suffix and are kept apart in [w_lists]. *)
Abbreviation Hashes := (gmap string (gmap string Val)).

(** [Object.assign(target, s)] for a primitive string [s]: the own
    enumerable properties of the wrapped string are its indices, so the
    target receives the one-character strings of [s] under "0", "1", ... *)
Fixpoint digits_fuel (fuel n : nat) (acc : string) : string :=
  match fuel with
  | 0 => acc
  | S f =>
      let d := String (ascii_of_nat (48 + n mod 10)) acc in
      if Nat.ltb n 10 then d else digits_fuel f (n / 10) d
  end.
Definition index_key (n : nat) : string := digits_fuel (S n) n "".

Fixpoint assign_chars (i : nat) (s : string) (target : gmap string Val) : gmap string Val :=
  match s with
  | EmptyString => target
  | String c s' => assign_chars (S i) s' (<[index_key i := VStr (String c "")]> target)
  end.

Module MemoryRedis.
(** [class MemoryRedis]: [hset(key, data)] takes two arguments. *)

(** [hset] called as the status reporter calls it, with three arguments
    [(key, 'data', json)]: the parameter [data] is bound to the second
    argument, the text 'data', and the third is dropped. *)
Definition hset (key : string) (data : string) (storage : Hashes) : Hashes :=
  let target := default ∅ (storage !! key) in
  <[key := assign_chars 0 data target]> storage.

(** [hgetall(key)]: the stored object, or a fresh empty one. *)
Definition hgetall (key : string) (storage : Hashes) : gmap string Val :=
  default ∅ (storage !! key).
End MemoryRedis.

Module Redis.
(** The Redis server commands behind ioredis, on hash keys. *)

(** [HSET key field value]. *)
Definition hset (key field : string) (value : Val) (db : Hashes) : Hashes :=
  <[key := <[field := value]> (default ∅ (db !! key))]> db.

(** [HGETALL key]: every field of the hash, an empty object when the
    key is absent. *)
Definition hgetall (key : string) (db : Hashes) : gmap string Val :=
  default ∅ (db !! key).
End Redis.

(** ** Proxy configuration files (src/services/nginxService.ts) *)

(** The file at [config.NGINX_CONFIG_PATH] and its snapshots
    [<path>.backup.<Date.now()>], listed as [ls -t] lists them: most
    recently modified first. *)
Record NginxFs := mkNginxFs {
  live_config : option string;
  snapshots : list (nat * string)
}.

(** ** Observable events of a run *)

Inductive Event :=
| EvProgress (n : nat)                       (* job.progress(n) *)
| EvClone (projectId : string)               (* gitService.cloneOrUpdateProject *)
| EvBuild (projectId : string)               (* buildService.buildProject *)
| EvResolveConfig (projectId : option string)(* configService.getServerConfig *)
| EvUpload (builds : list (string * string)) (* uploadService.uploadMultipleProjects *)
| EvNginxSnapshot (name : nat)               (* fs.copy to <path>.backup.<name> *)
| EvNginxWrite (text : string)               (* fs.writeFile of the new configuration *)
| EvNginxValidate (live : option string)     (* nginx -t *)
| EvNginxReload (live : option string)       (* config.NGINX_RELOAD_CMD *)
| EvNginxRestore (name : nat) (text : string)(* fs.copy of a snapshot over the live file *)
| EvCleanupBuild
| EvCleanupOnFailure (projectIds : list string)
| EvNotifySuccess
| EvNotifyFailure (message : string)
| EvOverallWrite (key status : string) (written : MultiProjectDeploymentStatus).

(** ** The world a pipeline run acts on *)

Record World := mkWorld {
  w_hashes : Hashes;
  w_lists : gmap string (list string);
  w_nginx : NginxFs;
  w_clock : nat;
  w_trace : list Event     (* newest event first *)
}.

(** ** External adapters and configuration *)

Record Env := mkEnv {
  (** [config.REDIS.ENABLED]: [true] selects ioredis, [false] [MemoryRedis]. *)
  REDIS_ENABLED : bool;
  (** [config.CONCURRENT_BUILDS], at least 1: the field holds the limit minus one. *)
  CONCURRENT_BUILDS_pred : nat;
  (** [gitService.cloneOrUpdateProject(deploymentId, projectId)]. *)
  cloneOrUpdateProject : string → string → Result unit;
  (** [buildService.buildProject(deploymentId, projectId)]: the dist path. *)
  buildProject : string → string → Result string;
  (** [configService.getServerConfig(deploymentId, projectIds[0])]. *)
  getServerConfig : string → option string → Result ServerConfig;
  (** [uploadService.uploadMultipleProjects(deploymentId, builds, server)]. *)
  uploadMultipleProjects : string → list (string * string) → ServerConfig → Result unit;
  (** The text [generateNginxConfig(projectIds, serverHost)] renders at a clock reading. *)
  generateNginxConfig : list string → string → nat → string;
  (** Exit status of [nginx -t] given the live configuration file. *)
  nginx_t : option string → Result unit;
  (** Exit status of the reload command given the live configuration file. *)
  nginx_reload : option string → Result unit
}.

Definition CONCURRENT_BUILDS (env : Env) : nat := S (CONCURRENT_BUILDS_pred env).

(** ** The monad of asynchronous code *)

Definition M (A : Type) : Type := World → Result A * World.

Global Instance M_ret : MRet M := λ A a w, (Ok a, w).
Global Instance M_bind : MBind M := λ A B f c w,
  match c w with
  | (Ok a, w') => f a w'
  | (Throw e, w') => (Throw e, w')
  end.

Definition throw {A} (message : string) : M A := λ w, (Throw message, w).

(** [try { body } catch (error) { handler error }]. *)
Definition try_catch {A} (body : M A) (handler : string → M A) : M A := λ w,
  match body w with
  | (Ok a, w') => (Ok a, w')
  | (Throw e, w') => handler e w'
  end.

Definition emit (e : Event) : M unit := λ w,
  (Ok tt, mkWorld (w_hashes w) (w_lists w) (w_nginx w) (w_clock w) (e :: w_trace w)).

Definition get_hashes : M Hashes := λ w, (Ok (w_hashes w), w).
Definition put_hashes (h : Hashes) : M unit := λ w,
  (Ok tt, mkWorld h (w_lists w) (w_nginx w) (w_clock w) (w_trace w)).
Definition get_nginx : M NginxFs := λ w, (Ok (w_nginx w), w).
Definition put_nginx (n : NginxFs) : M unit := λ w,
  (Ok tt, mkWorld (w_hashes w) (w_lists w) n (w_clock w) (w_trace w)).

(** [Date.now()] and [new Date()]: reading the clock.  The clock of the
    model moves on with each reading, so two readings never agree: the
    code separates two snapshot names by at least one spawned process. *)
Definition Date_now : M nat := λ w,
  (Ok (w_clock w), mkWorld (w_hashes w) (w_lists w) (w_nginx w) (S (w_clock w)) (w_trace w)).

(** Settling an adapter call. *)
Definition await {A} (r : Result A) : M A := λ w, (r, w).

(** [for (const x of xs) { await body(x) }]. *)
Fixpoint for_of {A} (xs : list A) (body : A → M unit) : M unit :=
  match xs with
  | [] => mret tt
  | x :: xs' => body x ;; for_of xs' body
  end.

(** [fire()] without [await]: a rejection of the call is not observed by
    the caller. *)
Definition unawaited (c : M unit) : M unit := try_catch c (λ _, mret tt).

(** [Promise.all(chains)] where every chain has already been started: each
    chain runs until it settles; the result is rejected with the rejection
    of the earliest chain of the list that rejects. *)
Fixpoint Promise_all (chains : list (M unit)) : M unit :=
  match chains with
  | [] => mret tt
  | c :: cs => λ w,
      let '(r, w1) := c w in
      let '(rs, w2) := Promise_all cs w1 in
      (match r with Throw e => Throw e | Ok _ => rs end, w2)
  end.

(** ** Status reporter (src/jobs/deploymentJob.ts) *)

Section StatusReporter.
Context (env : Env).

Definition statusKey (deploymentId : string) : string :=
  "deployment:" +:+ deploymentId +:+ ":status".

(** [redis.hset(statusKey, 'data', JSON.stringify(status))] on the
    configured backend. *)
Definition redis_hset_data (key : string) (status : MultiProjectDeploymentStatus) : M unit :=
  h ← get_hashes;
  put_hashes (if REDIS_ENABLED env
              then Redis.hset key "data" (VJson status) h
              else MemoryRedis.hset key "data" h).

Definition redis_hgetall (key : string) : M (gmap string Val) :=
  h ← get_hashes;
  mret (if REDIS_ENABLED env then Redis.hgetall key h else MemoryRedis.hgetall key h).

(** [redis.expire(key, 86400)]: the record is reclaimed a day after its
    last write; a run does not last that long, the contents stay. *)
Definition redis_expire (key : string) (seconds : N) : M unit := mret tt.

Definition set_project (projectId : string) (entry : ProjectStageStatus)
    (st : MultiProjectDeploymentStatus) : MultiProjectDeploymentStatus :=
  mkMultiStatus (ds_deploymentId st) (ds_overallStatus st)
    (<[projectId := entry]> (ds_projects st)) (ds_startTime st) (ds_estimatedCompletion st).

Definition initializeDeploymentStatus (deploymentId : string) (projectIds : list string) : M unit :=
  now ← Date_now;
  let status := mkMultiStatus deploymentId "pending" ∅ now None in
  let status :=
    foldl (λ st projectId,
             set_project projectId (mkProjectStageStatus "pending" 0 "waiting to start") st)
          status projectIds in
  let statusKey := statusKey deploymentId in
  redis_hset_data statusKey status ;;
  redis_expire statusKey 86400%N.

Definition updateSingleProjectStatus (deploymentId projectId status message : string)
    (progress : nat) : M unit :=
  let statusKey := statusKey deploymentId in
  statusDataString ← redis_hgetall statusKey;
  match statusDataString !! "data" with
  | Some data =>
      if truthy (Some data) then
        deploymentStatus ← await (JSON_parse data);
        let deploymentStatus :=
          set_project projectId (mkProjectStageStatus status progress message) deploymentStatus in
        redis_hset_data statusKey deploymentStatus ;;
        redis_expire statusKey 86400%N
      else mret tt
  | None => mret tt
  end.

Definition updateProjectStatus (deploymentId : string) (projectIds : list string)
    (status message : string) : M unit :=
  for_of projectIds (λ projectId,
    updateSingleProjectStatus deploymentId projectId status message 0).

Definition updateOverallStatus (deploymentId status message : string) : M unit :=
  let statusKey := statusKey deploymentId in
  statusDataString ← redis_hgetall statusKey;
  match statusDataString !! "data" with
  | Some data =>
      if truthy (Some data) then
        deploymentStatus ← await (JSON_parse data);
        estimated ← (if String.eqb status "completed"
                     then now ← Date_now; mret (Some now)
                     else mret (ds_estimatedCompletion deploymentStatus));
        let deploymentStatus :=
          mkMultiStatus (ds_deploymentId deploymentStatus) status
            (ds_projects deploymentStatus) (ds_startTime deploymentStatus) estimated in
        redis_hset_data statusKey deploymentStatus ;;
        redis_expire statusKey 86400%N ;;
        emit (EvOverallWrite statusKey status deploymentStatus)
      else mret tt
  | None => mret tt
  end.
End StatusReporter.

(** ** Build service (src/services/buildService.ts) *)

Section BuildService.
Context (env : Env).

(** [array.slice(i, j)]. *)
Definition slice {T} (i j : nat) (array : list T) : list T :=
  take (j - i) (drop i array).

(** [chunkArray]: [for (let i = 0; i < array.length; i += size)].  With
    [size >= 1] the loop ends within [array.length] rounds, the fuel. *)
Fixpoint chunkArray_loop {T} (fuel i : nat) (array : list T) (size : nat) : list (list T) :=
  match fuel with
  | 0 => []
  | S fuel' =>
      if Nat.ltb i (length array)
      then slice i (i + size) array :: chunkArray_loop fuel' (i + size) array size
      else []
  end.

Definition chunkArray {T} (array : list T) (size : nat) : list (list T) :=
  chunkArray_loop (length array) 0 array size.

(** The two local dictionaries of [buildMultipleProjects]. *)
Record BuildAcc := mkBuildAcc {
  results : list (string * string);
  errors : list (string * string)
}.

(** The body of [chunk.map(async (projectId) => ...)]: the rejection of
    [buildProject] is caught and filed under [errors]. *)
Definition build_one (deploymentId : string) (acc : BuildAcc) (projectId : string) : M BuildAcc :=
  emit (EvBuild projectId) ;;
  match buildProject env deploymentId projectId with
  | Ok distPath => mret (mkBuildAcc (obj_set projectId distPath (results acc)) (errors acc))
  | Throw message => mret (mkBuildAcc (results acc) (obj_set projectId message (errors acc)))
  end.

Fixpoint build_chunk (deploymentId : string) (acc : BuildAcc) (chunk : list string) : M BuildAcc :=
  match chunk with
  | [] => mret acc
  | projectId :: chunk' =>
      acc' ← build_one deploymentId acc projectId;
      build_chunk deploymentId acc' chunk'
  end.

Fixpoint build_chunks (deploymentId : string) (acc : BuildAcc) (chunks : list (list string)) : M BuildAcc :=
  match chunks with
  | [] => mret acc
  | chunk :: chunks' =>
      acc' ← build_chunk deploymentId acc chunk;
      build_chunks deploymentId acc' chunks'
  end.

(** [entries.map(([projectId, error]) => ...).join('; ')]. *)
Fixpoint join_errors (entries : list (string * string)) : string :=
  match entries with
  | [] => ""
  | [(projectId, error)] => projectId +:+ ": " +:+ error
  | (projectId, error) :: rest => projectId +:+ ": " +:+ error +:+ "; " +:+ join_errors rest
  end.

Definition buildMultipleProjects (deploymentId : string) (projectIds : list string)
    : M (list (string * string)) :=
  let chunks := chunkArray projectIds (CONCURRENT_BUILDS env) in
  acc ← build_chunks deploymentId (mkBuildAcc [] []) chunks;
  if Nat.ltb 0 (length (errors acc))
  then throw ("partial build failure: " +:+ join_errors (errors acc))
  else mret (results acc).

(** [cleanupBuild] keeps the artifacts and only logs. *)
Definition cleanupBuild (deploymentId : string) (projectIds : list string) : M unit :=
  emit EvCleanupBuild.

(** [cleanupOnFailure] removes the dist directories; every error is
    caught inside and the promises are awaited with [allSettled]. *)
Definition cleanupOnFailure (deploymentId : string) (projectIds : list string) : M unit :=
  emit (EvCleanupOnFailure projectIds).
End BuildService.

(** ** Proxy service (src/services/nginxService.ts) *)

Section NginxService.
Context (env : Env).

(** [backupNginxConfig]: when the live file exists it is copied to
    [<path>.backup.<Date.now()>]; a file of that name is overwritten.
    File operations are taken to succeed (a failing copy is caught and
    logged by the source and leaves no snapshot). *)
Definition backupNginxConfig (deploymentId : string) : M unit :=
  fs ← get_nginx;
  match live_config fs with
  | Some text =>
      now ← Date_now;
      put_nginx (mkNginxFs (live_config fs)
                   ((now, text) :: filter (λ s, negb (Nat.eqb (fst s) now)) (snapshots fs))) ;;
      emit (EvNginxSnapshot now)
  | None => mret tt
  end.

Definition validateNginxConfig (deploymentId : string) : M unit :=
  fs ← get_nginx;
  emit (EvNginxValidate (live_config fs)) ;;
  match nginx_t env (live_config fs) with
  | Ok _ => mret tt
  | Throw message => throw ("Nginx validation failed: " +:+ message)
  end.

Definition reloadNginx (deploymentId : string) : M unit :=
  fs ← get_nginx;
  emit (EvNginxReload (live_config fs)) ;;
  match nginx_reload env (live_config fs) with
  | Ok _ => mret tt
  | Throw message => throw ("Nginx reload failed: " +:+ message)
  end.

(** [restoreBackupConfig]: [ls -t <path>.backup.* | head -1] names the
    snapshot modified last; it is copied over the live file and the
    proxy is reloaded.  Every error is caught and logged. *)
Definition restoreBackupConfig (deploymentId : string) : M unit :=
  try_catch
    (fs ← get_nginx;
     match snapshots fs with
     | (name, text) :: _ =>
         put_nginx (mkNginxFs (Some text) (snapshots fs)) ;;
         emit (EvNginxRestore name text) ;;
         reloadNginx deploymentId
     | [] => mret tt
     end)
    (λ _, mret tt).

Definition updateNginxConfig (deploymentId : string) (projectIds : list string)
    (serverHost : string) : M unit :=
  try_catch
    (now ← Date_now;
     let nginxConfig := generateNginxConfig env projectIds serverHost now in
     backupNginxConfig deploymentId ;;
     (fs ← get_nginx; put_nginx (mkNginxFs (Some nginxConfig) (snapshots fs))) ;;
     emit (EvNginxWrite nginxConfig) ;;
     validateNginxConfig deploymentId ;;
     reloadNginx deploymentId)
    (λ error,
       restoreBackupConfig deploymentId ;;
       throw ("Nginx configuration failed: " +:+ error)).
End NginxService.

(** ** Pipeline driver (src/jobs/deploymentJob.ts) *)

Section Pipeline.
Context (env : Env).

(** What a successful run returns to the queue. *)
Record PipelineResult := mkPipelineResult {
  pr_deploymentId : string;
  pr_status : string;
  pr_serverHost : string;
  pr_projectIds : list string;
  pr_projectBuilds : list (string * string)
}.

(** One element of [clonePromises]:
    [clone(...).then(() => update(..., 'cloning', ..., 100)).catch(error => { update(..., 'failed', ...); throw error })].
    The update in the [catch] callback is not awaited. *)
Definition clone_chain (deploymentId projectId : string) : M unit :=
  try_catch
    (emit (EvClone projectId) ;;
     await (cloneOrUpdateProject env deploymentId projectId) ;;
     updateSingleProjectStatus env deploymentId projectId "cloning" "source fetched" 100)
    (λ error,
       unawaited (updateSingleProjectStatus env deploymentId projectId "failed"
                    ("source fetch failed: " +:+ error) 0) ;;
       throw error).

(** [projectBuilds[projectId]] used as a condition. *)
Definition has_build (projectBuilds : list (string * string)) (projectId : string) : bool :=
  match obj_get projectId projectBuilds with
  | Some distPath => negb (String.eqb distPath "")
  | None => false
  end.

Definition processMultiProjectDeployment (job : MultiProjectJobData) : M PipelineResult :=
  let deploymentId := jd_deploymentId job in
  let projectIds := jd_projectIds job in
  try_catch
    (initializeDeploymentStatus env deploymentId projectIds ;;
     emit (EvProgress 5) ;;
     (* step 1: source *)
     updateProjectStatus env deploymentId projectIds "cloning" "fetching source" ;;
     Promise_all (map (clone_chain deploymentId) projectIds) ;;
     emit (EvProgress 20) ;;
     (* step 2: build *)
     updateProjectStatus env deploymentId projectIds "building" "building" ;;
     projectBuilds ← buildMultipleProjects env deploymentId projectIds;
     for_of projectIds (λ projectId,
       if has_build projectBuilds projectId
       then updateSingleProjectStatus env deploymentId projectId "building" "build finished" 100
       else mret tt) ;;
     emit (EvProgress 50) ;;
     (* step 3: server configuration, asked for the first project *)
     emit (EvResolveConfig (head projectIds)) ;;
     serverConfig ← await (getServerConfig env deploymentId (head projectIds));
     emit (EvProgress 60) ;;
     (* step 4: upload *)
     updateProjectStatus env deploymentId projectIds "uploading" "uploading" ;;
     emit (EvUpload projectBuilds) ;;
     await (uploadMultipleProjects env deploymentId projectBuilds serverConfig) ;;
     for_of projectIds (λ projectId,
       updateSingleProjectStatus env deploymentId projectId "uploading" "upload finished" 100) ;;
     emit (EvProgress 80) ;;
     (* step 5: proxy *)
     updateProjectStatus env deploymentId projectIds "configuring" "configuring Nginx" ;;
     updateNginxConfig env deploymentId projectIds (host serverConfig) ;;
     for_of projectIds (λ projectId,
       updateSingleProjectStatus env deploymentId projectId "configuring" "Nginx configured" 100) ;;
     emit (EvProgress 90) ;;
     (* step 6: cleanup *)
     cleanupBuild deploymentId projectIds ;;
     (* step 7: completion *)
     updateProjectStatus env deploymentId projectIds "completed" "deployed" ;;
     updateOverallStatus env deploymentId "completed" "all projects deployed" ;;
     emit (EvProgress 100) ;;
     (* step 8: notification; the service catches its own errors *)
     emit EvNotifySuccess ;;
     mret (mkPipelineResult deploymentId "completed" (host serverConfig) projectIds projectBuilds))
    (λ error,
       updateOverallStatus env deploymentId "failed" ("deployment failed: " +:+ error) ;;
       cleanupOnFailure deploymentId projectIds ;;
       emit (EvNotifyFailure error) ;;
       throw error).

(** The processor registered for 'build-and-deploy-multi' repeats the
    body of [processMultiProjectDeployment] word for word. *)
Definition buildAndDeployMulti (job : MultiProjectJobData) : M PipelineResult :=
  processMultiProjectDeployment job.

(** The processor registered for 'build-and-deploy': the single project
    becomes a one-element project list. *)
Definition buildAndDeploy (deploymentId projectId branch : string)
    (commitHash : option string) : M PipelineResult :=
  processMultiProjectDeployment (mkJobData deploymentId [projectId] branch commitHash).
End Pipeline.

(** * Snapshots of the upload target (dist/services/uploadService.js) *)

Module UploadService.

(** An entry of the directory [serverConfig.backupPath]: a snapshot
    [backup-<timestamp>] or anything else that lies there. *)
Inductive EntryName :=
| Snapshot (timestamp : nat)
| Foreign (name : string).

Global Instance EntryName_eq_dec : EqDecision EntryName.
Proof. solve_decision. Defined.

(** The remote host as the upload sees it: the content of [deployPath]
    when that directory exists, and the entries of [backupPath] in the
    order of [ls -t], most recently modified first.  A snapshot holds the
    contents copied into it. *)
Record RemoteFs := mkRemoteFs {
  deploy : option string;
  backups : list (EntryName * list string)
}.

(** [cp -r deployPath backupDir]: a new directory, or one more copy
    inside a directory of that name; either way it is now the entry
    modified last. *)
Definition cp_r (name : EntryName) (content : string)
    (listing : list (EntryName * list string)) : list (EntryName * list string) :=
  let older := filter (λ e, e.1 ≠ name) listing in
  let held := default [] (snd <$> head (filter (λ e, e.1 = name) listing)) in
  (name, content :: held) :: older.

(** [createBackup]: when [test -d deployPath] succeeds the directory is
    copied to [backup-<timestamp>]; when the copy succeeds,
    [ls -t | tail -n +6 | xargs -r rm -rf] removes every entry after the
    fifth.  [cp_ok] is the exit status of the copy. *)
Definition createBackup (timestamp : nat) (cp_ok : bool) (fs : RemoteFs) : RemoteFs :=
  match deploy fs with
  | Some content =>
      if cp_ok
      then mkRemoteFs (deploy fs) (take 5 (cp_r (Snapshot timestamp) content (backups fs)))
      else fs
  | None => fs
  end.

(** [uploadToServer] after the connection is up: the snapshot when a
    backup path is configured, then [mkdir -p], the clearing of the
    target and [putDirectory], whose result is [put_ok]. *)
Definition uploadToServer (has_backupPath : bool) (timestamp : nat) (cp_ok put_ok : bool)
    (artifact : string) (fs : RemoteFs) : Result unit * RemoteFs :=
  let fs1 := if has_backupPath then createBackup timestamp cp_ok fs else fs in
  if put_ok
  then (Ok tt, mkRemoteFs (Some artifact) (backups fs1))
  else (Throw "upload failed", mkRemoteFs (Some "") (backups fs1)).

(** [ls -t | grep "^<name>-backup-" | tail -n +6 | xargs -r rm -rf]: of
    the snapshots of this target the first [n] are kept, every other
    entry of the directory is left alone. *)
Fixpoint keep_snapshots (n : nat) (listing : list (EntryName * list string))
    : list (EntryName * list string) :=
  match listing with
  | [] => []
  | (Snapshot t, held) :: rest =>
      match n with
      | 0 => keep_snapshots 0 rest
      | S n' => (Snapshot t, held) :: keep_snapshots n' rest
      end
  | (Foreign name, held) :: rest => (Foreign name, held) :: keep_snapshots n rest
  end.

(** [createRemoteBackup], called by [uploadProject] of the multi-project
    upload in the TypeScript source of the service: the snapshot
    [<remotePath>-backup-<timestamp>] lies beside the target, in a
    directory that holds other entries too. *)
Definition createRemoteBackup (timestamp : nat) (cp_ok : bool) (fs : RemoteFs) : RemoteFs :=
  match deploy fs with
  | Some content =>
      if cp_ok
      then mkRemoteFs (deploy fs)
             (keep_snapshots 5 (cp_r (Snapshot timestamp) content (backups fs)))
      else fs
  | None => fs
  end.

Definition is_snapshot (e : EntryName * list string) : bool :=
  match e.1 with Snapshot _ => true | Foreign _ => false end.

(** A series of successful uploads to one target, each with its
    timestamp and artifact. *)
Definition upload_all (uploads : list (nat * string)) (fs : RemoteFs) : RemoteFs :=
  foldl (λ fs u, (uploadToServer true u.1 true true u.2 fs).2) fs uploads.

End UploadService.

(** * The in-process task queue (src/jobs/deploymentJob.ts, class MemoryQueue) *)

Module MemoryQueue.

(** The options object passed to [add]; the class stores it on the job
    and never reads it. *)
Record JobOptions := mkOptions {
  priority : nat;
  attempts : nat
}.

(** The payload, as far as the class looks into it. *)
Record Payload := mkPayload {
  deploymentId : option string;
  body : string
}.

(** A job object on the heap. *)
Record Job := mkJob {
  id : string;
  data : Payload;
  options : JobOptions;
  status : string;
  progress : nat;
  timestamp : nat
}.

(** The queue object.  [heap] holds the job objects by reference; [jobs]
    is the [Map] from id to reference in insertion order; [loops] are the
    calls of [processJobs] suspended at [await this.processor(job)], each
    with the job in hand and the rest of its [waitingJobs] array;
    [immediates] counts the pending [setImmediate] callbacks; [started]
    logs the handler invocations and [emitted] the events, newest first. *)
Record State := mkState {
  heap : list Job;
  jobs : list (string * nat);
  processing : bool;
  loops : list (nat * list nat);
  immediates : nat;
  started : list nat;
  emitted : list (string * string)
}.

Definition empty : State := mkState [] [] false [] 0 [] [].

Inductive Label :=
| Add (data : Payload) (options : JobOptions) (now : nat)
| Immediate
| Settle (loop : nat) (fulfilled : bool).

Definition set_status (r : nat) (s : string) (h : list Job) : list Job :=
  match h !! r with
  | Some j => <[r := mkJob (id j) (data j) (options j) s (progress j) (timestamp j)]> h
  | None => h
  end.

Definition status_of (h : list Job) (r : nat) : option string := status <$> h !! r.
Definition id_of (h : list Job) (r : nat) : string := default "" (id <$> h !! r).

(** [data.deploymentId || `job-${Date.now()}`]. *)
Definition job_id (data : Payload) (now : nat) : string :=
  match deploymentId data with
  | Some d => if String.eqb d "" then "job-" +:+ index_key now else d
  | None => "job-" +:+ index_key now
  end.

(** [add]: a fresh job object replaces whatever the map held under the
    id, and a call of [processJobs] is scheduled. *)
Definition add (data : Payload) (opts : JobOptions) (now : nat) (q : State) : State :=
  let jobId := job_id data now in
  let job := mkJob jobId data opts "waiting" 0 now in
  mkState (heap q ++ [job]) (obj_set jobId (length (heap q)) (jobs q))
    (processing q) (loops q) (S (immediates q)) (started q) (emitted q).

(** [getJob]: what the status query reads of a job. *)
Definition getJob (jobId : string) (q : State) : option Job :=
  r ← obj_get jobId (jobs q); heap q !! r.

(** [getWaiting]: the jobs of the map whose status is 'waiting'. *)
Definition getWaiting (q : State) : list nat :=
  filter (λ r, status_of (heap q) r = Some "waiting") ((jobs q).*2).

Definition getActive (q : State) : list nat :=
  filter (λ r, status_of (heap q) r = Some "active") ((jobs q).*2).

(** The [for] loop of [processJobs] at the head of an iteration: with no
    job left the [finally] block clears the flag; otherwise the next job
    becomes 'active' and the call suspends on its handler. *)
Definition next_job (rest : list nat) (q : State) : State :=
  match rest with
  | [] => mkState (heap q) (jobs q) false (loops q) (immediates q) (started q) (emitted q)
  | r :: rest' =>
      mkState (set_status r "active" (heap q)) (jobs q) (processing q)
        (loops q ++ [(r, rest')]) (immediates q) (r :: started q) (emitted q)
  end.

Definition processJobs (q : State) : State :=
  if processing q then q
  else next_job (getWaiting q)
         (mkState (heap q) (jobs q) true (loops q) (immediates q) (started q) (emitted q)).

(** The handler of the job in hand settles: 'completed' and the event
    'completed', or 'failed' and the event 'failed'; then the loop goes
    on. *)
Definition settle (i : nat) (fulfilled : bool) (q : State) : State :=
  match loops q !! i with
  | Some (r, rest) =>
      let outcome := if fulfilled then "completed" else "failed" in
      next_job rest
        (mkState (set_status r outcome (heap q)) (jobs q) (processing q)
           (delete i (loops q)) (immediates q) (started q)
           ((outcome, id_of (heap q) r) :: emitted q))
  | None => q
  end.

Definition step (q : State) (l : Label) : State :=
  match l with
  | Add data opts now => add data opts now q
  | Immediate =>
      match immediates q with
      | 0 => q
      | S n =>
          processJobs (mkState (heap q) (jobs q) (processing q) (loops q) n
                         (started q) (emitted q))
      end
  | Settle i fulfilled => settle i fulfilled q
  end.

Definition run (ls : list Label) : State := foldl step empty ls.

(** The handler invocations in flight for one job id. *)
Definition active_invocations (jobId : string) (q : State) : list (nat * list nat) :=
  filter (λ l, id_of (heap q) l.1 = jobId) (loops q).

End MemoryQueue.

(** * The status query (DeploymentController.getDeploymentStatus) *)

Module DeploymentController.

(** What the controller reads of a queued job: [getState()],
    [progress()] when it is a number, and [timestamp]. *)
Record JobView := mkJobView {
  jv_state : string;
  jv_progress : option nat;
  jv_timestamp : nat
}.

Inductive Response :=
| BadRequest                         (* 400, the id is empty *)
| NotFound                           (* 404 *)
| FromQueue (status : string) (progress : nat) (currentStep : string) (startTime : nat)
| FromStore (status : Val) (fields : gmap string Val) (logs : list string).

Definition mapJobStateToStatus (jobState : string) : string :=
  if String.eqb jobState "waiting" then "pending"
  else if String.eqb jobState "active" then "building"
  else if String.eqb jobState "completed" then "completed"
  else if String.eqb jobState "failed" then "failed"
  else "pending".

Definition getCurrentStep (jobState : string) (progress : option nat) : string :=
  if String.eqb jobState "waiting" then "waiting"
  else if String.eqb jobState "failed" then "failed"
  else if String.eqb jobState "completed" then "done"
  else
    let progressNum := default 0 progress in
    if Nat.ltb progressNum 40 then "building"
    else if Nat.ltb progressNum 50 then "resolving configuration"
    else if Nat.ltb progressNum 90 then "uploading"
    else if Nat.ltb progressNum 100 then "cleaning up"
    else "done".

(** The handler for a request whose [deploymentId] parameter is given.
    [getJob] is [deploymentQueue.getJob] of the configured backend. *)
Definition getDeploymentStatus (redis_enabled : bool) (getJob : string → option JobView)
    (deploymentId : string) (w : World) : Response :=
  if String.eqb deploymentId "" then BadRequest
  else
    let statusKey := statusKey deploymentId in
    let logsKey := "deployment:" +:+ deploymentId +:+ ":logs" in
    let statusData :=
      if redis_enabled then Redis.hgetall statusKey (w_hashes w)
      else MemoryRedis.hgetall statusKey (w_hashes w) in
    let logs := default [] (w_lists w !! logsKey) in
    match statusData !! "status" with
    | Some status =>
        if truthy (Some status) then FromStore status statusData logs
        else
          match getJob deploymentId with
          | None => NotFound
          | Some job =>
              FromQueue (mapJobStateToStatus (jv_state job)) (default 0 (jv_progress job))
                (getCurrentStep (jv_state job) (jv_progress job)) (jv_timestamp job)
          end
    | None =>
        match getJob deploymentId with
        | None => NotFound
        | Some job =>
            FromQueue (mapJobStateToStatus (jv_state job)) (default 0 (jv_progress job))
              (getCurrentStep (jv_state job) (jv_progress job)) (jv_timestamp job)
        end
    end.

(** [getJob] of the in-process queue. *)
Definition memory_getJob (q : MemoryQueue.State) (jobId : string) : option JobView :=
  j ← MemoryQueue.getJob jobId q;
  Some (mkJobView (MemoryQueue.status j) (Some (MemoryQueue.progress j))
          (MemoryQueue.timestamp j)).

End DeploymentController.

(** * Request validation (src/utils/validator.ts) and the webhook
      (src/controllers/webhookController.ts) *)

Module Validator.

(** The body of a trigger request, field by field; [None] is a missing
    key.  [metadata] holds the two keys the schema constrains. *)
Record Metadata := mkMetadata {
  buildType : option string;
  md_priority : option string
}.

Record RequestBody := mkBody {
  projectIds : option (list string);
  branch : option string;
  commitHash : option string;
  triggerBy : option string;
  timestamp : option string;
  metadata : option Metadata
}.

(** The first detail of a Joi validation error: the key and the rule. *)
Inductive Rule :=
| any_required | string_empty | string_min | string_max
| array_min | array_max | any_only.

Record ValidationError := mkError {
  key : string;
  rule : Rule
}.

(** [DeploymentRequest]: a validated body. *)
Record DeploymentRequest := mkRequest {
  dr_projectIds : list string;
  dr_branch : string;
  dr_commitHash : option string;
  dr_triggerBy : string;
  dr_timestamp : string;
  dr_metadata : option Metadata
}.

(** [Joi.string()] with the optional rules [min(lo)] and [max(hi)], on a
    present value; Joi refuses the empty string unless told otherwise. *)
Definition check_string (k : string) (lo hi : option nat) (s : string)
    : option ValidationError :=
  if String.eqb s "" then Some (mkError k string_empty)
  else if Nat.ltb (String.length s) (default 0 lo) then Some (mkError k string_min)
  else match hi with
       | Some n => if Nat.ltb n (String.length s) then Some (mkError k string_max) else None
       | None => None
       end.

Definition check_required_string (k : string) (lo hi : option nat) (v : option string)
    : option ValidationError :=
  match v with
  | None => Some (mkError k any_required)
  | Some s => check_string k lo hi s
  end.

Definition check_optional_string (k : string) (lo hi : option nat) (v : option string)
    : option ValidationError :=
  match v with
  | None => None
  | Some s => check_string k lo hi s
  end.

Definition check_valid (k : string) (allowed : list string) (v : option string)
    : option ValidationError :=
  match v with
  | None => None
  | Some s => if existsb (String.eqb s) allowed then None else Some (mkError k any_only)
  end.

Fixpoint first_error (checks : list (option ValidationError)) : option ValidationError :=
  match checks with
  | [] => None
  | Some e :: _ => Some e
  | None :: rest => first_error rest
  end.

(** [Joi.array().items(Joi.string().min(1).max(100)).min(1).max(10).required()]. *)
Definition check_projectIds (v : option (list string)) : option ValidationError :=
  match v with
  | None => Some (mkError "projectIds" any_required)
  | Some items =>
      first_error
        (map (check_string "projectIds" (Some 1) (Some 100)) items
         ++ [ if Nat.ltb (length items) 1 then Some (mkError "projectIds" array_min) else None;
              if Nat.ltb 10 (length items) then Some (mkError "projectIds" array_max) else None ])
  end.

Definition check_metadata (v : option Metadata) : option ValidationError :=
  match v with
  | None => None
  | Some m =>
      first_error
        [ check_valid "metadata.buildType" ["development"; "staging"; "production"] (buildType m);
          check_valid "metadata.priority" ["low"; "normal"; "high"] (md_priority m) ]
  end.

(** [multiProjectDeploymentRequestSchema.validate(data)], keys in the
    order of the schema, stopping at the first error. *)
Definition schema_validate (data : RequestBody) : option ValidationError :=
  first_error
    [ check_projectIds (projectIds data);
      check_required_string "branch" (Some 1) (Some 100) (branch data);
      check_optional_string "commitHash" (Some 7) (Some 40) (commitHash data);
      check_required_string "triggerBy" (Some 1) (Some 100) (triggerBy data);
      check_required_string "timestamp" None None (timestamp data);
      check_metadata (metadata data) ].

(** [validateMultiProjectDeploymentRequest]: throws on an error, returns
    the value otherwise. *)
Definition validateMultiProjectDeploymentRequest (data : RequestBody)
    : ValidationError + DeploymentRequest :=
  match schema_validate data with
  | Some e => inl e
  | None =>
      inr (mkRequest (default [] (projectIds data)) (default "" (branch data))
             (commitHash data) (default "" (triggerBy data))
             (default "" (timestamp data)) (metadata data))
  end.

End Validator.

Module WebhookController.
Import Validator.

Record Request := mkReq {
  x_webhook_secret : option string;
  req_body : RequestBody
}.

(** What the handler hands to [deploymentQueue.add]. *)
Record Enqueue := mkEnqueue {
  eq_jobType : string;
  eq_deploymentId : string;
  eq_request : DeploymentRequest;
  eq_priority : nat;
  eq_attempts : nat
}.

Inductive Answer :=
| Unauthorized                                  (* 401 *)
| Created (deploymentId : string) (priority projectCount : nat)   (* 200 *)
| Rejected (error : ValidationError).           (* 400 with the message of the error *)

Section Handler.
(** The queue behind [deploymentQueue], whichever backend it is. *)
Context {Q : Type} (queue_add : Enqueue → Q → Q).
Context (WEBHOOK_SECRET : string).

Definition priority_of (m : option Metadata) : nat :=
  match m ≫= md_priority with
  | Some p => if String.eqb p "high" then 10 else if String.eqb p "low" then 1 else 5
  | None => 5
  end.

(** [handleMultiProjectDeployment]; [now] and [random] are the readings
    of [Date.now()] and of the random suffix that make up the id. *)
Definition handleMultiProjectDeployment (now : nat) (random : string) (req : Request) (q : Q)
    : Answer * Q :=
  if negb (bool_decide (x_webhook_secret req = Some WEBHOOK_SECRET))
  then (Unauthorized, q)
  else
    match validateMultiProjectDeploymentRequest (req_body req) with
    | inl e => (Rejected e, q)
    | inr deploymentData =>
        let deploymentId := "deploy-" +:+ index_key now +:+ "-" +:+ random in
        let priority := priority_of (dr_metadata deploymentData) in
        let q' := queue_add (mkEnqueue "build-and-deploy-multi" deploymentId
                               deploymentData priority 3) q in
        (Created deploymentId priority (length (dr_projectIds deploymentData)), q')
    end.
End Handler.

(** The in-process queue as the backend. *)
Definition memory_add (e : Enqueue) (q : MemoryQueue.State) : MemoryQueue.State :=
  MemoryQueue.add
    (MemoryQueue.mkPayload (Some (eq_deploymentId e)) (dr_branch (eq_request e)))
    (MemoryQueue.mkOptions (eq_priority e) (eq_attempts e)) 0 q.

End WebhookController.

(** * Further parts of the service *)

(** ** The project table (config/index.ts, src/types/interfaces.ts) *)

(** [ProjectConfig]. *)
Record ProjectConfig := mkProjectConfig {
  pc_id : string;
  pc_name : string;
  pc_gitRepository : string;
  pc_gitBranch : string;
  pc_localPath : string;
  pc_buildCommand : string;
  pc_distDirectory : string;
  pc_remotePath : string;
  pc_nginxLocation : string;
  pc_port : option N
}.

(** [a || b] on texts: [undefined] and the empty text are falsy. *)
Definition or_text (a : option string) (b : string) : string :=
  match a with
  | Some s => if String.eqb s "" then b else s
  | None => b
  end.

(** [Object.keys(o)]. *)
Definition Object_keys {V} (o : list (string * V)) : list string := o.*1.

(** ** Project information (src/services/buildService.ts) *)

Module ProjectInfo.

(** The two properties read from [package.json]. *)
Record PackageJson := mkPackageJson {
  pj_name : option string;
  pj_version : option string
}.

(** One entry of the answer; [error] is set on the entries that
    [getAllProjectsInfo] makes up for a project it could not read. *)
Record Info := mkInfo {
  name : string;
  version : string;
  buildCommand : string;
  localPath : string;
  error : option string
}.

Section Service.
(** [PROJECT_CONFIGS] in key order; [path.join]; [fs.readJson]. *)
Context (PROJECT_CONFIGS : list (string * ProjectConfig)).
Context (path_join : string → string → string).
Context (readJson : string → Result PackageJson).

Definition getProjectInfo (projectId : string) : Result Info :=
  match obj_get projectId PROJECT_CONFIGS with
  | None => Throw ("项目配置不存在: " +:+ projectId)
  | Some projectConfig =>
      match readJson (path_join (pc_localPath projectConfig) "package.json") with
      | Ok packageJson =>
          Ok (mkInfo (or_text (pj_name packageJson) (pc_name projectConfig))
                (or_text (pj_version packageJson) "0.0.0")
                (pc_buildCommand projectConfig) (pc_localPath projectConfig) None)
      | Throw _ => Throw "无法读取项目信息"
      end
  end.

(** The loop of [getAllProjectsInfo] over [Object.keys(PROJECT_CONFIGS)];
    the [catch] block reads [PROJECT_CONFIGS[projectId]] again. *)
Fixpoint getAllProjectsInfo_loop (keys : list string) (results : list (string * Info))
    : Result (list (string * Info)) :=
  match keys with
  | [] => Ok results
  | projectId :: keys' =>
      match getProjectInfo projectId with
      | Ok info => getAllProjectsInfo_loop keys' (obj_set projectId info results)
      | Throw message =>
          match obj_get projectId PROJECT_CONFIGS with
          | Some projectConfig =>
              getAllProjectsInfo_loop keys'
                (obj_set projectId
                   (mkInfo (pc_name projectConfig) "0.0.0" (pc_buildCommand projectConfig)
                      (pc_localPath projectConfig) (Some message))
                   results)
          | None => Throw "TypeError: Cannot read properties of undefined"
          end
      end
  end.

Definition getAllProjectsInfo : Result (list (string * Info)) :=
  getAllProjectsInfo_loop (Object_keys PROJECT_CONFIGS) [].
End Service.

End ProjectInfo.

(** ** Texts *)

(** A line feed and a double quote. *)
Definition nl : string := String (ascii_of_nat 10) "".
Definition dq : string := String (ascii_of_nat 34) "".

(** The pieces of a template literal put together. *)
Definition text_of (pieces : list string) : string := foldr String.append "" pieces.

(** [s.includes(search)]. *)
Fixpoint String_includes (s search : string) : bool :=
  String.prefix search s
  || match s with
     | EmptyString => false
     | String _ s' => String_includes s' search
     end.

(** ** The proxy configuration text (src/services/nginxService.ts) *)

Module NginxTemplate.
Section Template.
(** [PROJECT_CONFIGS] in key order, and [Date.prototype.toISOString]. *)
Context (PROJECT_CONFIGS : list (string * ProjectConfig)).
Context (toISOString : nat → string).

(** The [location] block of one project; an unknown project gives the
    empty text. *)
Definition location_block (projectId : string) : string :=
  match obj_get projectId PROJECT_CONFIGS with
  | None => ""
  | Some config =>
    text_of [
      nl;
      "    # "; pc_name config; nl;
      "    location "; pc_nginxLocation config; " {"; nl;
      "        alias "; pc_remotePath config; "/;"; nl;
      "        index index.html;"; nl;
      "        try_files $uri $uri/ "; pc_nginxLocation config; "/index.html;"; nl;
      "        "; nl;
      "        # 设置缓存策略"; nl;
      "        location ~* \.(js|css|png|jpg|jpeg|gif|ico|svg|woff|woff2|ttf|eot)$ {"; nl;
      "            expires 1y;"; nl;
      "            add_header Cache-Control "; dq; "public, immutable"; dq; ";"; nl;
      "        }"; nl;
      "        "; nl;
      "        # 安全头设置"; nl;
      "        add_header X-Frame-Options "; dq; "SAMEORIGIN"; dq; " always;"; nl;
      "        add_header X-Content-Type-Options "; dq; "nosniff"; dq; " always;"; nl;
      "        add_header Referrer-Policy "; dq; "no-referrer-when-downgrade"; dq; " always;"; nl;
      "        add_header Content-Security-Policy "; dq; "default-src 'self' http: https: data: blob: 'unsafe-inline'"; dq; " always;"; nl;
      "    }"
    ]
  end.

(** [PROJECT_CONFIGS[projectIds[0]]?.nginxLocation || '/admin']; the
    index [undefined] of an empty list reads the key 'undefined'. *)
Definition root_location (projectIds : list string) : string :=
  or_text (pc_nginxLocation <$> obj_get (default "undefined" (head projectIds)) PROJECT_CONFIGS)
    "/admin".

Definition generateNginxConfig (projectIds : list string) (serverHost : string) (now : nat)
    : string :=
  let locations := String.concat nl (map location_block projectIds) in
  text_of [
      "# 前端项目Nginx配置"; nl;
      "# 自动生成时间: "; toISOString now; nl;
      "# 部署的项目: "; String.concat ", " projectIds; nl;
      nl;
      "server {"; nl;
      "    listen 80;"; nl;
      "    server_name "; serverHost; ";"; nl;
      "    "; nl;
      "    # 日志配置"; nl;
      "    access_log /var/log/nginx/frontend_access.log;"; nl;
      "    error_log /var/log/nginx/frontend_error.log;"; nl;
      "    "; nl;
      "    # 全局安全设置"; nl;
      "    server_tokens off;"; nl;
      "    "; nl;
      "    # Gzip压缩"; nl;
      "    gzip on;"; nl;
      "    gzip_vary on;"; nl;
      "    gzip_min_length 1024;"; nl;
      "    gzip_proxied expired no-cache no-store private must-revalidate auth;"; nl;
      "    gzip_types text/plain text/css text/xml text/javascript application/javascript application/xml+rss application/json;"; nl;
      "    "; nl;
      "    # 根路径重定向到主应用"; nl;
      "    location = / {"; nl;
      "        return 301 "; root_location projectIds; ";"; nl;
      "    }"; nl;
      "    "; nl;
      "    # 健康检查端点"; nl;
      "    location /health {"; nl;
      "        access_log off;"; nl;
      "        return 200 "; dq; "healthy\n"; dq; ";"; nl;
      "        add_header Content-Type text/plain;"; nl;
      "    }"; nl;
      locations; nl;
      "    "; nl;
      "    # 404处理"; nl;
      "    error_page 404 /404.html;"; nl;
      "    location = /404.html {"; nl;
      "        root /usr/share/nginx/html;"; nl;
      "    }"; nl;
      "    "; nl;
      "    # 50x错误处理"; nl;
      "    error_page 500 502 503 504 /50x.html;"; nl;
      "    location = /50x.html {"; nl;
      "        root /usr/share/nginx/html;"; nl;
      "    }"; nl;
      "}"; nl;
      nl;
      "# HTTPS重定向 (可选)"; nl;
      "# server {"; nl;
      "#     listen 443 ssl http2;"; nl;
      "#     server_name "; serverHost; ";"; nl;
      "#     "; nl;
      "#     ssl_certificate /path/to/certificate.crt;"; nl;
      "#     ssl_certificate_key /path/to/private.key;"; nl;
      "#     "; nl;
      "#     # SSL配置"; nl;
      "#     ssl_protocols TLSv1.2 TLSv1.3;"; nl;
      "#     ssl_ciphers ECDHE-RSA-AES256-GCM-SHA512:DHE-RSA-AES256-GCM-SHA512:ECDHE-RSA-AES256-GCM-SHA384;"; nl;
      "#     "; nl;
      "#     # 包含上面的location块"; nl;
      "# }"; nl
  ].

(** [getActiveProjects]: the configured projects whose [location] line
    occurs in the live file; none when the file is missing. *)
Definition getActiveProjects (fs : NginxFs) : list string :=
  match live_config fs with
  | None => []
  | Some configContent =>
      (filter (λ e : string * ProjectConfig,
                 String_includes configContent ("location " +:+ pc_nginxLocation e.2) = true)
         PROJECT_CONFIGS).*1
  end.

(** [generateConfigPreview]. *)
Definition generateConfigPreview (projectIds : list string) (serverHost : string) (now : nat)
    : string :=
  generateNginxConfig projectIds serverHost now.
End Template.
End NginxTemplate.

(** ** Lists and flat records of the Job Store (src/jobs/deploymentJob.ts) *)

(** [array.slice(start, end)]: a negative index counts from the end,
    every index is clamped to the array, and a missing [end] is the
    length. *)
Definition Array_slice {T} (start : Z) (end_ : option Z) (array : list T) : list T :=
  let len := Z.of_nat (length array) in
  let relative (i : Z) : Z := if (i <? 0)%Z then Z.max (len + i) 0 else Z.min i len in
  let k := relative start in
  let final := match end_ with Some e => relative e | None => len end in
  take (Z.to_nat (final - k)) (drop (Z.to_nat k) array).

(** The lists of the store, by key. *)
Abbreviation Lists := (gmap string (list string)).

Module MemoryRedisCommands.
(** [class MemoryRedis], the commands besides [hgetall] and the
    three-argument call of [hset].  The class keeps objects and arrays in
    one [Map]; the model keeps the arrays apart, under their keys. *)

(** [hset(key, data)] with an object: [Object.assign] copies the
    properties of [data], in their order, over the stored object. *)
Definition hset_object (key : string) (data : list (string * Val)) (storage : Hashes) : Hashes :=
  let target := default ∅ (storage !! key) in
  <[key := foldl (λ target kv, <[kv.1 := kv.2]> target) target data]> storage.

(** [lpush]: [unshift] on the stored array, a fresh one when the key is new. *)
Definition lpush (key value : string) (storage : Lists) : Lists :=
  <[key := value :: default [] (storage !! key)]> storage.

(** [lrange]: [slice(start)] when [end] is -1, [slice(start, end + 1)] otherwise. *)
Definition lrange (key : string) (start end_ : Z) (storage : Lists) : list string :=
  let items := default [] (storage !! key) in
  if (end_ =? -1)%Z then Array_slice start None items
  else Array_slice start (Some (end_ + 1)%Z) items.

(** [ltrim]: [slice(start, end + 1)] whatever [end] is; nothing for a
    key that is not there. *)
Definition ltrim (key : string) (start end_ : Z) (storage : Lists) : Lists :=
  match storage !! key with
  | Some items => <[key := Array_slice start (Some (end_ + 1)%Z) items]> storage
  | None => storage
  end.

(** [exists]: 1 when the [Map] has the key, as an object or as an array. *)
Definition exists_ (key : string) (objects : Hashes) (arrays : Lists) : bool :=
  bool_decide (is_Some (objects !! key) ∨ is_Some (arrays !! key)).
End MemoryRedisCommands.

Module RedisCommands.
(** The Redis server commands behind the other ioredis calls of the
    service. *)

(** [HSET key field value [field value ...]]. *)
Definition hset_object (key : string) (data : list (string * Val)) (db : Hashes) : Hashes :=
  <[key := foldl (λ h kv, <[kv.1 := kv.2]> h) (default ∅ (db !! key)) data]> db.

Definition lpush (key value : string) (db : Lists) : Lists :=
  <[key := value :: default [] (db !! key)]> db.

(** The elements [start .. stop] of a list of length [len], both ends
    included, after the server has resolved negative offsets and
    clamped the range; [None] is the empty range. *)
Definition resolve_range (len start stop : Z) : option (Z * Z) :=
  let start := if (start <? 0)%Z then (len + start)%Z else start in
  let stop := if (stop <? 0)%Z then (len + stop)%Z else stop in
  let start := Z.max start 0 in
  if (stop <? start)%Z || (len <=? start)%Z then None
  else Some (start, Z.min stop (len - 1)).

Definition range {T} (start stop : Z) (items : list T) : list T :=
  match resolve_range (Z.of_nat (length items)) start stop with
  | Some (first, last) => take (Z.to_nat (last - first + 1)) (drop (Z.to_nat first) items)
  | None => []
  end.

(** [LRANGE key start stop]. *)
Definition lrange (key : string) (start stop : Z) (db : Lists) : list string :=
  range start stop (default [] (db !! key)).

(** [LTRIM key start stop]; a list trimmed to nothing is removed. *)
Definition ltrim (key : string) (start stop : Z) (db : Lists) : Lists :=
  match db !! key with
  | Some items =>
      match range start stop items with
      | [] => delete key db
      | kept => <[key := kept]> db
      end
  | None => db
  end.

(** [EXISTS key]. *)
Definition exists_ (key : string) (hashes : Hashes) (lists : Lists) : bool :=
  bool_decide (is_Some (hashes !! key) ∨ is_Some (lists !! key)).
End RedisCommands.

Definition get_lists : M Lists := λ w, (Ok (w_lists w), w).
Definition put_lists (l : Lists) : M unit := λ w,
  (Ok tt, mkWorld (w_hashes w) l (w_nginx w) (w_clock w) (w_trace w)).

Definition logsKey (deploymentId : string) : string :=
  "deployment:" +:+ deploymentId +:+ ":logs".

(** [LogEntry] as [addDeploymentLog] builds it. *)
Record LogEntry := mkLogEntry {
  le_timestamp : string;
  le_level : string;
  le_message : string;
  le_data : option string
}.

(** [8 * 60 * 1000], the estimated duration in milliseconds. *)
Definition estimatedDuration : nat := 8 * 60 * 1000.
Global Arguments estimatedDuration : simpl never.

Section LegacyStore.
Context (env : Env).
(** [Date.prototype.toISOString] and [JSON.stringify] on a log entry. *)
Context (toISOString : nat → string).
Context (JSON_stringify : LogEntry → string).

(** A list command on a key that holds a hash is refused by the server;
    in memory the stored object has no [unshift] and no [slice], unless
    the key holds an array. *)
Definition list_command (key : string) (f : Lists → Lists) : M unit :=
  h ← get_hashes;
  l ← get_lists;
  if REDIS_ENABLED env
  then (if bool_decide (is_Some (h !! key))
        then throw "WRONGTYPE Operation against a key holding the wrong kind of value"
        else put_lists (f l))
  else (if bool_decide (is_Some (h !! key)) && negb (bool_decide (is_Some (l !! key)))
        then throw "TypeError: not a function"
        else put_lists (f l)).

Definition redis_lpush (key value : string) : M unit :=
  list_command key (if REDIS_ENABLED env then RedisCommands.lpush key value
                    else MemoryRedisCommands.lpush key value).

Definition redis_ltrim (key : string) (start stop : Z) : M unit :=
  list_command key (if REDIS_ENABLED env then RedisCommands.ltrim key start stop
                    else MemoryRedisCommands.ltrim key start stop).

Definition redis_exists (key : string) : M bool :=
  h ← get_hashes;
  l ← get_lists;
  mret (if REDIS_ENABLED env then RedisCommands.exists_ key h l
        else MemoryRedisCommands.exists_ key h l).

(** [redis.hset(key, statusData)] with an object; the server refuses a
    key that holds a list. *)
Definition redis_hset_object (key : string) (data : list (string * Val)) : M unit :=
  h ← get_hashes;
  l ← get_lists;
  if REDIS_ENABLED env
  then (if bool_decide (is_Some (l !! key))
        then throw "WRONGTYPE Operation against a key holding the wrong kind of value"
        else put_hashes (RedisCommands.hset_object key data h))
  else put_hashes (MemoryRedisCommands.hset_object key data h).

(** [addDeploymentLog]: the entry goes to the head of the log, the log
    is cut to its first hundred entries; every error is caught. *)
Definition addDeploymentLog (deploymentId level message : string) (data : option string)
    : M unit :=
  try_catch
    (let logsKey := logsKey deploymentId in
     now ← Date_now;
     let logEntry := mkLogEntry (toISOString now) level message data in
     redis_lpush logsKey (JSON_stringify logEntry) ;;
     redis_ltrim logsKey 0 99 ;;
     redis_expire logsKey 86400%N)
    (λ _, mret tt).

(** [updateDeploymentStatus], the writer of the flat layout. *)
Definition updateDeploymentStatus (deploymentId status message : string)
    (progress : option nat) (endTime : option string) : M unit :=
  try_catch
    (let statusKey := statusKey deploymentId in
     updatedAt ← Date_now;
     let statusData :=
       [("status", VStr status); ("currentStep", VStr message);
        ("updatedAt", VStr (toISOString updatedAt))] in
     let statusData :=
       match progress with
       | Some n => obj_set "progress" (VStr (index_key n)) statusData
       | None => statusData
       end in
     let statusData :=
       match endTime with
       | Some t => if String.eqb t "" then statusData else obj_set "endTime" (VStr t) statusData
       | None => statusData
       end in
     exists_ ← redis_exists statusKey;
     statusData ←
       (if (exists_ : bool) then mret statusData
        else
          startTime ← Date_now;
          now ← Date_now;
          mret (obj_set "estimatedCompletion" (VStr (toISOString (now + estimatedDuration)))
                  (obj_set "startTime" (VStr (toISOString startTime)) statusData)));
     redis_hset_object statusKey statusData ;;
     redis_expire statusKey 86400%N)
    (λ _, mret tt).
End LegacyStore.

(** ** The deployment history (DeploymentController.getDeploymentHistory) *)

(** [s.split(sep)] for a separator of one character. *)
Fixpoint String_split (sep : ascii) (s : string) : list string :=
  match s with
  | EmptyString => [""]
  | String c s' =>
      if Ascii.eqb c sep then "" :: String_split sep s'
      else match String_split sep s' with
           | piece :: pieces => String c piece :: pieces
           | [] => [String c ""]
           end
  end.

Module DeploymentHistory.

(** One element of [deployments]: the id and the fields of the flat
    record the element is made of. *)
Record Entry := mkEntry {
  deploymentId : string;
  statusData : gmap string Val
}.

Record Response := mkResponse {
  deployments : list Entry;
  total : nat;
  offset : Z;
  limit : Z
}.

(** [parseInt(v) || d]: both NaN and 0 are falsy. *)
Definition or_number (v : option Z) (d : Z) : Z :=
  match v with
  | Some n => if (n =? 0)%Z then d else n
  | None => d
  end.

Section Handler.
Context (redis_enabled : bool).
(** What [redis.keys('deployment:*:status')] answered, and
    [Array.prototype.sort] with the comparator of the start times. *)
Context (keys : list string).
Context (sort : list Entry → list Entry).

(** [key.split(':')[1]], and 'undefined' in the place of a missing piece. *)
Definition id_of_key (key : string) : string :=
  default "undefined" (String_split ":" key !! 1).

(** The handler, from the two query parameters as [parseInt] reads them
    ([None] for NaN, the defaults 50 and 0 when they are absent). *)
Definition getDeploymentHistory (limit offset : option Z) (w : World) : Response :=
  let deploymentIds := map id_of_key keys in
  let startIndex := or_number offset 0 in
  let endIndex := (startIndex + or_number limit 50)%Z in
  let paginatedIds := Array_slice startIndex (Some endIndex) deploymentIds in
  let deployments :=
    omap (λ deploymentId,
            let statusKey := statusKey deploymentId in
            let statusData :=
              if redis_enabled then Redis.hgetall statusKey (w_hashes w)
              else MemoryRedis.hgetall statusKey (w_hashes w) in
            if truthy (statusData !! "status")
            then Some (mkEntry deploymentId statusData)
            else None)
         paginatedIds in
  mkResponse (sort deployments) (length deploymentIds) startIndex (or_number limit 50).
End Handler.

End DeploymentHistory.

(** ** The other methods of the in-process queue and the queue status
       (src/jobs/deploymentJob.ts, src/controllers/webhookController.ts) *)

Module QueueStatus.
Import MemoryQueue.

(** [getCompleted] and [getFailed] of [class MemoryQueue]. *)
Definition getCompleted (q : State) : list nat :=
  filter (λ r, status_of (heap q) r = Some "completed") ((jobs q).*2).

Definition getFailed (q : State) : list nat :=
  filter (λ r, status_of (heap q) r = Some "failed") ((jobs q).*2).

(** [close]: the map is cleared; the job objects in the hands of a
    running pass stay as they are. *)
Definition close (q : State) : State :=
  mkState (heap q) [] (processing q) (loops q) (immediates q) (started q) (emitted q).

(** The answer of [getQueueStatus]: the four counts and the active jobs,
    or status 500 with the message of the error. *)
Inductive Answer :=
| Counts (waiting active completed failed : nat) (activeJobs : list Job)
| InternalError (message : string).

(** [WebhookController.getQueueStatus] on the in-process queue.  The
    jobs [getActive] returns are the job objects of the map, whose
    [progress] is a number: the call [job.progress()] in the callback of
    [active.map] throws for the first active job. *)
Definition getQueueStatus (q : State) : Answer :=
  let waiting := getWaiting q in
  let active := getActive q in
  let completed := getCompleted q in
  let failed := getFailed q in
  match active with
  | [] => Counts (length waiting) (length active) (length completed) (length failed) []
  | _ :: _ => InternalError "job.progress is not a function"
  end.

End QueueStatus.

(** The in-process queue behind the webhook, [added] being the reading of
    [Date.now()] inside [add]. *)
Definition memory_add_at (added : nat) (e : WebhookController.Enqueue) (q : MemoryQueue.State)
    : MemoryQueue.State :=
  MemoryQueue.add
    (MemoryQueue.mkPayload (Some (WebhookController.eq_deploymentId e))
       (Validator.dr_branch (WebhookController.eq_request e)))
    (MemoryQueue.mkOptions (WebhookController.eq_priority e) (WebhookController.eq_attempts e))
    added q.

(** * The Task Queue contract, in the words of the specification *)

Module SpecTaskQueue.

(** A JobRecord of the contract. *)
Record JobRecord := mkRecord {
  id : string;
  attempt : nat;
  maxAttempts : nat;
  status : string;
  priority : nat
}.

(** The records in enqueue order, and the events emitted, newest first. *)
Record State := mkState {
  records : list JobRecord;
  emitted : list (string * string)
}.

Definition empty : State := mkState [] [].

Definition pending (j : JobRecord) : bool :=
  String.eqb (status j) "waiting" || String.eqb (status j) "active".

(** Idempotent enqueue by id: a job that is waiting or active is not
    enqueued again under its id. *)
Definition enqueue (jobId : string) (prio maxA : nat) (q : State) : State :=
  if existsb (λ j, String.eqb (id j) jobId && pending j) (records q)
  then q
  else mkState (filter (λ j, id j ≠ jobId) (records q)
                  ++ [mkRecord jobId 0 maxA "waiting" prio])
         (emitted q).

(** Among the waiting jobs the one of highest priority, the earliest
    enqueued among equals. *)
Fixpoint best_waiting (rs : list JobRecord) : option JobRecord :=
  match rs with
  | [] => None
  | j :: rs' =>
      match best_waiting rs' with
      | Some b =>
          if String.eqb (status j) "waiting" && Nat.leb (priority b) (priority j)
          then Some j else Some b
      | None => if String.eqb (status j) "waiting" then Some j else None
      end
  end.

Definition update (jobId : string) (f : JobRecord → JobRecord) (rs : list JobRecord)
    : list JobRecord :=
  map (λ j, if String.eqb (id j) jobId then f j else j) rs.

(** At most one handler invocation is active: when none is, the best
    waiting job is handed to the handler. *)
Definition dispatch (q : State) : State :=
  if existsb (λ j, String.eqb (status j) "active") (records q) then q
  else match best_waiting (records q) with
       | Some b =>
           mkState (update (id b)
                      (λ j, mkRecord (id j) (S (attempt j)) (maxAttempts j) "active" (priority j))
                      (records q))
             (emitted q)
       | None => q
       end.

(** The active handler settles.  On an exception the job is re-scheduled
    while its attempts are below the maximum; otherwise it is marked
    'failed' and 'failed' is emitted. *)
Definition settle (fulfilled : bool) (q : State) : State :=
  match filter (λ j, status j = "active") (records q) with
  | j :: _ =>
      if fulfilled
      then dispatch (mkState (update (id j)
                       (λ j, mkRecord (id j) (attempt j) (maxAttempts j) "completed" (priority j))
                       (records q))
                     (("completed", id j) :: emitted q))
      else if Nat.ltb (attempt j) (maxAttempts j)
      then dispatch (mkState (update (id j)
                       (λ j, mkRecord (id j) (attempt j) (maxAttempts j) "waiting" (priority j))
                       (records q))
                     (emitted q))
      else dispatch (mkState (update (id j)
                       (λ j, mkRecord (id j) (attempt j) (maxAttempts j) "failed" (priority j))
                       (records q))
                     (("failed", id j) :: emitted q))
  | [] => q
  end.

Definition step (q : State) (l : MemoryQueue.Label) : State :=
  match l with
  | MemoryQueue.Add data opts now =>
      enqueue (MemoryQueue.job_id data now) (MemoryQueue.priority opts)
        (MemoryQueue.attempts opts) q
  | MemoryQueue.Immediate => dispatch q
  | MemoryQueue.Settle _ fulfilled => settle fulfilled q
  end.

Definition run (ls : list MemoryQueue.Label) : State := foldl step empty ls.

(** What a caller sees: the state of every job by id, and the events. *)
Definition observe (q : State) : list (string * string) * list (string * string) :=
  (map (λ j, (id j, status j)) (records q), emitted q).

End SpecTaskQueue.

(** * Vocabulary of the properties *)

(** A triple with one postcondition for a fulfilled and one for a
    rejected run. *)
Definition hoare {A} (P : World → Prop) (c : M A)
    (Q : A → World → Prop) (E : string → World → Prop) : Prop :=
  ∀ w, P w →
    match c w with
    | (Ok a, w') => Q a w'
    | (Throw e, w') => E e w'
    end.

(** The record a status query can read back: the parsed [data] field
    under the status key. *)
Definition status_record (w : World) (deploymentId : string)
    : option MultiProjectDeploymentStatus :=
  match w_hashes w !! statusKey deploymentId with
  | Some h => match h !! "data" with
              | Some (VJson st) => Some st
              | _ => None
              end
  | None => None
  end.

Definition project_status (st : MultiProjectDeploymentStatus) (projectId : string)
    : option string :=
  ps_status <$> ds_projects st !! projectId.

(** Every project of [qs] has an entry whose status satisfies [S]. *)
Definition AllP (qs : list string) (S : string → string → Prop)
    (st : MultiProjectDeploymentStatus) : Prop :=
  ∀ p, p ∈ qs → ∃ s, project_status st p = Some s ∧ S p s.

Definition with_overall (status : string) (estimated : option nat)
    (st : MultiProjectDeploymentStatus) : MultiProjectDeploymentStatus :=
  mkMultiStatus (ds_deploymentId st) status (ds_projects st) (ds_startTime st) estimated.

(** The world after [redis.hset(statusKey, 'data', JSON.stringify(st))]. *)
Definition set_rec (d : string) (st : MultiProjectDeploymentStatus) (w : World) : World :=
  mkWorld (Redis.hset (statusKey d) "data" (VJson st) (w_hashes w))
    (w_lists w) (w_nginx w) (w_clock w) (w_trace w).

(** The three parts of the invariant: the events added since [t0] all
    satisfy [G]; the proxy files satisfy [N]; the status record exists
    and satisfies [R]. *)
Definition Inv (d : string) (t0 : list Event) (G : Event → Prop) (N : NginxFs → Prop)
    (R : MultiProjectDeploymentStatus → Prop) (w : World) : Prop :=
  (∃ tn, w_trace w = tn ++ t0 ∧ Forall G tn)
  ∧ N (w_nginx w)
  ∧ ∃ st, status_record w d = Some st ∧ R st.

Definition is_nginx_event (e : Event) : Prop :=
  match e with
  | EvNginxSnapshot _ | EvNginxWrite _ | EvNginxValidate _
  | EvNginxReload _ | EvNginxRestore _ _ => True
  | _ => False
  end.

(** [c] leaves the store alone and adds only events that satisfy [P]. *)
Definition store_frame {A} (P : Event → Prop) (c : M A) : Prop :=
  ∀ w, w_hashes (c w).2 = w_hashes w ∧ w_lists (c w).2 = w_lists w
       ∧ ∃ tn, w_trace (c w).2 = tn ++ w_trace w ∧ Forall P tn.

(** [R] is kept by any project write of status [s]. *)
Definition kept_by (R : MultiProjectDeploymentStatus → Prop) (s : string) : Prop :=
  ∀ st p pr m, R st → R (set_project p (mkProjectStageStatus s pr m) st).

(** The [catch] block of the pipeline: the aggregate becomes 'failed',
    the cleanup and the failure notification run, the error is
    re-thrown. *)
Definition failed_post (d : string) (t0 : list Event) (G : Event → Prop) (N : NginxFs → Prop)
    (R : MultiProjectDeploymentStatus → Prop) (qs : list string) (error : string)
    : string → World → Prop :=
  λ e w, e = error ∧
    ∃ tn st0 st,
      w_trace w = EvNotifyFailure error :: EvCleanupOnFailure qs
                    :: EvOverallWrite (statusKey d) "failed" st :: tn ++ t0
      ∧ Forall G tn ∧ N (w_nginx w) ∧ R st0
      ∧ st = with_overall "failed" (ds_estimatedCompletion st0) st0
      ∧ status_record w d = Some st.

Definition AllCompleted (ps : list string) (st : MultiProjectDeploymentStatus) : Prop :=
  ∀ p, p ∈ ps → project_status st p = Some "completed".

(** A write of the aggregate status 'completed' carries a record in which
    every project of the deployment is 'completed'. *)
Definition completed_write_ok (ps : list string) (e : Event) : Prop :=
  match e with
  | EvOverallWrite _ s st => s = "completed" → AllCompleted ps st
  | _ => True
  end.

Definition clone_fails (env : Env) (d p : string) : Prop :=
  is_ok (cloneOrUpdateProject env d p) = false.

(** The events of a run that has not gone past the cloning stage. *)
Definition before_build_event (e : Event) : Prop :=
  match e with
  | EvProgress n => n = 5
  | EvClone _ => True
  | _ => False
  end.

(** What the cloning stage leaves in the record. *)
Definition after_clone (env : Env) (d p s : string) : Prop :=
  (s = "failed" ∨ s = "cloning") ∧ (clone_fails env d p → s = "failed").

(** The [data] field under the status key of a deployment, if any. *)
Definition data_field (w : World) (d : string) : option Val :=
  w_hashes w !! statusKey d ≫= λ h, h !! "data".

(** The status key of deployment [d] holds no [data] field. *)
Definition no_record (d : string) (w : World) : Prop := data_field w d = None.

(** [c] keeps [I], whether it is fulfilled or rejected. *)
Definition preserves {A} (I : World → Prop) (c : M A) : Prop :=
  hoare I c (λ _, I) (λ _, I).

(** The text of the snapshot that [ls -t | head -1] names once
    [backupNginxConfig] has run on the files [n]: the copy just taken of
    the live file, or else the newest older snapshot. *)
Definition prior_config (n : NginxFs) : option string :=
  match live_config n with
  | Some old => Some old
  | None => snd <$> head (snapshots n)
  end.

(** Every syntax check recorded in the trace passed. *)
Definition check_passed (env : Env) (e : Event) : Prop :=
  match e with
  | EvNginxValidate live => is_ok (nginx_t env live) = true
  | _ => True
  end.

(** The live file holds [r] again and the proxy was reloaded right after
    the snapshot was copied back. *)
Definition restored (r : string) (t0 : list Event) (w : World) : Prop :=
  live_config (w_nginx w) = Some r
  ∧ ∃ name t1 t2,
      w_trace w = t1 ++ EvNginxReload (Some r) :: EvNginxRestore name r :: t2 ++ t0.

(** The world the [catch] block of the pipeline leaves. *)
Definition after_failure (d : string) (qs : list string) (error : string)
    (st : MultiProjectDeploymentStatus) (w : World) : World :=
  let st' := with_overall "failed" (ds_estimatedCompletion st) st in
  mkWorld (Redis.hset (statusKey d) "data" (VJson st') (w_hashes w))
    (w_lists w) (w_nginx w) (w_clock w)
    (EvNotifyFailure error :: EvCleanupOnFailure qs
       :: EvOverallWrite (statusKey d) "failed" st' :: w_trace w).

(** One reconfiguration of the proxy, keeping the world it leaves. *)
Definition reconfigure (env : Env) (d : string) (qs : list string) (h : string)
    (w : World) : World :=
  (updateNginxConfig env d qs h w).2.

Definition proxy_accepts_all (env : Env) : Prop :=
  (∀ live, nginx_t env live = Ok tt) ∧ (∀ live, nginx_reload env live = Ok tt).

(** The live file exists and every snapshot is older than the clock. *)
Definition proxy_files_ok (w : World) : Prop :=
  is_Some (live_config (w_nginx w))
  ∧ Forall (λ s : nat * string, s.1 < w_clock w) (snapshots (w_nginx w)).

(** The snapshots taken by a series of uploads, newest first, with the
    content each one holds: the target as it was before that upload. *)
Fixpoint snapshots_of (before : string) (uploads : list (nat * string))
    : list (UploadService.EntryName * list string) :=
  match uploads with
  | [] => []
  | (t, artifact) :: rest => snapshots_of artifact rest ++ [(UploadService.Snapshot t, [before])]
  end.

Definition exclusive (q : MemoryQueue.State) : Prop :=
  (MemoryQueue.processing q = false → MemoryQueue.loops q = []) ∧ length (MemoryQueue.loops q) ≤ 1.

Definition outcome_name (fulfilled : bool) : string :=
  if fulfilled then "completed" else "failed".

Section QueueVocabulary.
Import MemoryQueue.

(** The handlers of a pass settle one after the other. *)
Definition settle_all (outcomes : list bool) (q : State) : State :=
  foldl (λ q ok, settle 0 ok q) q outcomes.

(** What a pass over the array [ws] does to a queue with no loop
    suspended. *)
Record pass_result (ws : list nat) (outcomes : list bool) (q q' : State) : Prop := {
  pass_idle : loops q' = [] ∧ processing q' = false;
  pass_started : started q' = reverse ws ++ started q;
  pass_emitted :
    emitted q'
    = reverse (zip_with (λ r ok, (outcome_name ok, id_of (heap q) r)) ws outcomes)
      ++ emitted q;
  pass_map : jobs q' = jobs q ∧ immediates q' = immediates q;
  pass_status : ∀ i r ok, ws !! i = Some r → outcomes !! i = Some ok →
                  status_of (heap q') r = Some (outcome_name ok);
  pass_others : ∀ r, r ∉ ws → heap q' !! r = heap q !! r;
  pass_heap : length (heap q') = length (heap q) ∧ ∀ r, id_of (heap q') r = id_of (heap q) r
}.

(** The references of the map are distinct and point into the heap. *)
Definition wf (q : State) : Prop :=
  (∀ r, r ∈ (jobs q).*2 → r < length (heap q)) ∧ NoDup ((jobs q).*2).

End QueueVocabulary.

(** What a caller of [getJob] and a listener see of the in-process queue. *)
Definition MemoryQueue_observe (q : MemoryQueue.State)
    : list (string * string) * list (string * string) :=
  (map (λ kr, (kr.1, default "" (MemoryQueue.status_of (MemoryQueue.heap q) kr.2)))
     (MemoryQueue.jobs q),
   MemoryQueue.emitted q).

(** ** Vocabulary of the further properties *)

(** The world after the events [es], oldest last, were added. *)
Definition pushes (es : list Event) (w : World) : World :=
  mkWorld (w_hashes w) (w_lists w) (w_nginx w) (w_clock w) (es ++ w_trace w).

(** What the builds of a project list file under [results] and [errors],
    whatever the chunking. *)
Definition build_step (env : Env) (d : string) (acc : BuildAcc) (p : string) : BuildAcc :=
  match buildProject env d p with
  | Ok distPath => mkBuildAcc (obj_set p distPath (results acc)) (errors acc)
  | Throw message => mkBuildAcc (results acc) (obj_set p message (errors acc))
  end.

(** The entry [getAllProjectsInfo] files for a configured project. *)
Definition project_entry (path_join : string → string → string)
    (readJson : string → Result ProjectInfo.PackageJson) (pc : ProjectConfig)
    : ProjectInfo.Info :=
  match readJson (path_join (pc_localPath pc) "package.json") with
  | Ok packageJson =>
      ProjectInfo.mkInfo (or_text (ProjectInfo.pj_name packageJson) (pc_name pc))
        (or_text (ProjectInfo.pj_version packageJson) "0.0.0")
        (pc_buildCommand pc) (pc_localPath pc) None
  | Throw _ =>
      ProjectInfo.mkInfo (pc_name pc) "0.0.0" (pc_buildCommand pc) (pc_localPath pc)
        (Some "无法读取项目信息")
  end.

(** The text holds no colon. *)
Fixpoint no_colon (s : string) : bool :=
  match s with
  | EmptyString => true
  | String c s' => negb (Ascii.eqb c ":") && no_colon s'
  end.

(** One field of one hash of the store. *)
Definition field_of (w : World) (key field : string) : option Val :=
  w_hashes w !! key ≫= λ h, h !! field.

(** The fields the status reporter writes under a status key: [data] on
    the server; in memory the indices of the four characters of the
    text 'data'. *)
Definition written_fields (env : Env) : list string :=
  if REDIS_ENABLED env then ["data"] else ["0"; "1"; "2"; "3"].

(** [w] differs from [w0] at most in the written fields of the status
    key of [d]. *)
Definition same_fields (env : Env) (d : string) (w0 w : World) : Prop :=
  (∀ k f, k ≠ statusKey d ∨ f ∉ written_fields env → field_of w k f = field_of w0 k f)
  ∧ w_lists w = w_lists w0.

(** The states a job of the in-process queue goes through. *)
Definition job_states : list string := ["waiting"; "active"; "completed"; "failed"].

(** What holds of the job objects in every state the queue reaches:
    each has one of the four states; an active one is in the hands of
    the running pass; a pass holds references into the heap. *)
Definition queue_inv (q : MemoryQueue.State) : Prop :=
  (∀ r s, MemoryQueue.status_of (MemoryQueue.heap q) r = Some s → s ∈ job_states)
  ∧ (∀ r, MemoryQueue.status_of (MemoryQueue.heap q) r = Some "active" →
       ∃ rest, MemoryQueue.loops q = [(r, rest)])
  ∧ (∀ r rest, (r, rest) ∈ MemoryQueue.loops q →
       r < length (MemoryQueue.heap q)
       ∧ Forall (λ x, x < length (MemoryQueue.heap q)) rest).

(** A label other than a call of [add]. *)
Definition not_an_add (l : MemoryQueue.Label) : Prop :=
  match l with MemoryQueue.Add _ _ _ => False | _ => True end.

(** The bounds [min(lo)] and [max(hi)] of a Joi string. *)
Definition length_between (lo hi : nat) (s : string) : Prop :=
  lo ≤ String.length s ≤ hi.

(** A body as the schema for several projects describes it. *)
Definition well_formed (data : Validator.RequestBody) : Prop :=
  (∃ items, Validator.projectIds data = Some items
     ∧ 1 ≤ length items ≤ 10 ∧ Forall (length_between 1 100) items)
  ∧ (∃ b, Validator.branch data = Some b ∧ length_between 1 100 b)
  ∧ (∀ c, Validator.commitHash data = Some c → length_between 7 40 c)
  ∧ (∃ t, Validator.triggerBy data = Some t ∧ length_between 1 100 t)
  ∧ (∃ t, Validator.timestamp data = Some t ∧ t ≠ "")
  ∧ (∀ m, Validator.metadata data = Some m →
       (∀ b, Validator.buildType m = Some b → b ∈ ["development"; "staging"; "production"])
       ∧ (∀ p, Validator.md_priority m = Some p → p ∈ ["low"; "normal"; "high"])).

(** * Concrete inputs *)

(** An environment in which every adapter succeeds. *)
Definition env_all_ok : Env := {|
  REDIS_ENABLED := true;
  CONCURRENT_BUILDS_pred := 1;
  cloneOrUpdateProject := λ _ _, Ok tt;
  buildProject := λ _ p, Ok ("/srv/projects/" +:+ p +:+ "/dist");
  getServerConfig := λ _ _, Ok (mkServerConfig "10.0.0.5" "/var/www" None);
  uploadMultipleProjects := λ _ _ _, Ok tt;
  generateNginxConfig := λ _ h _, "server { server_name " +:+ h +:+ "; }";
  nginx_t := λ _, Ok tt;
  nginx_reload := λ _, Ok tt
|}.

(** The same, except that the build of project "b" exits with an error. *)
Definition env_build_b_fails : Env := {|
  REDIS_ENABLED := true;
  CONCURRENT_BUILDS_pred := 1;
  cloneOrUpdateProject := λ _ _, Ok tt;
  buildProject := λ _ p,
    if String.eqb p "b" then Throw "Command failed: npm run build"
    else Ok ("/srv/projects/" +:+ p +:+ "/dist");
  getServerConfig := λ _ _, Ok (mkServerConfig "10.0.0.5" "/var/www" None);
  uploadMultipleProjects := λ _ _ _, Ok tt;
  generateNginxConfig := λ _ h _, "server { server_name " +:+ h +:+ "; }";
  nginx_t := λ _, Ok tt;
  nginx_reload := λ _, Ok tt
|}.

(** An environment in which the source of project "b" cannot be fetched. *)
Definition env_clone_b_fails : Env := {|
  REDIS_ENABLED := true;
  CONCURRENT_BUILDS_pred := 1;
  cloneOrUpdateProject := λ _ p,
    if String.eqb p "b" then Throw "fatal: repository not found" else Ok tt;
  buildProject := λ _ p, Ok ("/srv/projects/" +:+ p +:+ "/dist");
  getServerConfig := λ _ _, Ok (mkServerConfig "10.0.0.5" "/var/www" None);
  uploadMultipleProjects := λ _ _ _, Ok tt;
  generateNginxConfig := λ _ h _, "server { server_name " +:+ h +:+ "; }";
  nginx_t := λ _, Ok tt;
  nginx_reload := λ _, Ok tt
|}.

(** An environment whose proxy accepts only the configuration that is
    live before the run. *)
Definition env_nginx_rejects_new : Env := {|
  REDIS_ENABLED := true;
  CONCURRENT_BUILDS_pred := 1;
  cloneOrUpdateProject := λ _ _, Ok tt;
  buildProject := λ _ p, Ok ("/srv/projects/" +:+ p +:+ "/dist");
  getServerConfig := λ _ _, Ok (mkServerConfig "10.0.0.5" "/var/www" None);
  uploadMultipleProjects := λ _ _ _, Ok tt;
  generateNginxConfig := λ _ h _, "server { server_name " +:+ h +:+ " }";
  nginx_t := λ live,
    match live with
    | Some text => if String.eqb text "server { listen 80; }" then Ok tt
                   else Throw "nginx: configuration file test failed"
    | None => Ok tt
    end;
  nginx_reload := λ _, Ok tt
|}.

Definition job_ab : MultiProjectJobData := mkJobData "deploy-1" ["a"; "b"] "main" None.

Definition world0 : World := mkWorld ∅ ∅ (mkNginxFs None []) 0 [].

(** A store that holds only a flat single-project record for "deploy-0". *)
Definition world_flat : World :=
  mkWorld {[ "deployment:deploy-0:status" := {[ "status" := VStr "building" ]} ]}
    ∅ (mkNginxFs None []) 0 [].

Definition world_live : World :=
  mkWorld ∅ ∅ (mkNginxFs (Some "server { listen 80; }") []) 0 [].

Definition six_uploads : list (nat * string) :=
  [(101, "build-1"); (102, "build-2"); (103, "build-3");
   (104, "build-4"); (105, "build-5"); (106, "build-6")].

Definition two_priorities : list MemoryQueue.Label :=
  [ MemoryQueue.Add (MemoryQueue.mkPayload (Some "deploy-low") "low priority")
      (MemoryQueue.mkOptions 1 3) 1000;
    MemoryQueue.Add (MemoryQueue.mkPayload (Some "deploy-high") "high priority")
      (MemoryQueue.mkOptions 10 3) 1001 ].

Definition one_failing_job : list MemoryQueue.Label :=
  [ MemoryQueue.Add (MemoryQueue.mkPayload (Some "deploy-1") "three attempts")
      (MemoryQueue.mkOptions 5 3) 1000;
    MemoryQueue.Immediate;
    MemoryQueue.Settle 0 false ].

Definition eleven_projects : list string :=
  ["p1"; "p2"; "p3"; "p4"; "p5"; "p6"; "p7"; "p8"; "p9"; "p10"; "p11"].

Definition oversized_request : WebhookController.Request :=
  WebhookController.mkReq (Some "default-secret")
    (Validator.mkBody (Some eleven_projects) (Some "main") None (Some "backend-service")
       (Some "2025-01-07T10:00:00Z") None).

(** ** Inputs of the further properties *)

(** The three configured projects, with the defaults of the
    environment variables. *)
Definition default_projects : list (string * ProjectConfig) :=
  [ ("admin-portal",
     mkProjectConfig "admin-portal" "管理后台" "" "main" "/srv/projects/admin-portal"
       "npm run build:prod" "dist" "/var/www/admin" "/admin" (Some 8080%N));
    ("user-portal",
     mkProjectConfig "user-portal" "用户门户" "" "main" "/srv/projects/user-portal"
       "npm run build" "dist" "/var/www/user" "/user" (Some 8081%N));
    ("mobile-app",
     mkProjectConfig "mobile-app" "移动端应用" "" "main" "/srv/projects/mobile-app"
       "pnpm build:mobile" "dist" "/var/www/mobile" "/mobile" (Some 8082%N)) ].

(** A [package.json] reader that fails for the user portal. *)
Definition readJson_user_portal_fails (path : string) : Result ProjectInfo.PackageJson :=
  if String.eqb path "/srv/projects/user-portal/package.json"
  then Throw "ENOENT: no such file or directory"
  else Ok (ProjectInfo.mkPackageJson (Some "frontend") None).

Definition posix_join (a b : string) : string := a +:+ "/" +:+ b.

(** A clock reading rendered in decimal, in place of an ISO date. *)
Definition decimal_time (now : nat) : string := index_key now.

(** An environment whose proxy accepts everything and whose
    configuration text is the template over the three projects. *)
Definition env_template : Env := {|
  REDIS_ENABLED := true;
  CONCURRENT_BUILDS_pred := 1;
  cloneOrUpdateProject := λ _ _, Ok tt;
  buildProject := λ _ p, Ok ("/srv/projects/" +:+ p +:+ "/dist");
  getServerConfig := λ _ _, Ok (mkServerConfig "10.0.0.5" "/var/www" None);
  uploadMultipleProjects := λ _ _ _, Ok tt;
  generateNginxConfig := NginxTemplate.generateNginxConfig default_projects decimal_time;
  nginx_t := λ _, Ok tt;
  nginx_reload := λ _, Ok tt
|}.

(** One job added, and its scheduled [processJobs] fired: a pass is
    under way on that job. *)
Definition pass_under_way : list MemoryQueue.Label :=
  [ MemoryQueue.Add (MemoryQueue.mkPayload (Some "deploy-1") "main")
      (MemoryQueue.mkOptions 5 3) 1000;
    MemoryQueue.Immediate ].

(** A well-formed trigger for two projects. *)
Definition two_project_request : WebhookController.Request :=
  WebhookController.mkReq (Some "default-secret")
    (Validator.mkBody (Some ["admin-portal"; "user-portal"]) (Some "main") None
       (Some "backend-service") (Some "2025-01-07T10:00:00Z")
       (Some (Validator.mkMetadata None (Some "high")))).

(** * Reasoning about runs *)

Ltac munfold :=
  unfold unawaited, mbind, M_bind, mret, M_ret, throw, try_catch, emit, await,
    get_hashes, put_hashes, get_nginx, put_nginx, Date_now in *.

Section HoareRules.
Context {A B : Type}.

Lemma hoare_conseq (P P' : World → Prop) (c : M A) Q Q' E E' :
  hoare P' c Q' E' →
  (∀ w, P w → P' w) → (∀ a w, Q' a w → Q a w) → (∀ e w, E' e w → E e w) →
  hoare P c Q E.
Proof.
  intros Hc HP HQ HE w Hw. specialize (Hc w (HP w Hw)).
  destruct (c w) as [[a|e] w']; auto.
Qed.

Lemma hoare_ret (a : A) (Q : A → World → Prop) E :
  hoare (Q a) (mret a) Q E.
Proof. intros w Hw. exact Hw. Qed.

Lemma hoare_throw (e : string) (Q : A → World → Prop) (E : string → World → Prop) :
  hoare (E e) (throw e) Q E.
Proof. intros w Hw. exact Hw. Qed.

Lemma hoare_bind (P : World → Prop) (c : M A) (f : A → M B) Q1 Q E :
  hoare P c Q1 E → (∀ a, hoare (Q1 a) (f a) Q E) → hoare P (c ≫= f) Q E.
Proof.
  intros Hc Hf w Hw. specialize (Hc w Hw). munfold.
  destruct (c w) as [[a|e] w']; [ exact (Hf a w' Hc) | exact Hc ].
Qed.

Lemma hoare_try_catch (P : World → Prop) (body : M A) handler Q Eb E :
  hoare P body Q Eb → (∀ e, hoare (Eb e) (handler e) Q E) →
  hoare P (try_catch body handler) Q E.
Proof.
  intros Hb Hh w Hw. specialize (Hb w Hw). munfold.
  destruct (body w) as [[a|e] w']; [ exact Hb | exact (Hh e w' Hb) ].
Qed.

Lemma hoare_await (r : Result A) (I : World → Prop) :
  hoare I (await r) (λ a w, I w ∧ r = Ok a) (λ e w, I w ∧ r = Throw e).
Proof. intros w Hw. munfold. destruct r; auto. Qed.

Lemma hoare_and (P1 P2 : World → Prop) (c : M A) Q1 Q2 E1 E2 :
  hoare P1 c Q1 E1 → hoare P2 c Q2 E2 →
  hoare (λ w, P1 w ∧ P2 w) c (λ a w, Q1 a w ∧ Q2 a w) (λ e w, E1 e w ∧ E2 e w).
Proof.
  intros H1 H2 w [Hw1 Hw2]. specialize (H1 w Hw1). specialize (H2 w Hw2).
  destruct (c w) as [[a|e] w']; auto.
Qed.
End HoareRules.

Lemma hoare_unawaited (P : World → Prop) (c : M unit) (Q : World → Prop) E :
  hoare P c (λ _, Q) (λ _, Q) → hoare P (unawaited c) (λ _, Q) E.
Proof.
  intros Hc w Hw. specialize (Hc w Hw). munfold.
  destruct (c w) as [[a|e] w']; exact Hc.
Qed.

(** A loop whose body keeps [I] and on rejection leaves [E]. *)
Lemma hoare_for_of {X} (xs : list X) (body : X → M unit)
    (I : list X → World → Prop) (E : string → World → Prop) :
  (∀ done x, x ∈ xs → hoare (I done) (body x) (λ _, I (done ++ [x])) E) →
  hoare (I []) (for_of xs body) (λ _, I xs) E.
Proof.
  intros Hbody.
  cut (∀ rest done, (∀ x, x ∈ rest → x ∈ xs) →
         hoare (I done) (for_of rest body) (λ _, I (done ++ rest)) E).
  { intros H. exact (H xs [] (λ _ Hx, Hx)). }
  induction rest as [|x rest IH]; intros done Hsub; simpl.
  - rewrite app_nil_r. intros w Hw. exact Hw.
  - eapply hoare_bind.
    + apply Hbody. apply Hsub. left.
    + intros []. eapply hoare_conseq.
      * apply (IH (done ++ [x])). intros y Hy. apply Hsub. by right.
      * auto.
      * intros [] w. by rewrite <- app_assoc.
      * auto.
Qed.

(** All chains run; the result is rejected as soon as one of them is.
    [good x] is what a fulfilled chain tells about its element. *)
Lemma hoare_Promise_all {X} (xs : list X) (chain : X → M unit)
    (I : list X → World → Prop) (good : X → Prop) :
  (∀ done x, x ∈ xs →
     hoare (I done) (chain x) (λ _ w, I (done ++ [x]) w ∧ good x) (λ _, I (done ++ [x]))) →
  hoare (I []) (Promise_all (map chain xs))
    (λ _ w, I xs w ∧ ∀ x, x ∈ xs → good x) (λ _, I xs).
Proof.
  intros Hchain.
  cut (∀ rest done, (∀ x, x ∈ rest → x ∈ xs) →
         hoare (I done) (Promise_all (map chain rest))
           (λ _ w, I (done ++ rest) w ∧ ∀ x, x ∈ rest → good x)
           (λ _, I (done ++ rest))).
  { intros H. exact (H xs [] (λ _ Hx, Hx)). }
  induction rest as [|x rest IH]; intros done Hsub; simpl.
  - intros w Hw. munfold. rewrite app_nil_r. split; [done|]. intros x Hx. inversion Hx.
  - intros w Hw.
    assert (Hx : x ∈ xs) by (apply Hsub; left).
    pose proof (Hchain done x Hx w Hw) as H1.
    destruct (chain x w) as [r w1] eqn:Hc1.
    assert (Hw1 : I (done ++ [x]) w1) by (destruct r; [apply H1 | exact H1]).
    pose proof (IH (done ++ [x]) (λ y Hy, Hsub y (list_elem_of_further _ _ _ Hy)) w1 Hw1) as H2.
    destruct (Promise_all (map chain rest) w1) as [rs w2] eqn:Hc2.
    rewrite <- app_assoc in H2. simpl in H2.
    destruct r as [[]|e].
    + destruct rs as [[]|e2]; [|exact H2].
      destruct H2 as [H2 Hg]. split; [exact H2|].
      intros y Hy. apply elem_of_cons in Hy as [->|Hy]; [apply H1 | by apply Hg].
    + destruct rs as [[]|e2]; [apply H2 | exact H2].
Qed.

(** ** The persisted status record and the invariants of a run *)

Lemma project_status_set_eq st p e :
  project_status (set_project p e st) p = Some (ps_status e).
Proof. unfold project_status, set_project. simpl. by rewrite lookup_insert_eq. Qed.

Lemma project_status_set_ne st p q e :
  p ≠ q → project_status (set_project p e st) q = project_status st q.
Proof. intros Hne. unfold project_status, set_project. simpl. by rewrite lookup_insert_ne. Qed.

Lemma AllP_set_project qs (S : string → string → Prop) st p e :
  AllP qs S st → S p (ps_status e) → AllP qs S (set_project p e st).
Proof.
  intros Hall HS q Hq. destruct (decide (p = q)) as [->|Hne].
  - exists (ps_status e). by rewrite project_status_set_eq.
  - rewrite project_status_set_ne by done. by apply Hall.
Qed.

Lemma AllP_snoc qs (S : string → string → Prop) st p e :
  AllP qs S st → S p (ps_status e) → AllP (qs ++ [p]) S (set_project p e st).
Proof.
  intros Hall HS q Hq. destruct (decide (p = q)) as [->|Hne].
  - exists (ps_status e). by rewrite project_status_set_eq.
  - rewrite project_status_set_ne by done. apply Hall.
    apply elem_of_app in Hq as [Hq|Hq]; [done|].
    apply list_elem_of_singleton in Hq. congruence.
Qed.

Lemma AllP_nil S st : AllP [] S st.
Proof. intros p Hp. inversion Hp. Qed.

Lemma AllP_mono qs (S S' : string → string → Prop) st :
  AllP qs S st → (∀ p s, p ∈ qs → S p s → S' p s) → AllP qs S' st.
Proof. intros Hall HS p Hp. destruct (Hall p Hp) as (s & Hs & HSs). eauto. Qed.

Lemma AllP_with_overall qs S st o e : AllP qs S st → AllP qs S (with_overall o e st).
Proof. exact id. Qed.

Section DurableRuns.
Context (env : Env) (Hredis : REDIS_ENABLED env = true).
Context (d : string) (t0 : list Event).

Lemma status_record_set_rec st w : status_record (set_rec d st w) d = Some st.
Proof.
  unfold status_record, set_rec, Redis.hset. simpl.
  by rewrite lookup_insert_eq, lookup_insert_eq.
Qed.

Lemma status_record_set_rec_ne st w d' :
  statusKey d' ≠ statusKey d → status_record (set_rec d st w) d' = status_record w d'.
Proof.
  intros Hne. unfold status_record, set_rec, Redis.hset. simpl.
  by rewrite lookup_insert_ne.
Qed.

Lemma status_record_data w st :
  status_record w d = Some st →
  Redis.hgetall (statusKey d) (w_hashes w) !! "data" = Some (VJson st).
Proof.
  unfold status_record, Redis.hgetall. intros H.
  destruct (w_hashes w !! statusKey d) as [h|]; [|done]. simpl.
  destruct (h !! "data") as [[?|?]|]; congruence.
Qed.

(** What the three writers do when the record is there. *)
Lemma run_initialize ps w :
  ∃ st, initializeDeploymentStatus env d ps w
        = (Ok tt, set_rec d st (mkWorld (w_hashes w) (w_lists w) (w_nginx w)
                                 (S (w_clock w)) (w_trace w)))
        ∧ ds_overallStatus st = "pending".
Proof.
  unfold initializeDeploymentStatus, redis_hset_data, redis_expire. munfold.
  rewrite Hredis. simpl. eexists. split; [reflexivity|].
  cut (∀ st0, ds_overallStatus st0 = "pending" →
         ds_overallStatus
           (foldl (λ st projectId,
              set_project projectId (mkProjectStageStatus "pending" 0 "waiting to start") st)
              st0 ps) = "pending").
  { intros H. by apply H. }
  induction ps as [|p ps IH]; intros st0 Hst0; simpl; [done|]. by apply IH.
Qed.

Lemma run_updateSingle p s m pr w st :
  status_record w d = Some st →
  updateSingleProjectStatus env d p s m pr w
  = (Ok tt, set_rec d (set_project p (mkProjectStageStatus s pr m) st) w).
Proof.
  intros Hrec. unfold updateSingleProjectStatus, redis_hgetall, redis_hset_data, redis_expire.
  munfold. rewrite Hredis. rewrite (status_record_data _ _ Hrec). reflexivity.
Qed.

Lemma run_updateOverall s m w st :
  status_record w d = Some st →
  ∃ est w1, updateOverallStatus env d s m w
    = (Ok tt, mkWorld (w_hashes (set_rec d (with_overall s est st) w)) (w_lists w)
                (w_nginx w) (w_clock w1)
                (EvOverallWrite (statusKey d) s (with_overall s est st) :: w_trace w))
    ∧ (s ≠ "completed" → est = ds_estimatedCompletion st).
Proof.
  intros Hrec. unfold updateOverallStatus, redis_hgetall, redis_hset_data, redis_expire.
  munfold. rewrite Hredis. rewrite (status_record_data _ _ Hrec). simpl.
  destruct (String.eqb s "completed") eqn:Hs; simpl.
  - eexists _, (mkWorld (w_hashes w) (w_lists w) (w_nginx w) (S (w_clock w)) (w_trace w)).
    split; [reflexivity|].
    apply String.eqb_eq in Hs. congruence.
  - eexists _, w. split; [reflexivity|]. done.
Qed.

Lemma Inv_mono (G G' : Event → Prop) (N N' : NginxFs → Prop) (R R' : _ → Prop) w :
  Inv d t0 G N R w → (∀ e, G e → G' e) → (∀ n, N n → N' n) → (∀ st, R st → R' st) →
  Inv d t0 G' N' R' w.
Proof.
  intros ((tn & Ht & HG) & HN & st & Hst & HR) H1 H2 H3.
  split; [|split]; [| auto | eauto].
  exists tn. split; [done|]. eapply Forall_impl; eauto.
Qed.

Context (G : Event → Prop) (N : NginxFs → Prop).

Lemma inv_emit (R : _ → Prop) (e : Event) E :
  G e → hoare (Inv d t0 G N R) (emit e) (λ _, Inv d t0 G N R) E.
Proof.
  intros He w ((tn & Ht & HG) & HN & Hrec). munfold. simpl.
  split; [|split]; [|done|done].
  exists (e :: tn). simpl. rewrite Ht. split; [done|]. by constructor.
Qed.

Lemma inv_await {A} (R : _ → Prop) (r : Result A) :
  hoare (Inv d t0 G N R) (await r) (λ a w, Inv d t0 G N R w ∧ r = Ok a)
    (λ e w, Inv d t0 G N R w ∧ r = Throw e).
Proof. apply hoare_await. Qed.

Lemma inv_updateSingle (R R' : _ → Prop) p s m pr E :
  (∀ st, R st → R' (set_project p (mkProjectStageStatus s pr m) st)) →
  hoare (Inv d t0 G N R) (updateSingleProjectStatus env d p s m pr) (λ _, Inv d t0 G N R') E.
Proof.
  intros HR w (HT & HN & st & Hst & HRst).
  rewrite (run_updateSingle p s m pr w st Hst).
  split; [|split]; [done|done|].
  eexists. split; [apply status_record_set_rec|]. by apply HR.
Qed.

Lemma inv_updateOverall (R R' : _ → Prop) s m E :
  (∀ st est, R st → (s ≠ "completed" → est = ds_estimatedCompletion st) →
     R' (with_overall s est st) ∧ G (EvOverallWrite (statusKey d) s (with_overall s est st))) →
  hoare (Inv d t0 G N R) (updateOverallStatus env d s m) (λ _, Inv d t0 G N R') E.
Proof.
  intros HR w ((tn & Ht & HG) & HN & st & Hst & HRst).
  destruct (run_updateOverall s m w st Hst) as (est & w1 & -> & Hest).
  destruct (HR st est HRst Hest) as [HR' HGe].
  split; [|split]; simpl; [|done|].
  - exists (EvOverallWrite (statusKey d) s (with_overall s est st) :: tn).
    rewrite Ht. split; [done|]. by constructor.
  - exists (with_overall s est st). split; [|done].
    apply (status_record_set_rec (with_overall s est st) w).
Qed.

(** [updateProjectStatus] over [qs]: afterwards every project of [qs]
    has the status written, and what held of the record before and is
    kept by project writes still holds. *)
Lemma inv_updateProjectStatus (R : _ → Prop) qs s m E :
  (∀ st p e, R st → R (set_project p e st)) →
  hoare (Inv d t0 G N R) (updateProjectStatus env d qs s m)
    (λ _, Inv d t0 G N (λ st, R st ∧ AllP qs (λ _ x, x = s) st)) E.
Proof.
  intros HR. unfold updateProjectStatus.
  eapply hoare_conseq.
  - apply (hoare_for_of qs _
      (λ done, Inv d t0 G N (λ st, R st ∧ AllP done (λ _ x, x = s) st)) E).
    intros done p Hp. apply inv_updateSingle.
    intros st [HRst Hall]. split; [by apply HR|]. by apply AllP_snoc.
  - intros w Hw. eapply Inv_mono; eauto. intros st HRst. split; [done|apply AllP_nil].
  - auto.
  - auto.
Qed.

(** A loop of project writes that all keep [R]. *)
Lemma inv_for_of_keep (R : _ → Prop) (qs : list string) (body : string → M unit) E :
  (∀ p, p ∈ qs → hoare (Inv d t0 G N R) (body p) (λ _, Inv d t0 G N R) E) →
  hoare (Inv d t0 G N R) (for_of qs body) (λ _, Inv d t0 G N R) E.
Proof.
  intros Hbody.
  apply (hoare_for_of qs body (λ _, Inv d t0 G N R) E). intros _ p Hp. by apply Hbody.
Qed.

(** The build stage touches neither the record nor the proxy files. *)
Lemma inv_build_chunk (R : _ → Prop) chunk acc :
  (∀ p, G (EvBuild p)) →
  hoare (Inv d t0 G N R) (build_chunk env d acc chunk) (λ _, Inv d t0 G N R) (λ _, Inv d t0 G N R).
Proof.
  intros HG. revert acc. induction chunk as [|p chunk IH]; intros acc; simpl.
  - intros w Hw. exact Hw.
  - eapply hoare_bind; [|intros acc'; apply IH].
    unfold build_one. eapply hoare_bind; [apply inv_emit, HG|]. intros [].
    destruct (buildProject env d p); intros w Hw; exact Hw.
Qed.

Lemma inv_build_chunks (R : _ → Prop) chunks acc :
  (∀ p, G (EvBuild p)) →
  hoare (Inv d t0 G N R) (build_chunks env d acc chunks) (λ _, Inv d t0 G N R) (λ _, Inv d t0 G N R).
Proof.
  intros HG. revert acc. induction chunks as [|c chunks IH]; intros acc; simpl.
  - intros w Hw. exact Hw.
  - eapply hoare_bind; [by apply inv_build_chunk|]. intros acc'. apply IH.
Qed.

Lemma inv_buildMultipleProjects (R : _ → Prop) qs :
  (∀ p, G (EvBuild p)) →
  hoare (Inv d t0 G N R) (buildMultipleProjects env d qs) (λ _, Inv d t0 G N R) (λ _, Inv d t0 G N R).
Proof.
  intros HG. unfold buildMultipleProjects.
  eapply hoare_bind; [by apply inv_build_chunks|]. intros acc.
  destruct (Nat.ltb 0 (length (errors acc))); intros w Hw; exact Hw.
Qed.
End DurableRuns.

(** ** Stage lemmas of the pipeline on the durable store *)

Section StoreFrame.
Context (P : Event → Prop).

Lemma frame_here {A} (c : M A) :
  (∀ w, w_hashes (c w).2 = w_hashes w ∧ w_lists (c w).2 = w_lists w
        ∧ w_trace (c w).2 = w_trace w) →
  store_frame P c.
Proof.
  intros H w. destruct (H w) as (H1 & H2 & H3). repeat split; try done.
  exists []. by rewrite H3.
Qed.

Lemma frame_ret {A} (a : A) : store_frame P (mret a).
Proof. by apply frame_here. Qed.

Lemma frame_throw {A} e : store_frame P (throw (A:=A) e).
Proof. by apply frame_here. Qed.

Lemma frame_await {A} (r : Result A) : store_frame P (await r).
Proof. by apply frame_here. Qed.

Lemma frame_emit e : P e → store_frame P (emit e).
Proof.
  intros He w. munfold. simpl. repeat split.
  exists [e]. split; [done|]. by constructor.
Qed.

Lemma frame_bind {A B} (c : M A) (f : A → M B) :
  store_frame P c → (∀ a, store_frame P (f a)) → store_frame P (c ≫= f).
Proof.
  intros Hc Hf w. specialize (Hc w). munfold.
  destruct (c w) as [[a|e] w1]; simpl in *; [|exact Hc].
  destruct Hc as (H1 & H2 & tn & H3 & H4).
  destruct (Hf a w1) as (H1' & H2' & tn' & H3' & H4').
  rewrite H1', H2', H3', H1, H2, H3. repeat split.
  exists (tn' ++ tn). rewrite app_assoc. split; [done|]. by apply Forall_app.
Qed.

Lemma frame_try_catch {A} (body : M A) handler :
  store_frame P body → (∀ e, store_frame P (handler e)) →
  store_frame P (try_catch body handler).
Proof.
  intros Hc Hf w. specialize (Hc w). munfold.
  destruct (body w) as [[a|e] w1]; simpl in *; [exact Hc|].
  destruct Hc as (H1 & H2 & tn & H3 & H4).
  destruct (Hf e w1) as (H1' & H2' & tn' & H3' & H4').
  rewrite H1', H2', H3', H1, H2, H3. repeat split.
  exists (tn' ++ tn). rewrite app_assoc. split; [done|]. by apply Forall_app.
Qed.

Lemma frame_get_nginx : store_frame P get_nginx.
Proof. by apply frame_here. Qed.

Lemma frame_put_nginx n : store_frame P (put_nginx n).
Proof. by apply frame_here. Qed.

Lemma frame_Date_now : store_frame P Date_now.
Proof. by apply frame_here. Qed.
End StoreFrame.

Ltac frame_steps :=
  repeat first
    [ apply frame_bind; [|intros ?]
    | apply frame_try_catch; [|intros ?]
    | apply frame_get_nginx | apply frame_put_nginx | apply frame_Date_now
    | apply frame_ret | apply frame_throw | apply frame_await
    | apply frame_emit; exact Logic.I
    | match goal with |- store_frame _ (match ?x with _ => _ end) => destruct x end ].

(** The proxy service leaves the store alone and adds proxy events only. *)
Lemma reloadNginx_frame env d : store_frame is_nginx_event (reloadNginx env d).
Proof. unfold reloadNginx. frame_steps. Qed.

Lemma updateNginxConfig_frame env d qs h :
  store_frame is_nginx_event (updateNginxConfig env d qs h).
Proof.
  unfold updateNginxConfig, backupNginxConfig, validateNginxConfig, restoreBackupConfig.
  frame_steps; apply reloadNginx_frame.
Qed.

Section PipelineStages.
Context (env : Env) (Hredis : REDIS_ENABLED env = true).
Context (d : string) (t0 : list Event).
Context (G : Event → Prop) (N : NginxFs → Prop).
Context (R : MultiProjectDeploymentStatus → Prop).

Local Abbreviation I := (Inv d t0 G N R).

Lemma keep_updateSingle p s m pr E :
  kept_by R s → hoare I (updateSingleProjectStatus env d p s m pr) (λ _, I) E.
Proof. intros Hk. apply inv_updateSingle; [done|]. intros st. apply Hk. Qed.

Lemma keep_updateProjectStatus qs s m E :
  kept_by R s → hoare I (updateProjectStatus env d qs s m) (λ _, I) E.
Proof.
  intros Hk. unfold updateProjectStatus. apply inv_for_of_keep.
  intros p _. by apply keep_updateSingle.
Qed.

Lemma keep_await {A} (r : Result A) : hoare I (await r) (λ _, I) (λ _, I).
Proof. intros w Hw. munfold. by destruct r. Qed.

Lemma keep_clone_chain p :
  G (EvClone p) → kept_by R "cloning" → kept_by R "failed" →
  hoare I (clone_chain env d p) (λ _, I) (λ _, I).
Proof.
  intros HG Hc Hf. unfold clone_chain.
  eapply hoare_try_catch with (Eb := λ _, I).
  - eapply hoare_bind; [by apply inv_emit|]. intros [].
    eapply hoare_bind; [apply keep_await|]. intros [].
    by apply keep_updateSingle.
  - intros e. eapply hoare_bind.
    + apply hoare_unawaited. by apply keep_updateSingle.
    + intros []. intros w Hw. exact Hw.
Qed.

Lemma keep_clone_stage qs :
  (∀ p, G (EvClone p)) → kept_by R "cloning" → kept_by R "failed" →
  hoare I (Promise_all (map (clone_chain env d) qs)) (λ _, I) (λ _, I).
Proof.
  intros HG Hc Hf.
  eapply hoare_conseq.
  - apply (hoare_Promise_all qs (clone_chain env d) (λ _, I) (λ _, True)).
    intros done p Hp. eapply hoare_conseq; [by apply keep_clone_chain| | |]; simpl; auto.
  - auto.
  - simpl. by intros _ w [Hw _].
  - auto.
Qed.

Lemma keep_build_results qs (builds : list (string * string)) E :
  kept_by R "building" →
  hoare I
    (for_of qs (λ projectId,
       if has_build builds projectId
       then updateSingleProjectStatus env d projectId "building" "build finished" 100
       else mret tt))
    (λ _, I) E.
Proof.
  intros Hk. apply inv_for_of_keep. intros p _.
  destruct (has_build builds p); [by apply keep_updateSingle | intros w Hw; exact Hw].
Qed.

Lemma keep_for_of_single qs s m pr E :
  kept_by R s →
  hoare I (for_of qs (λ projectId, updateSingleProjectStatus env d projectId s m pr))
    (λ _, I) E.
Proof. intros Hk. apply inv_for_of_keep. intros p _. by apply keep_updateSingle. Qed.

Lemma failure_handler_spec qs error :
  hoare I
    (updateOverallStatus env d "failed" ("deployment failed: " +:+ error) ;;
     cleanupOnFailure d qs ;;
     emit (EvNotifyFailure error) ;;
     throw (A:=PipelineResult) error)
    (λ _ _, False) (failed_post d t0 G N R qs error).
Proof.
  intros w ((tn & Ht & HG) & HN & st & Hst & HR).
  unfold cleanupOnFailure. munfold.
  destruct (run_updateOverall env Hredis d "failed" ("deployment failed: " +:+ error) w st Hst)
    as (est & w1 & -> & Hest). simpl.
  split; [done|]. exists tn, st, (with_overall "failed" est st).
  rewrite Ht. rewrite (Hest ltac:(done)). repeat split; try done.
  apply (status_record_set_rec d (with_overall "failed" (ds_estimatedCompletion st) st) w).
Qed.

Lemma failed_post_Inv qs error e w (R' : _ → Prop) :
  failed_post d t0 G N R qs error e w →
  (∀ st, G (EvOverallWrite (statusKey d) "failed" st)) →
  G (EvCleanupOnFailure qs) → G (EvNotifyFailure error) →
  (∀ st0, R st0 → R' (with_overall "failed" (ds_estimatedCompletion st0) st0)) →
  Inv d t0 G N R' w.
Proof.
  intros (_ & tn & st0 & st & Ht & HG & HN & HR0 & -> & Hst) H1 H2 H3 HR'.
  split; [|split; [done|]].
  - eexists (_ :: _ :: _ :: tn). split; [exact Ht|]. repeat constructor; auto.
  - eexists. split; [exact Hst|]. by apply HR'.
Qed.
End PipelineStages.

(** The proxy stage when nothing is asked of the proxy files afterwards. *)
Lemma keep_updateNginxConfig env d t0 (G : Event → Prop) N R qs h :
  (∀ e, is_nginx_event e → G e) →
  hoare (Inv d t0 G N R) (updateNginxConfig env d qs h)
    (λ _, Inv d t0 G (λ _, True) R) (λ _, Inv d t0 G (λ _, True) R).
Proof.
  intros HG w ((tn & Ht & HGt) & _ & st & Hst & HR).
  pose proof (updateNginxConfig_frame env d qs h w) as Hf.
  destruct (updateNginxConfig env d qs h w) as [r w']. simpl in Hf.
  destruct Hf as (Hh & _ & tn' & Ht' & Hn).
  assert (Inv d t0 G (λ _, True) R w').
  { split; [|split; [done|]].
    - exists (tn' ++ tn). rewrite Ht', Ht, app_assoc. split; [done|].
      apply Forall_app. split; [|done]. eapply Forall_impl; eauto.
    - exists st. split; [|done]. unfold status_record in *. by rewrite Hh. }
  by destruct r.
Qed.

(** * Aggregate status of a deployment *)

Lemma AllP_completed ps st :
  AllP ps (λ _ x, x = "completed") st → AllCompleted ps st.
Proof. intros H p Hp. destruct (H p Hp) as (s & Hs & ->). exact Hs. Qed.

Lemma AllP_not_completed ps st :
  ps ≠ [] → AllP ps (λ _ x, x ≠ "completed") st → ¬ AllCompleted ps st.
Proof.
  intros Hne H Hall. destruct ps as [|p ps]; [done|].
  destruct (H p) as (s & Hs & Hns); [left|].
  rewrite (Hall p) in Hs; [|left]. congruence.
Qed.

Section OverallStatus.
Context (env : Env) (Hredis : REDIS_ENABLED env = true).
Context (job : MultiProjectJobData) (t0 : list Event).

Local Abbreviation d := (jd_deploymentId job).
Local Abbreviation ps := (jd_projectIds job).
Local Abbreviation G := (completed_write_ok ps).
Local Abbreviation NotDone := (AllP ps (λ _ x, x ≠ "completed")).
Local Abbreviation Any := (λ _ : NginxFs, True).

Lemma NotDone_kept s : s ≠ "completed" → kept_by NotDone s.
Proof. intros Hs st p pr m H. by apply AllP_set_project. Qed.

(** The body of the [try] block: fulfilled with every project and the
    aggregate 'completed', rejected with no project 'completed'. *)
Lemma pipeline_body_spec :
  hoare (λ w, w_trace w = t0)
    (initializeDeploymentStatus env d ps ;;
     emit (EvProgress 5) ;;
     updateProjectStatus env d ps "cloning" "fetching source" ;;
     Promise_all (map (clone_chain env d) ps) ;;
     emit (EvProgress 20) ;;
     updateProjectStatus env d ps "building" "building" ;;
     projectBuilds ← buildMultipleProjects env d ps;
     for_of ps (λ projectId,
       if has_build projectBuilds projectId
       then updateSingleProjectStatus env d projectId "building" "build finished" 100
       else mret tt) ;;
     emit (EvProgress 50) ;;
     emit (EvResolveConfig (head ps)) ;;
     serverConfig ← await (getServerConfig env d (head ps));
     emit (EvProgress 60) ;;
     updateProjectStatus env d ps "uploading" "uploading" ;;
     emit (EvUpload projectBuilds) ;;
     await (uploadMultipleProjects env d projectBuilds serverConfig) ;;
     for_of ps (λ projectId,
       updateSingleProjectStatus env d projectId "uploading" "upload finished" 100) ;;
     emit (EvProgress 80) ;;
     updateProjectStatus env d ps "configuring" "configuring Nginx" ;;
     updateNginxConfig env d ps (host serverConfig) ;;
     for_of ps (λ projectId,
       updateSingleProjectStatus env d projectId "configuring" "Nginx configured" 100) ;;
     emit (EvProgress 90) ;;
     cleanupBuild d ps ;;
     updateProjectStatus env d ps "completed" "deployed" ;;
     updateOverallStatus env d "completed" "all projects deployed" ;;
     emit (EvProgress 100) ;;
     emit EvNotifySuccess ;;
     mret (mkPipelineResult d "completed" (host serverConfig) ps projectBuilds))
    (λ _, Inv d t0 G Any (λ st, ds_overallStatus st = "completed" ∧ AllCompleted ps st))
    (λ _, Inv d t0 G Any NotDone).
Proof.
  (* initialisation creates the record *)
  eapply hoare_bind with (Q1 := λ _, Inv d t0 G Any (λ _, True)).
  { intros w Hw. destruct (run_initialize env Hredis d ps w) as (st & -> & _).
    split; [|split; [done|]].
    - exists []. simpl. by split.
    - exists st. split; [apply status_record_set_rec | done]. }
  intros []. eapply hoare_bind; [by apply inv_emit|]. intros [].
  (* from here on no project is 'completed' until step 7 *)
  eapply hoare_bind with (Q1 := λ _, Inv d t0 G Any NotDone).
  { eapply hoare_conseq.
    - apply (inv_updateProjectStatus env Hredis d t0 G Any (λ _, True) ps
               "cloning" "fetching source" (λ _, Inv d t0 G Any NotDone)). done.
    - auto.
    - intros [] w Hw. eapply Inv_mono; eauto. intros st [_ H].
      eapply AllP_mono; eauto. simpl. by intros p s _ ->.
    - auto. }
  intros []. eapply hoare_bind.
  { apply keep_clone_stage; try done; by apply NotDone_kept. }
  intros []. eapply hoare_bind; [by apply inv_emit|]. intros [].
  eapply hoare_bind; [by apply keep_updateProjectStatus, NotDone_kept|]. intros [].
  eapply hoare_bind; [by apply inv_buildMultipleProjects|]. intros projectBuilds.
  eapply hoare_bind; [by apply keep_build_results, NotDone_kept|]. intros [].
  eapply hoare_bind; [by apply inv_emit|]. intros [].
  eapply hoare_bind; [by apply inv_emit|]. intros [].
  eapply hoare_bind; [apply keep_await|]. intros serverConfig.
  eapply hoare_bind; [by apply inv_emit|]. intros [].
  eapply hoare_bind; [by apply keep_updateProjectStatus, NotDone_kept|]. intros [].
  eapply hoare_bind; [by apply inv_emit|]. intros [].
  eapply hoare_bind; [apply keep_await|]. intros [].
  eapply hoare_bind; [by apply keep_for_of_single, NotDone_kept|]. intros [].
  eapply hoare_bind; [by apply inv_emit|]. intros [].
  eapply hoare_bind; [by apply keep_updateProjectStatus, NotDone_kept|]. intros [].
  eapply hoare_bind.
  { apply keep_updateNginxConfig. by intros []. }
  intros []. eapply hoare_bind; [by apply keep_for_of_single, NotDone_kept|]. intros [].
  eapply hoare_bind; [by apply inv_emit|]. intros [].
  eapply hoare_bind; [by apply inv_emit|]. intros [].
  (* step 7 *)
  eapply hoare_bind.
  { eapply hoare_conseq.
    - apply (inv_updateProjectStatus env Hredis d t0 G Any (λ _, True) ps
               "completed" "deployed" (λ _, Inv d t0 G Any NotDone)). done.
    - intros w Hw. eapply Inv_mono; eauto.
    - intros u w Hw. exact Hw.
    - auto. }
  intros []. eapply hoare_bind.
  { apply (inv_updateOverall env Hredis d t0 G Any _
             (λ st, ds_overallStatus st = "completed" ∧ AllCompleted ps st)).
    intros st est [_ Hall] _. apply AllP_completed in Hall. simpl. done. }
  intros []. eapply hoare_bind; [by apply inv_emit|]. intros [].
  eapply hoare_bind; [by apply inv_emit|]. intros [].
  intros w Hw. exact Hw.
Qed.
End OverallStatus.



(** * The cloning stage *)

Section CloneStage.
Context (env : Env) (Hredis : REDIS_ENABLED env = true).
Context (d : string) (t0 : list Event).
Context (G : Event → Prop) (N : NginxFs → Prop).

(** One clone chain: a fulfilled clone is followed by the write
    ('cloning', 100), a rejected one by the write ('failed', 0). *)
Lemma clone_chain_spec (R Rok Rfail : MultiProjectDeploymentStatus → Prop) p :
  G (EvClone p) →
  (is_ok (cloneOrUpdateProject env d p) = true →
   ∀ st, R st → Rok (set_project p (mkProjectStageStatus "cloning" 100 "source fetched") st)) →
  (is_ok (cloneOrUpdateProject env d p) = false →
   ∀ st m, R st → Rfail (set_project p (mkProjectStageStatus "failed" 0 m) st)) →
  hoare (Inv d t0 G N R) (clone_chain env d p)
    (λ _ w, Inv d t0 G N Rok w ∧ is_ok (cloneOrUpdateProject env d p) = true)
    (λ _ w, Inv d t0 G N Rfail w ∧ is_ok (cloneOrUpdateProject env d p) = false).
Proof.
  intros HG Hok Hfail. unfold clone_chain.
  destruct (cloneOrUpdateProject env d p) as [[]|e] eqn:Hc; simpl in *.
  - eapply hoare_try_catch with (Eb := λ _ _, False).
    + eapply hoare_bind; [by apply inv_emit|]. intros [].
      eapply hoare_bind with (Q1 := λ _, Inv d t0 G N R).
      { intros w Hw. exact Hw. }
      intros []. eapply hoare_conseq.
      * apply (inv_updateSingle env Hredis d t0 G N R Rok p "cloning" "source fetched" 100
                 (λ _ _, False)). by apply Hok.
      * auto.
      * intros a w Hw. split; [exact Hw|done].
      * by intros e' w [].
    + intros e w [].
  - eapply hoare_try_catch with (Eb := λ e', Inv d t0 G N R).
    + eapply hoare_bind; [by apply inv_emit|]. intros [].
      intros w Hw. exact Hw.
    + intros e'. eapply hoare_bind.
      * apply hoare_unawaited.
        apply (inv_updateSingle env Hredis d t0 G N R Rfail). intros st. by apply Hfail.
      * intros []. intros w Hw. split; [exact Hw|done].
Qed.
End CloneStage.



(** C2: the scenario of projects "a" and "b" where both sources are
    fetched, the build of "a" succeeds and the build of "b" fails.  Both
    builds run, the run is rejected, the aggregate becomes 'failed' and no
    upload or proxy stage is entered; but the record of "b" keeps the
    status 'building' with the stage message: the build error is only in
    the message of the thrown error, not on the project. *)
Theorem build_failure_not_recorded_on_project :
  ∃ st,
    (buildAndDeployMulti env_build_b_fails job_ab world0).1
      = Throw "partial build failure: b: Command failed: npm run build"
    ∧ w_trace (buildAndDeployMulti env_build_b_fails job_ab world0).2
      = [ EvNotifyFailure "partial build failure: b: Command failed: npm run build";
          EvCleanupOnFailure ["a"; "b"];
          EvOverallWrite "deployment:deploy-1:status" "failed" st;
          EvBuild "b"; EvBuild "a"; EvProgress 20;
          EvClone "b"; EvClone "a"; EvProgress 5 ]
    ∧ status_record (buildAndDeployMulti env_build_b_fails job_ab world0).2 "deploy-1" = Some st
    ∧ ds_overallStatus st = "failed"
    ∧ ds_projects st !! "a" = Some (mkProjectStageStatus "building" 0 "building")
    ∧ ds_projects st !! "b" = Some (mkProjectStageStatus "building" 0 "building")
    ∧ project_status st "b" ≠ Some "failed".
Proof.
  eexists. split; [vm_compute; reflexivity|].
  split; [vm_compute; reflexivity|].
  split; [vm_compute; reflexivity|].
  split; [vm_compute; reflexivity|].
  split; [vm_compute; reflexivity|].
  split; [vm_compute; reflexivity|].
  vm_compute. discriminate.
Qed.

(** * Status updates without a record *)

Lemma hgetall_data env d w :
  (if REDIS_ENABLED env
   then Redis.hgetall (statusKey d) (w_hashes w)
   else MemoryRedis.hgetall (statusKey d) (w_hashes w)) !! "data" = data_field w d.
Proof.
  unfold data_field, Redis.hgetall, MemoryRedis.hgetall.
  destruct (REDIS_ENABLED env); destruct (w_hashes w !! statusKey d); done.
Qed.

Lemma updateSingle_without_record env d p s m pr w :
  data_field w d = None → updateSingleProjectStatus env d p s m pr w = (Ok tt, w).
Proof.
  intros Hnone. unfold updateSingleProjectStatus, redis_hgetall. munfold.
  by rewrite hgetall_data, Hnone.
Qed.

Lemma updateOverall_without_record env d s m w :
  data_field w d = None → updateOverallStatus env d s m w = (Ok tt, w).
Proof.
  intros Hnone. unfold updateOverallStatus, redis_hgetall. munfold.
  by rewrite hgetall_data, Hnone.
Qed.

Lemma updateProjectStatus_without_record env d ps s m w :
  data_field w d = None → updateProjectStatus env d ps s m w = (Ok tt, w).
Proof.
  intros Hnone. unfold updateProjectStatus.
  induction ps as [|p ps IH]; simpl; [done|].
  munfold. rewrite updateSingle_without_record by done. exact IH.
Qed.

(** C10: without a [data] field under the status key, on either backend,
    [updateSingleProjectStatus], [updateOverallStatus] and the loop
    [updateProjectStatus] are fulfilled and leave the whole world as it
    was: no record is created, no key is changed, nothing is thrown. *)
Theorem status_updates_without_record_are_noops (env : Env) (d : string) (w : World) :
  data_field w d = None →
  (∀ p s m pr, updateSingleProjectStatus env d p s m pr w = (Ok tt, w))
  ∧ (∀ s m, updateOverallStatus env d s m w = (Ok tt, w))
  ∧ (∀ ps s m, updateProjectStatus env d ps s m w = (Ok tt, w)).
Proof.
  intros Hnone. split; [|split]; intros.
  - by apply updateSingle_without_record.
  - by apply updateOverall_without_record.
  - by apply updateProjectStatus_without_record.
Qed.

Lemma status_updates_without_record_are_noops_witness :
  (∀ p s m pr, updateSingleProjectStatus env_all_ok "deploy-0" p s m pr world_flat
               = (Ok tt, world_flat))
  ∧ (∀ s m, updateOverallStatus env_all_ok "deploy-0" s m world_flat = (Ok tt, world_flat))
  ∧ (∀ ps s m, updateProjectStatus env_all_ok "deploy-0" ps s m world_flat
               = (Ok tt, world_flat)).
Proof.
  apply (status_updates_without_record_are_noops env_all_ok "deploy-0" world_flat).
  vm_compute. reflexivity.
Defined.

(** ** The in-process store never holds a record

    [MemoryRedis.hset] files the characters of the text 'data' under the
    keys '0' to '3'; no [data] field comes to exist, and every later
    update finds nothing to update. *)

Section VolatileStore.
Context (env : Env) (Hmem : REDIS_ENABLED env = false) (d : string).

Lemma memory_hset_no_data storage :
  storage !! statusKey d ≫= (λ h, h !! "data") = None →
  MemoryRedis.hset (statusKey d) "data" storage !! statusKey d
    ≫= (λ h : gmap string Val, h !! "data") = None.
Proof.
  intros Hnone. unfold MemoryRedis.hset. rewrite lookup_insert_eq. simpl.
  rewrite !lookup_insert_ne by done.
  destruct (storage !! statusKey d); [exact Hnone|done].
Qed.

Lemma preserves_bind {A B} (c : M A) (f : A → M B) :
  preserves (no_record d) c → (∀ a, preserves (no_record d) (f a)) → preserves (no_record d) (c ≫= f).
Proof. intros Hc Hf. eapply hoare_bind; [exact Hc|exact Hf]. Qed.

Lemma preserves_try_catch {A} (body : M A) handler :
  preserves (no_record d) body → (∀ e, preserves (no_record d) (handler e)) →
  preserves (no_record d) (try_catch body handler).
Proof. intros Hc Hf. eapply hoare_try_catch; [exact Hc|exact Hf]. Qed.

Lemma preserves_frame {A} (c : M A) :
  store_frame (λ _, True) c → preserves (no_record d) c.
Proof.
  intros Hc w Hw. destruct (Hc w) as (Hh & _).
  assert (no_record d (c w).2) as H by (unfold no_record, data_field; by rewrite Hh).
  by destruct (c w) as [[a|e] w'].
Qed.

Lemma preserves_noop (c : M unit) :
  (∀ w, no_record d w → c w = (Ok tt, w)) → preserves (no_record d) c.
Proof. intros Hc w Hw. by rewrite (Hc w Hw). Qed.

Lemma preserves_initialize qs : preserves (no_record d) (initializeDeploymentStatus env d qs).
Proof.
  intros w Hw. unfold initializeDeploymentStatus, redis_hset_data, redis_expire.
  munfold. rewrite Hmem. simpl.
  unfold no_record, data_field. simpl. by apply memory_hset_no_data.
Qed.

Lemma preserves_for_of {X} (xs : list X) (body : X → M unit) :
  (∀ x, preserves (no_record d) (body x)) → preserves (no_record d) (for_of xs body).
Proof.
  intros Hbody.
  apply (hoare_for_of xs body (λ _, no_record d) (λ _, no_record d)).
  intros done x _. apply Hbody.
Qed.

Lemma preserves_Promise_all {X} (xs : list X) (chain : X → M unit) :
  (∀ x, preserves (no_record d) (chain x)) → preserves (no_record d) (Promise_all (map chain xs)).
Proof.
  intros Hchain.
  eapply hoare_conseq.
  - apply (hoare_Promise_all xs chain (λ _, no_record d) (λ _, True)).
    intros done x _. eapply hoare_conseq; [apply (Hchain x)| | |]; simpl; auto.
  - auto.
  - simpl. intros _ w [Hw _]. exact Hw.
  - auto.
Qed.

Lemma preserves_updateSingle p s m pr :
  preserves (no_record d) (updateSingleProjectStatus env d p s m pr).
Proof. apply preserves_noop. intros w Hw. by apply updateSingle_without_record. Qed.

Lemma preserves_updateProjectStatus qs s m :
  preserves (no_record d) (updateProjectStatus env d qs s m).
Proof. apply preserves_noop. intros w Hw. by apply updateProjectStatus_without_record. Qed.

Lemma preserves_updateOverall s m :
  preserves (no_record d) (updateOverallStatus env d s m).
Proof. apply preserves_noop. intros w Hw. by apply updateOverall_without_record. Qed.

Lemma preserves_clone_chain p : preserves (no_record d) (clone_chain env d p).
Proof.
  unfold clone_chain. apply preserves_try_catch.
  - apply preserves_bind; [apply preserves_frame; frame_steps|intros ?].
    apply preserves_bind; [apply preserves_frame; frame_steps|intros ?].
    apply preserves_updateSingle.
  - intros e. apply preserves_bind; [|intros ?; apply preserves_frame; frame_steps].
    apply hoare_unawaited. apply preserves_updateSingle.
Qed.

Lemma build_chunk_frame acc chunk :
  store_frame (λ _, True) (build_chunk env d acc chunk).
Proof.
  revert acc. induction chunk as [|p chunk IH]; intros acc; simpl.
  - apply frame_ret.
  - apply frame_bind; [unfold build_one; frame_steps|intros acc'; apply IH].
Qed.

Lemma build_chunks_frame acc chunks :
  store_frame (λ _, True) (build_chunks env d acc chunks).
Proof.
  revert acc. induction chunks as [|c chunks IH]; intros acc; simpl.
  - apply frame_ret.
  - apply frame_bind; [apply build_chunk_frame|intros acc'; apply IH].
Qed.

Lemma buildMultipleProjects_frame qs :
  store_frame (λ _, True) (buildMultipleProjects env d qs).
Proof.
  unfold buildMultipleProjects. apply frame_bind; [apply build_chunks_frame|intros acc].
  destruct (Nat.ltb 0 (length (errors acc))); frame_steps.
Qed.

Lemma store_frame_mono {A} (P Q : Event → Prop) (c : M A) :
  (∀ e, P e → Q e) → store_frame P c → store_frame Q c.
Proof.
  intros HPQ Hc w. destruct (Hc w) as (H1 & H2 & tn & H3 & H4).
  repeat split; try done. exists tn. split; [done|].
  eapply Forall_impl; [exact H4|exact HPQ].
Qed.

(** On the in-process store a whole run of the pipeline leaves the
    status key without a [data] field: no record can be read back. *)
Lemma volatile_store_holds_no_record (job : MultiProjectJobData) (w0 : World) :
  jd_deploymentId job = d →
  data_field w0 d = None →
  data_field (processMultiProjectDeployment env job w0).2 d = None
  ∧ status_record (processMultiProjectDeployment env job w0).2 d = None.
Proof.
  intros Hd Hnone.
  assert (Hrun : preserves (no_record d) (processMultiProjectDeployment env job)).
  { unfold processMultiProjectDeployment. rewrite Hd.
    apply preserves_try_catch.
    - repeat match goal with
        | |- preserves _ (_ ≫= _) => apply preserves_bind; [|intros ?]
        | |- preserves _ (initializeDeploymentStatus _ _ _) => apply preserves_initialize
        | |- preserves _ (updateProjectStatus _ _ _ _ _) => apply preserves_updateProjectStatus
        | |- preserves _ (updateOverallStatus _ _ _ _) => apply preserves_updateOverall
        | |- preserves _ (updateSingleProjectStatus _ _ _ _ _ _) => apply preserves_updateSingle
        | |- preserves _ (Promise_all _) =>
            apply preserves_Promise_all; intros ?; apply preserves_clone_chain
        | |- preserves _ (for_of _ _) => apply preserves_for_of; intros ?
        | |- preserves _ (if ?b then _ else _) => destruct b
        | |- preserves _ (buildMultipleProjects _ _ _) =>
            apply preserves_frame, buildMultipleProjects_frame
        | |- preserves _ (updateNginxConfig _ _ _ _) =>
            apply preserves_frame, (store_frame_mono is_nginx_event);
            [done|apply updateNginxConfig_frame]
        | |- preserves _ (cleanupBuild _ _) =>
            apply preserves_frame; unfold cleanupBuild; solve [frame_steps]
        | |- preserves _ _ => apply preserves_frame; solve [frame_steps]
        end.
    - intros e.
      apply preserves_bind; [apply preserves_updateOverall|intros ?].
      apply preserves_bind; [apply preserves_frame; unfold cleanupOnFailure; frame_steps|intros ?].
      apply preserves_frame; frame_steps. }
  specialize (Hrun w0 Hnone).
  assert (H : data_field (processMultiProjectDeployment env job w0).2 d = None).
  { by destruct (processMultiProjectDeployment env job w0) as [[a|e] w']. }
  split; [exact H|].
  unfold data_field in H. unfold status_record.
  destruct (w_hashes _ !! statusKey d) as [h|]; [|done].
  simpl in H. by rewrite H.
Qed.
End VolatileStore.

(** * Proxy reconfiguration and its rollback *)

Lemma restored_ext r t0 w w' es :
  restored r t0 w → w_nginx w' = w_nginx w → w_trace w' = es ++ w_trace w →
  restored r t0 w'.
Proof.
  intros (Hl & name & t1 & t2 & Ht) Hn Hes. split; [by rewrite Hn|].
  exists name, (es ++ t1), t2. by rewrite Hes, Ht, app_assoc.
Qed.

Ltac restored_witness tn :=
  match goal with
  | |- context [EvNginxRestore ?nm _ :: ?a :: ?b :: ?c :: w_trace _] =>
      exists nm, [], ([a; b; c] ++ tn)
  | |- context [EvNginxRestore ?nm _ :: ?a :: ?b :: w_trace _] =>
      exists nm, [], ([a; b] ++ tn)
  end.

Section ProxyStage.
Context (env : Env) (Hredis : REDIS_ENABLED env = true).
Context (d : string) (t0 : list Event).
Context (R : MultiProjectDeploymentStatus → Prop).

Local Abbreviation Gv := (check_passed env).
Local Abbreviation AnyFs := (λ _ : NginxFs, True).
Local Abbreviation AnyEv := (λ _ : Event, True).

Lemma Inv_push (G : Event → Prop) (N N' : NginxFs → Prop) w n c (es : list Event) :
  Inv d t0 G N R w → Forall G es → N' n →
  Inv d t0 G N' R (mkWorld (w_hashes w) (w_lists w) n c (es ++ w_trace w)).
Proof.
  intros ((tn & Ht & HG) & _ & Hrec) Hes Hn. split; [|split; [done|exact Hrec]].
  exists (es ++ tn). simpl. rewrite Ht, app_assoc. split; [done|]. by apply Forall_app.
Qed.

(** The proxy stage: either every syntax check so far has passed, or the
    new configuration was rejected and the prior text was restored. *)
Lemma updateNginxConfig_spec n0 r qs h :
  prior_config n0 = Some r →
  hoare (Inv d t0 Gv (λ n, n = n0) R) (updateNginxConfig env d qs h)
    (λ _, Inv d t0 Gv AnyFs R)
    (λ _ w, Inv d t0 Gv AnyFs R w ∨ (Inv d t0 AnyEv AnyFs R w ∧ restored r t0 w)).
Proof.
  intros Hprior w Hw. pose proof Hw as (_ & Hn & _). simpl in Hn.
  unfold updateNginxConfig, backupNginxConfig, validateNginxConfig, restoreBackupConfig,
    reloadNginx.
  munfold. simpl. rewrite Hn. unfold prior_config in Hprior.
  destruct (live_config n0) as [old|] eqn:Hlive; simpl.
  - injection Hprior as <-.
    destruct (nginx_t env (Some (generateNginxConfig env qs h (w_clock w)))) as [[]|m] eqn:Hv;
      simpl.
    + destruct (nginx_reload env (Some (generateNginxConfig env qs h (w_clock w))))
        as [[]|m2]; simpl.
      * apply (Inv_push Gv (λ n, n = n0) AnyFs w _ _ [_; _; _; _]); [done| |done].
        repeat constructor. simpl. by rewrite Hv.
      * destruct (nginx_reload env (Some old)) as [[]|m3]; simpl; left;
          (apply (Inv_push Gv (λ n, n = n0) AnyFs w _ _ [_; _; _; _; _; _]); [done| |done];
           repeat constructor; simpl; by rewrite Hv).
    + destruct (nginx_reload env (Some old)) as [[]|m3]; simpl; right;
        (split; [ apply (Inv_push AnyEv (λ n, n = n0) AnyFs w _ _ [_; _; _; _; _]);
                  [ eapply Inv_mono; eauto | repeat constructor | done ]
                | split; [done|];
                  destruct Hw as ((tn & Ht & _) & _);
                  restored_witness tn; simpl; by rewrite Ht ]).
  - destruct (snapshots n0) as [|[name text] rest] eqn:Hsnap; [done|].
    simpl in Hprior. injection Hprior as <-.
    destruct (nginx_t env (Some (generateNginxConfig env qs h (w_clock w)))) as [[]|m] eqn:Hv;
      simpl.
    + destruct (nginx_reload env (Some (generateNginxConfig env qs h (w_clock w))))
        as [[]|m2]; simpl.
      * apply (Inv_push Gv (λ n, n = n0) AnyFs w _ _ [_; _; _]); [done| |done].
        repeat constructor. simpl. by rewrite Hv.
      * destruct (nginx_reload env (Some text)) as [[]|m3]; simpl; left;
          (apply (Inv_push Gv (λ n, n = n0) AnyFs w _ _ [_; _; _; _; _]); [done| |done];
           repeat constructor; simpl; by rewrite Hv).
    + destruct (nginx_reload env (Some text)) as [[]|m3]; simpl; right;
        (split; [ apply (Inv_push AnyEv (λ n, n = n0) AnyFs w _ _ [_; _; _; _]);
                  [ eapply Inv_mono; eauto | repeat constructor | done ]
                | split; [done|];
                  destruct Hw as ((tn & Ht & _) & _);
                  restored_witness tn; simpl; by rewrite Ht ]).
Qed.
End ProxyStage.

Section FailureHandler.
Context (env : Env) (Hredis : REDIS_ENABLED env = true).
Context (d : string).

Lemma run_failure_handler qs error w st :
  status_record w d = Some st →
  (updateOverallStatus env d "failed" ("deployment failed: " +:+ error) ;;
   cleanupOnFailure d qs ;;
   emit (EvNotifyFailure error) ;;
   throw (A:=PipelineResult) error) w
  = (Throw error, after_failure d qs error st w).
Proof.
  intros Hrec.
  unfold updateOverallStatus, redis_hgetall, redis_hset_data, redis_expire, cleanupOnFailure.
  munfold. rewrite Hredis. rewrite (status_record_data d _ _ Hrec). reflexivity.
Qed.

Lemma failure_handler_restored t0 (G : Event → Prop) N R r qs error :
  hoare (λ w, Inv d t0 G N R w ∧ restored r t0 w)
    (updateOverallStatus env d "failed" ("deployment failed: " +:+ error) ;;
     cleanupOnFailure d qs ;;
     emit (EvNotifyFailure error) ;;
     throw (A:=PipelineResult) error)
    (λ _ _, False)
    (λ _ w, restored r t0 w
            ∧ ∃ st, status_record w d = Some st ∧ ds_overallStatus st = "failed").
Proof.
  intros w [(_ & _ & st & Hst & _) Hres].
  rewrite (run_failure_handler qs error w st Hst). split.
  - eapply (restored_ext r t0 w); [exact Hres|reflexivity|].
    unfold after_failure. simpl.
    match goal with |- ?a :: ?b :: ?c :: _ = _ => instantiate (1 := [a; b; c]) end.
    reflexivity.
  - exists (with_overall "failed" (ds_estimatedCompletion st) st). split; [|reflexivity].
    apply (status_record_set_rec d (with_overall "failed" (ds_estimatedCompletion st) st) w).
Qed.
End FailureHandler.

Lemma hoare_or {A} (P1 P2 : World → Prop) (c : M A) Q E :
  hoare P1 c Q E → hoare P2 c Q E → hoare (λ w, P1 w ∨ P2 w) c Q E.
Proof. intros H1 H2 w [Hw|Hw]; [by apply H1 | by apply H2]. Qed.

(** A stage that keeps the invariant [I], inside a run whose rejection
    may also be explained by [D]. *)
Lemma hoare_keep_left {A} (I I' D : World → Prop) (c : M A) :
  hoare I c (λ _, I') (λ _, I') →
  hoare I c (λ _, I') (λ _ w, I' w ∨ D w).
Proof. intros H. eapply hoare_conseq; [exact H| | |]; simpl; auto. Qed.

Section ProxyFailure.
Context (env : Env) (Hredis : REDIS_ENABLED env = true).
Context (job : MultiProjectJobData) (t0 : list Event) (n0 : NginxFs) (r : string).
Context (Hprior : prior_config n0 = Some r).

Local Abbreviation d := (jd_deploymentId job).
Local Abbreviation ps := (jd_projectIds job).
Local Abbreviation Gv := (check_passed env).
Local Abbreviation AnyFs := (λ _ : NginxFs, True).
Local Abbreviation AnyEv := (λ _ : Event, True).
Local Abbreviation AnyRec := (λ _ : MultiProjectDeploymentStatus, True).
Local Abbreviation Before := (Inv d t0 Gv (λ n, n = n0) AnyRec).
Local Abbreviation Checked := (Inv d t0 Gv AnyFs AnyRec).
Local Abbreviation Rolled := (λ w, Inv d t0 AnyEv AnyFs AnyRec w ∧ restored r t0 w).

Lemma Before_Checked w : Before w → Checked w.
Proof. intros H. eapply Inv_mono; eauto. Qed.

Ltac keep_before lem :=
  eapply hoare_bind;
  [ eapply hoare_conseq;
    [ lem | auto | intros ? ? HH; exact HH
    | intros ? ? HH; left; apply Before_Checked; exact HH ]
  | intros ? ].

Ltac keep_checked lem :=
  eapply hoare_bind;
  [ eapply hoare_conseq;
    [ lem | auto | intros ? ? HH; exact HH | intros ? ? HH; left; exact HH ]
  | intros ? ].

Lemma proxy_failure_run :
  hoare (λ w, w_trace w = t0 ∧ w_nginx w = n0)
    (processMultiProjectDeployment env job)
    (λ _, Checked)
    (λ _ w, Checked w
            ∨ (restored r t0 w
               ∧ ∃ st, status_record w d = Some st ∧ ds_overallStatus st = "failed")).
Proof.
  unfold processMultiProjectDeployment.
  eapply hoare_try_catch with (Eb := λ _ w, Checked w ∨ Rolled w).
  - eapply hoare_bind with (Q1 := λ _, Before).
    { intros w [Hw Hn]. destruct (run_initialize env Hredis d ps w) as (st & -> & _).
      split; [|split; [done|]].
      - exists []. simpl. by split.
      - exists st. split; [apply status_record_set_rec | done]. }
    intros [].
    keep_before ltac:(by apply (inv_emit d t0 Gv (λ n, n = n0) AnyRec _ (λ _, Before))).
    keep_before ltac:(by apply (keep_updateProjectStatus env Hredis d t0 Gv (λ n, n = n0) AnyRec ps _ _
                                  (λ _, Before))).
    keep_before ltac:(by apply (keep_clone_stage env Hredis d t0 Gv (λ n, n = n0) AnyRec ps)).
    keep_before ltac:(by apply (inv_emit d t0 Gv (λ n, n = n0) AnyRec _ (λ _, Before))).
    keep_before ltac:(by apply (keep_updateProjectStatus env Hredis d t0 Gv (λ n, n = n0) AnyRec ps _ _
                                  (λ _, Before))).
    keep_before ltac:(by apply (inv_buildMultipleProjects env d t0 Gv (λ n, n = n0) AnyRec ps)).
    keep_before ltac:(by apply (keep_build_results env Hredis d t0 Gv (λ n, n = n0) AnyRec ps _
                                  (λ _, Before))).
    keep_before ltac:(by apply (inv_emit d t0 Gv (λ n, n = n0) AnyRec _ (λ _, Before))).
    keep_before ltac:(by apply (inv_emit d t0 Gv (λ n, n = n0) AnyRec _ (λ _, Before))).
    keep_before ltac:(apply (keep_await d t0 Gv (λ n, n = n0) AnyRec)).
    keep_before ltac:(by apply (inv_emit d t0 Gv (λ n, n = n0) AnyRec _ (λ _, Before))).
    keep_before ltac:(by apply (keep_updateProjectStatus env Hredis d t0 Gv (λ n, n = n0) AnyRec ps _ _
                                  (λ _, Before))).
    keep_before ltac:(by apply (inv_emit d t0 Gv (λ n, n = n0) AnyRec _ (λ _, Before))).
    keep_before ltac:(apply (keep_await d t0 Gv (λ n, n = n0) AnyRec)).
    keep_before ltac:(by apply (keep_for_of_single env Hredis d t0 Gv (λ n, n = n0) AnyRec ps _ _ _
                                  (λ _, Before))).
    keep_before ltac:(by apply (inv_emit d t0 Gv (λ n, n = n0) AnyRec _ (λ _, Before))).
    keep_before ltac:(by apply (keep_updateProjectStatus env Hredis d t0 Gv (λ n, n = n0) AnyRec ps _ _
                                  (λ _, Before))).
    (* the proxy stage *)
    eapply hoare_bind; [by apply (updateNginxConfig_spec env d t0 AnyRec n0 r)|]. intros [].
    keep_checked ltac:(by apply (keep_for_of_single env Hredis d t0 Gv AnyFs AnyRec ps _ _ _
                                   (λ _, Checked))).
    keep_checked ltac:(by apply (inv_emit d t0 Gv AnyFs AnyRec _ (λ _, Checked))).
    keep_checked ltac:(by apply (inv_emit d t0 Gv AnyFs AnyRec _ (λ _, Checked))).
    keep_checked ltac:(by apply (keep_updateProjectStatus env Hredis d t0 Gv AnyFs AnyRec ps _ _
                                   (λ _, Checked))).
    keep_checked ltac:(by apply (inv_updateOverall env Hredis d t0 Gv AnyFs AnyRec AnyRec _ _
                                   (λ _, Checked))).
    keep_checked ltac:(by apply (inv_emit d t0 Gv AnyFs AnyRec _ (λ _, Checked))).
    keep_checked ltac:(by apply (inv_emit d t0 Gv AnyFs AnyRec _ (λ _, Checked))).
    intros w Hw. exact Hw.
  - intros e. apply hoare_or.
    + eapply hoare_conseq.
      * apply (failure_handler_spec env Hredis d t0 Gv AnyFs AnyRec ps e).
      * auto.
      * by intros a w [].
      * intros e' w Hw. left. simpl in Hw. by eapply failed_post_Inv.
    + eapply hoare_conseq.
      * apply (failure_handler_restored env Hredis d t0 AnyEv AnyFs AnyRec r ps e).
      * auto.
      * by intros a w [].
      * intros e' w Hw. right. exact Hw.
Qed.
End ProxyFailure.



(** * Snapshots of the upload target *)

Section UploadLemmas.
Import UploadService.

(** The pruning of the multi-project upload keeps at most [n] snapshots
    and every other entry. *)
Lemma keep_snapshots_count n listing :
  length (filter (λ e, is_snapshot e = true) (keep_snapshots n listing))
  = Nat.min n (length (filter (λ e, is_snapshot e = true) listing))
  ∧ filter (λ e, is_snapshot e = false) (keep_snapshots n listing)
    = filter (λ e, is_snapshot e = false) listing.
Proof.
  revert n. induction listing as [|[[t|name] held] rest IH]; intros n.
  - simpl. split; [by rewrite Nat.min_0_r|done].
  - rewrite (filter_cons_True (λ e, is_snapshot e = true)) by done.
    rewrite (filter_cons_False (λ e, is_snapshot e = false)) by done.
    destruct n as [|n]; simpl keep_snapshots.
    + destruct (IH 0) as [H1 H2]. by split.
    + destruct (IH n) as [H1 H2].
      rewrite (filter_cons_True (λ e, is_snapshot e = true)) by done.
      rewrite (filter_cons_False (λ e, is_snapshot e = false)) by done.
      split; [simpl; by rewrite H1|done].
  - simpl keep_snapshots. destruct (IH n) as [H1 H2].
    rewrite !(filter_cons_False (λ e, is_snapshot e = true)) by done.
    rewrite !(filter_cons_True (λ e, is_snapshot e = false)) by done.
    split; [done|by rewrite H2].
Qed.

Lemma createRemoteBackup_at_most_five timestamp cp_ok fs :
  length (filter (λ e, is_snapshot e = true) (backups fs)) ≤ 5 →
  length (filter (λ e, is_snapshot e = true)
            (backups (createRemoteBackup timestamp cp_ok fs))) ≤ 5.
Proof.
  intros Hfs. unfold createRemoteBackup.
  destruct (deploy fs) as [content|]; [|exact Hfs].
  destruct cp_ok; [|exact Hfs].
  change (backups (mkRemoteFs ?a ?b)) with b.
  destruct (keep_snapshots_count 5
              (cp_r (Snapshot timestamp) content (backups fs))) as [Hcount _].
  rewrite Hcount. apply Nat.le_min_l.
Qed.

Lemma take_app_take {A} n (l1 l2 : list A) : take n (l1 ++ take n l2) = take n (l1 ++ l2).
Proof.
  apply list_eq. intros i.
  destruct (decide (i < n)) as [Hi|Hi].
  - rewrite !lookup_take_lt by done.
    destruct (decide (i < length l1)) as [H1|H1].
    + by rewrite !lookup_app_l by done.
    + rewrite !lookup_app_r by lia. apply lookup_take_lt. lia.
  - by rewrite !lookup_take_ge by lia.
Qed.

Lemma filter_other_names name (listing : list (EntryName * list string)) :
  name ∉ listing.*1 → filter (λ e : EntryName * list string, e.1 ≠ name) listing = listing.
Proof.
  induction listing as [|e l IH]; intros Hfresh; [done|].
  rewrite fmap_cons in Hfresh. apply not_elem_of_cons in Hfresh as [Hne Hl].
  rewrite filter_cons. destruct (decide (e.1 ≠ name)) as [_|Hn].
  - f_equal. exact (IH Hl).
  - exfalso. apply Hn. intros Heq. apply Hne. by rewrite Heq.
Qed.

Lemma filter_same_name name (listing : list (EntryName * list string)) :
  name ∉ listing.*1 → filter (λ e : EntryName * list string, e.1 = name) listing = [].
Proof.
  induction listing as [|e l IH]; intros Hfresh; [done|].
  rewrite fmap_cons in Hfresh. apply not_elem_of_cons in Hfresh as [Hne Hl].
  rewrite filter_cons. destruct (decide (e.1 = name)) as [Heq|_].
  - exfalso. apply Hne. by rewrite Heq.
  - exact (IH Hl).
Qed.

Lemma cp_r_fresh name content (listing : list (EntryName * list string)) :
  name ∉ listing.*1 → cp_r name content listing = (name, [content]) :: listing.
Proof.
  intros Hfresh. unfold cp_r.
  by rewrite filter_other_names, filter_same_name.
Qed.

Lemma snapshots_of_names before uploads :
  (snapshots_of before uploads).*1 = Snapshot <$> reverse (uploads.*1).
Proof.
  revert before. induction uploads as [|[t a] rest IH]; intros before; simpl; [done|].
  rewrite fmap_app, IH. rewrite reverse_cons, fmap_app. done.
Qed.

Lemma snapshots_of_length before uploads :
  length (snapshots_of before uploads) = length uploads.
Proof.
  revert before. induction uploads as [|[t a] rest IH]; intros before; simpl; [done|].
  rewrite length_app, IH. simpl. lia.
Qed.

(** After a non-empty series of uploads with fresh, distinct timestamps
    the backup directory holds the five newest entries of: the snapshots
    taken, then what lay there before. *)
Lemma upload_all_backups u uploads content0 listing0 :
  NoDup ((u :: uploads).*1) →
  (∀ t, t ∈ (u :: uploads).*1 → Snapshot t ∉ listing0.*1) →
  backups (upload_all (u :: uploads) (mkRemoteFs (Some content0) listing0))
  = take 5 (snapshots_of content0 (u :: uploads) ++ listing0).
Proof.
  revert u content0 listing0.
  induction uploads as [|u' rest IH]; intros [t a] content0 listing0 Hnd Hfresh.
  - change (backups (upload_all [(t, a)] (mkRemoteFs (Some content0) listing0)))
      with (take 5 (cp_r (Snapshot t) content0 listing0)).
    rewrite cp_r_fresh; [done|]. apply Hfresh. simpl. left.
  - change (upload_all ((t, a) :: u' :: rest) (mkRemoteFs (Some content0) listing0))
      with (upload_all (u' :: rest)
              (mkRemoteFs (Some a)
                 (take 5 (cp_r (Snapshot t) content0 listing0)))).
    rewrite cp_r_fresh by (apply Hfresh; simpl; left).
    rewrite IH.
    + rewrite take_app_take.
      change (snapshots_of content0 ((t, a) :: u' :: rest))
        with (snapshots_of a (u' :: rest) ++ [(Snapshot t, [content0])]).
      by rewrite <- app_assoc.
    + simpl in Hnd. by apply NoDup_cons in Hnd as [_ Hnd].
    + intros t' Ht' Hin.
      assert (Hin' : Snapshot t' ∈ ((Snapshot t, [content0]) :: listing0).*1).
      { apply list_elem_of_fmap in Hin as (e & He & Hel).
        apply list_elem_of_fmap. exists e. split; [done|].
        eapply (subseteq_take 5). exact Hel. }
      simpl in Hin'. apply elem_of_cons in Hin' as [Heq|Hin'].
      * injection Heq as ->. simpl in Hnd. apply NoDup_cons in Hnd as [Hnot _].
        by apply Hnot.
      * apply (Hfresh t'); [|done]. simpl. by right.
Qed.
End UploadLemmas.

(** * Snapshots of the proxy configuration are never pruned *)

Lemma filter_older (now : nat) (l : list (nat * string)) :
  Forall (λ s : nat * string, s.1 < now) l →
  filter (λ s : nat * string, negb (Nat.eqb s.1 now)) l = l.
Proof.
  induction 1 as [|s l Hs Hl IH]; [done|].
  rewrite filter_cons. destruct (decide _) as [_|Hn].
  - by rewrite IH.
  - exfalso. apply Hn. apply negb_prop_intro. intros Heq.
    apply Is_true_eq_true, Nat.eqb_eq in Heq. lia.
Qed.

Lemma reconfigure_adds_snapshot env d qs h w :
  proxy_accepts_all env → proxy_files_ok w →
  (updateNginxConfig env d qs h w).1 = Ok tt
  ∧ length (snapshots (w_nginx (reconfigure env d qs h w)))
    = S (length (snapshots (w_nginx w)))
  ∧ proxy_files_ok (reconfigure env d qs h w).
Proof.
  intros [Ht Hr] [[old Hlive] Hold]. unfold reconfigure.
  unfold updateNginxConfig, backupNginxConfig, validateNginxConfig, reloadNginx.
  munfold. simpl. rewrite Hlive. simpl. rewrite Ht. simpl. rewrite Hr. simpl.
  rewrite filter_older by (eapply Forall_impl; [exact Hold|]; simpl; lia).
  repeat split; try done.
  simpl. constructor; [simpl; lia|]. eapply Forall_impl; [exact Hold|]. simpl. lia.
Qed.

Lemma reconfigure_n_snapshots env d qs h w n :
  proxy_accepts_all env → proxy_files_ok w →
  length (snapshots (w_nginx (Nat.iter n (reconfigure env d qs h) w)))
  = length (snapshots (w_nginx w)) + n
  ∧ proxy_files_ok (Nat.iter n (reconfigure env d qs h) w).
Proof.
  intros Hacc Hok. induction n as [|n [IHl IHok]]; simpl.
  - split; [lia|done].
  - destruct (reconfigure_adds_snapshot env d qs h _ Hacc IHok) as (_ & Hlen & Hok').
    split; [|done]. rewrite Hlen, IHl. lia.
Qed.

(** C3, as the code has it: for the upload target, after a series of at
    least five successful uploads with fresh, distinct timestamps the
    backup directory holds exactly five entries, the snapshots of the five
    latest uploads, newest first; for the proxy configuration, [n]
    successful reconfigurations of an existing file leave [n] more
    snapshots than there were: none is pruned. *)
Theorem snapshot_retention_by_target
    (u : nat * string) (uploads : list (nat * string)) (content0 : string)
    (listing0 : list (UploadService.EntryName * list string))
    (env : Env) (d : string) (qs : list string) (h : string) (w : World) (n : nat) :
  NoDup ((u :: uploads).*1) →
  (∀ t, t ∈ (u :: uploads).*1 → UploadService.Snapshot t ∉ listing0.*1) →
  5 ≤ length (u :: uploads) →
  proxy_accepts_all env →
  proxy_files_ok w →
  (UploadService.backups
     (UploadService.upload_all (u :: uploads)
        (UploadService.mkRemoteFs (Some content0) listing0))).*1
    = UploadService.Snapshot <$> take 5 (reverse ((u :: uploads).*1))
  ∧ length (snapshots (w_nginx (Nat.iter n (reconfigure env d qs h) w)))
    = length (snapshots (w_nginx w)) + n.
Proof.
  intros Hnd Hfresh Hlen Hacc Hok. split.
  - rewrite upload_all_backups by done.
    rewrite take_app_le by (rewrite snapshots_of_length; exact Hlen).
    rewrite fmap_take. rewrite snapshots_of_names.
    by rewrite fmap_take.
  - by apply reconfigure_n_snapshots.
Qed.

Lemma snapshot_retention_by_target_witness :
  (UploadService.backups
     (UploadService.upload_all six_uploads
        (UploadService.mkRemoteFs (Some "build-0") []))).*1
    = UploadService.Snapshot <$> [106; 105; 104; 103; 102]
  ∧ length (snapshots (w_nginx
              (Nat.iter 6 (reconfigure env_all_ok "deploy-1" ["a"] "10.0.0.5") world_live)))
    = 0 + 6.
Proof.
  apply (snapshot_retention_by_target (101, "build-1") (tail six_uploads) "build-0" []
           env_all_ok "deploy-1" ["a"] "10.0.0.5" world_live 6).
  - apply (bool_decide_unpack _). vm_compute. exact Logic.I.
  - intros t _ Hin. inversion Hin.
  - vm_compute. lia.
  - split; reflexivity.
  - split; [by eexists | constructor].
Defined.

(** C3 at the proxy configuration: six successful reconfigurations of an
    existing file leave six snapshots, not five. *)
Lemma nginx_snapshots_exceed_five :
  let w6 := Nat.iter 6 (reconfigure env_all_ok "deploy-1" ["a"] "10.0.0.5") world_live in
  length (snapshots (w_nginx w6)) = 6 ∧ length (snapshots (w_nginx w6)) ≠ 5.
Proof. vm_compute. split; [reflexivity | discriminate]. Qed.

(** * The in-process queue: at most one handler runs *)

Section QueueExclusion.
Import MemoryQueue.

Lemma next_job_exclusive rest q :
  loops q = [] → processing q = true → exclusive (next_job rest q).
Proof.
  intros Hl Hp. destruct rest as [|r rest]; unfold exclusive; simpl.
  - rewrite Hl. split; [done|simpl; lia].
  - rewrite Hl, Hp. simpl. split; [done|lia].
Qed.

Lemma step_exclusive q l : exclusive q → exclusive (step q l).
Proof.
  intros [Hidle Hone]. destruct l as [data opts now| |i ok]; simpl.
  - done.
  - destruct (immediates q) as [|n]; [done|].
    unfold processJobs. simpl. destruct (processing q) eqn:Hp; [done|].
    apply next_job_exclusive; simpl; [by apply Hidle|done].
  - unfold settle. destruct (loops q !! i) as [[r rest]|] eqn:Hi; [|done].
    assert (Hp : processing q = true).
    { destruct (processing q); [done|]. rewrite Hidle in Hi by done. done. }
    apply next_job_exclusive; simpl; [|done].
    destruct (loops q) as [|l0 [|l1 ls]]; simpl in *; [done| |lia].
    destruct i; [done|]. done.
Qed.

Lemma run_exclusive ls : exclusive (run ls).
Proof.
  unfold run. cut (∀ q, exclusive q → exclusive (foldl step q ls)).
  { intros H. apply H. split; [done|simpl; lia]. }
  induction ls as [|l ls IH]; intros q Hq; simpl; [done|].
  apply IH. by apply step_exclusive.
Qed.
End QueueExclusion.

(** C5: in every state the queue reaches from the empty one, by any
    sequence of [add] calls, fired [setImmediate] callbacks and settled
    handlers, at most one call of [processJobs] is suspended on a handler,
    so for every job id at most one handler invocation is in flight; an
    [add] under an id already waiting or active starts nothing. *)
Theorem at_most_one_active_invocation_per_id
    (ls : list MemoryQueue.Label) (jobId : string) :
  length (MemoryQueue.active_invocations jobId (MemoryQueue.run ls)) ≤ 1
  ∧ length (MemoryQueue.loops (MemoryQueue.run ls)) ≤ 1
  ∧ ∀ data opts now,
      MemoryQueue.loops (MemoryQueue.run (ls ++ [MemoryQueue.Add data opts now]))
      = MemoryQueue.loops (MemoryQueue.run ls).
Proof.
  destruct (run_exclusive ls) as [_ Hone]. split; [|split; [done|]].
  - unfold MemoryQueue.active_invocations.
    etransitivity; [apply length_filter|done].
  - intros. unfold MemoryQueue.run. by rewrite foldl_app.
Qed.

(** ** One pass of [processJobs] *)

Section QueuePass.
Import MemoryQueue.

Lemma set_status_length r s h : length (set_status r s h) = length h.
Proof. unfold set_status. destruct (h !! r); [apply length_insert|done]. Qed.

Lemma set_status_lookup_ne r r' s h : r ≠ r' → set_status r s h !! r' = h !! r'.
Proof.
  intros Hne. unfold set_status. destruct (h !! r); [|done].
  by apply list_lookup_insert_ne.
Qed.

Lemma set_status_status r s h : r < length h → status_of (set_status r s h) r = Some s.
Proof.
  intros Hr. unfold status_of, set_status.
  destruct (h !! r) as [j|] eqn:Hj.
  - rewrite list_lookup_insert_eq by done. done.
  - apply lookup_ge_None in Hj. lia.
Qed.

Lemma set_status_id r s h r' : id_of (set_status r s h) r' = id_of h r'.
Proof.
  unfold id_of, set_status. destruct (h !! r) as [j|] eqn:Hj; [|done].
  destruct (decide (r = r')) as [<-|Hne].
  - rewrite list_lookup_insert_eq by (by eapply lookup_lt_Some). by rewrite Hj.
  - by rewrite list_lookup_insert_ne.
Qed.

Lemma pass_spec ws : ∀ outcomes q,
  length outcomes = length ws → NoDup ws → (∀ r, r ∈ ws → r < length (heap q)) →
  loops q = [] →
  pass_result ws outcomes q (settle_all outcomes (next_job ws q)).
Proof.
  induction ws as [|r rest IH]; intros outcomes q Hlen Hnd Hb Hl.
  - destruct outcomes; [|done]. simpl. by constructor.
  - destruct outcomes as [|ok os]; [done|]. simpl in Hlen.
    apply NoDup_cons in Hnd as [Hr Hnd].
    assert (Hrb : r < length (heap q)) by (apply Hb; left).
    unfold settle_all. simpl. unfold settle at 2. simpl. rewrite Hl. simpl.
    set (q2 := mkState _ _ _ _ _ _ _).
    assert (Hq2 : length (heap q2) = length (heap q)).
    { unfold q2. simpl. by rewrite !set_status_length. }
    assert (Hid2 : ∀ r', id_of (heap q2) r' = id_of (heap q) r').
    { intros r'. unfold q2. simpl. by rewrite !set_status_id. }
    destruct (IH os q2) as [[Ha1 Ha2] Hb1 Hc Hd He Hf [Hg1 Hg2]].
    + congruence.
    + done.
    + intros r' Hr'. rewrite Hq2. apply Hb. by right.
    + done.
    + constructor.
      * done.
      * fold (settle_all os (next_job rest q2)). rewrite Hb1. unfold q2. simpl.
        rewrite reverse_cons, <- app_assoc. done.
      * fold (settle_all os (next_job rest q2)). rewrite Hc. unfold q2 at 2. simpl.
        rewrite reverse_cons, <- app_assoc. simpl. rewrite set_status_id.
        f_equal. f_equal. apply zip_with_ext; [|done..]. intros; by rewrite Hid2.
      * fold (settle_all os (next_job rest q2)). destruct Hd as [Hd1 Hd2]. by rewrite Hd1, Hd2.
      * fold (settle_all os (next_job rest q2)). intros [|i] r' ok'; simpl.
        -- intros [= <-] [= <-]. unfold status_of. rewrite (Hf r Hr).
           unfold q2. simpl. apply set_status_status. by rewrite set_status_length.
        -- intros H1 H2. by apply (He i).
      * fold (settle_all os (next_job rest q2)). intros r' Hr'.
        apply not_elem_of_cons in Hr' as [Hne Hr'].
        rewrite (Hf r' Hr'). unfold q2. simpl.
        by rewrite !set_status_lookup_ne.
      * fold (settle_all os (next_job rest q2)). split; [congruence|].
        intros r'. by rewrite Hg2.
Qed.

Lemma obj_set_values {V} k (v : V) o x :
  x ∈ (obj_set k v o).*2 → x = v ∨ x ∈ o.*2.
Proof.
  induction o as [|[k' v'] o IH]; simpl.
  - intros H. apply list_elem_of_singleton in H. by left.
  - destruct (String.eqb k k'); simpl; intros H; apply elem_of_cons in H as [->|H].
    + by left.
    + right. by right.
    + right. left.
    + destruct (IH H) as [->|H']; [by left|right; by right].
Qed.

Lemma obj_set_NoDup {V} k (v : V) o :
  NoDup (o.*2) → v ∉ o.*2 → NoDup ((obj_set k v o).*2).
Proof.
  induction o as [|[k' v'] o IH]; simpl; intros Hnd Hv.
  - apply NoDup_singleton.
  - apply NoDup_cons in Hnd as [Hv' Hnd]. apply not_elem_of_cons in Hv as [Hne Hv].
    destruct (String.eqb k k'); simpl; apply NoDup_cons.
    + done.
    + split; [|by apply IH]. intros Hin.
      apply obj_set_values in Hin as [->|Hin]; [done|by apply Hv'].
Qed.

Lemma next_job_wf rest q : wf q → wf (next_job rest q).
Proof.
  intros [Hb Hnd]. destruct rest as [|r rest]; split; simpl; try done.
  intros r' Hr'. rewrite set_status_length. by apply Hb.
Qed.

Lemma step_wf q l : wf q → wf (step q l).
Proof.
  intros [Hb Hnd]. destruct l as [data opts now| |i ok]; simpl.
  - split; simpl.
    + intros r Hr. rewrite length_app. simpl.
      apply obj_set_values in Hr as [->|Hr]; [lia|]. specialize (Hb r Hr). lia.
    + apply obj_set_NoDup; [done|]. intros Hin. specialize (Hb _ Hin). lia.
  - destruct (immediates q); [done|]. unfold processJobs. simpl.
    destruct (processing q); [done|]. by apply next_job_wf.
  - unfold settle. destruct (loops q !! i) as [[r rest]|]; [|done].
    apply next_job_wf. split; simpl; [|done].
    intros r' Hr'. rewrite set_status_length. by apply Hb.
Qed.

Lemma run_wf ls : wf (run ls).
Proof.
  unfold run. cut (∀ q, wf q → wf (foldl step q ls)).
  { intros H. apply H. split; simpl; [intros r Hr; inversion Hr | constructor]. }
  induction ls as [|l ls IH]; intros q Hq; simpl; [done|].
  apply IH. by apply step_wf.
Qed.
End QueuePass.




(** * The status query *)

Section StatusQuery.
Import DeploymentController.

(** The record written by the pipeline has the single field [data]; the
    query looks for the field [status]. *)
Lemma pipeline_record_is_not_read env job w0 getJob :
  REDIS_ENABLED env = true →
  jd_deploymentId job ≠ "" →
  w_hashes w0 !! statusKey (jd_deploymentId job) = None →
  getDeploymentStatus true getJob (jd_deploymentId job)
    (initializeDeploymentStatus env (jd_deploymentId job) (jd_projectIds job) w0).2
  = match getJob (jd_deploymentId job) with
    | None => NotFound
    | Some j => FromQueue (mapJobStateToStatus (jv_state j)) (default 0 (jv_progress j))
                  (getCurrentStep (jv_state j) (jv_progress j)) (jv_timestamp j)
    end.
Proof.
  intros Hredis Hne Hfresh.
  destruct (run_initialize env Hredis (jd_deploymentId job) (jd_projectIds job) w0)
    as (st & -> & _).
  unfold getDeploymentStatus.
  destruct (String.eqb (jd_deploymentId job) "") eqn:He.
  { apply String.eqb_eq in He. done. }
  unfold set_rec, Redis.hgetall, Redis.hset. simpl.
  rewrite lookup_insert_eq. simpl. rewrite Hfresh. simpl.
  rewrite lookup_insert_ne by done. rewrite lookup_empty. done.
Qed.
End StatusQuery.

(** C6: after the rejected run of the scenario of C2 the pipeline has
    persisted a record whose aggregate is 'failed'; the status query
    answers 404 when the queue no longer holds the job, and answers with
    the coarse status derived from the job state when it does; in neither
    case does it return the persisted record. *)
Theorem status_query_does_not_return_persisted_record :
  let w := (processMultiProjectDeployment env_build_b_fails job_ab world0).2 in
  (∃ st, status_record w "deploy-1" = Some st ∧ ds_overallStatus st = "failed")
  ∧ DeploymentController.getDeploymentStatus true (λ _, None) "deploy-1" w
    = DeploymentController.NotFound
  ∧ DeploymentController.getDeploymentStatus true
      (λ _, Some (DeploymentController.mkJobView "active" (Some 20) 1000)) "deploy-1" w
    = DeploymentController.FromQueue "building" 20 "building" 1000.
Proof.
  split; [|split].
  - eexists. split; vm_compute; reflexivity.
  - vm_compute. reflexivity.
  - vm_compute. reflexivity.
Qed.

(** * Request validation *)

Section SchemaLemmas.
Import Validator.

Lemma first_error_app_some l1 l2 :
  first_error l2 ≠ None → first_error (l1 ++ l2) ≠ None.
Proof.
  intros H. induction l1 as [|[e|] l1 IH]; simpl; [done|done|exact IH].
Qed.

Lemma schema_validate_projectIds data e :
  check_projectIds (projectIds data) = Some e →
  validateMultiProjectDeploymentRequest data = inl e.
Proof.
  intros H. unfold validateMultiProjectDeploymentRequest, schema_validate.
  cbn [first_error]. by rewrite H.
Qed.

(** An empty or oversized project set never passes the schema. *)
Lemma projectIds_rejected items :
  items = [] ∨ 10 < length items → check_projectIds (Some items) ≠ None.
Proof.
  intros H. unfold check_projectIds. apply first_error_app_some.
  destruct H as [->|H]; simpl; [done|].
  destruct (Nat.ltb (length items) 1); [done|].
  apply Nat.ltb_lt in H. by rewrite H.
Qed.
End SchemaLemmas.

(** C8: a trigger whose project set is empty or holds more than ten
    projects never reaches the queue, whichever backend it is: the queue
    is left as it was, and a request that carries the webhook secret is
    answered 400 with a validation error. *)
Theorem invalid_project_set_is_rejected_before_enqueue
    {Q : Type} (queue_add : WebhookController.Enqueue → Q → Q) (secret : string)
    (now : nat) (random : string) (req : WebhookController.Request) (q : Q)
    (items : list string) :
  Validator.projectIds (WebhookController.req_body req) = Some items →
  items = [] ∨ 10 < length items →
  (WebhookController.handleMultiProjectDeployment queue_add secret now random req q).2 = q
  ∧ (WebhookController.x_webhook_secret req = Some secret →
     ∃ e, (WebhookController.handleMultiProjectDeployment queue_add secret now random req q).1
          = WebhookController.Rejected e).
Proof.
  intros Hitems Hbad.
  assert (Hrej : ∃ e, Validator.validateMultiProjectDeploymentRequest
                        (WebhookController.req_body req) = inl e).
  { pose proof (projectIds_rejected items Hbad) as Hne.
    destruct (Validator.check_projectIds (Some items)) as [e|] eqn:He; [|done].
    exists e. apply schema_validate_projectIds. by rewrite Hitems. }
  destruct Hrej as [e He].
  unfold WebhookController.handleMultiProjectDeployment. rewrite He.
  destruct (bool_decide _) eqn:Hs; simpl.
  - split; [done|]. intros _. by exists e.
  - split; [done|]. intros Hsec. apply bool_decide_eq_false in Hs. contradiction.
Qed.

Lemma invalid_project_set_is_rejected_before_enqueue_witness :
  (WebhookController.handleMultiProjectDeployment WebhookController.memory_add
     "default-secret" 1736 "k3j2h1g9f" oversized_request MemoryQueue.empty).2
  = MemoryQueue.empty
  ∧ (WebhookController.x_webhook_secret oversized_request = Some "default-secret" →
     ∃ e, (WebhookController.handleMultiProjectDeployment WebhookController.memory_add
             "default-secret" 1736 "k3j2h1g9f" oversized_request MemoryQueue.empty).1
          = WebhookController.Rejected e).
Proof.
  apply (invalid_project_set_is_rejected_before_enqueue WebhookController.memory_add
           "default-secret" 1736 "k3j2h1g9f" oversized_request MemoryQueue.empty
           eleven_projects).
  - reflexivity.
  - right. vm_compute. lia.
Defined.

(** * The build service: chunks, builds and project information *)

Lemma chunkArray_loop_concat {T} (array : list T) (size : nat) :
  1 ≤ size → ∀ fuel i, length array - i ≤ fuel →
  concat (chunkArray_loop fuel i array size) = drop i array.
Proof.
  intros Hsize. induction fuel as [|fuel IH]; intros i Hfuel; simpl.
  - rewrite drop_ge by lia. done.
  - destruct (Nat.ltb i (length array)) eqn:Hi.
    + apply Nat.ltb_lt in Hi. simpl. rewrite IH by lia.
      unfold slice. replace (i + size - i) with size by lia.
      rewrite <- (drop_drop array size i). apply take_drop.
    + apply Nat.ltb_ge in Hi. rewrite drop_ge by lia. done.
Qed.

Lemma chunkArray_loop_sizes {T} (array : list T) (size : nat) :
  1 ≤ size → ∀ fuel i,
  Forall (λ c, 1 ≤ length c ≤ size) (chunkArray_loop fuel i array size).
Proof.
  intros Hsize. induction fuel as [|fuel IH]; intros i; simpl; [constructor|].
  destruct (Nat.ltb i (length array)) eqn:Hi; [|constructor].
  apply Nat.ltb_lt in Hi. constructor; [|apply IH].
  unfold slice. rewrite length_take, length_drop. lia.
Qed.

(** X1: with a chunk size of at least one, [chunkArray] cuts the array
    into consecutive pieces: put together again they are the array, no
    piece is empty and none is longer than the size. *)
Theorem chunkArray_partitions {T} (array : list T) (size : nat) :
  1 ≤ size →
  concat (chunkArray array size) = array
  ∧ Forall (λ c, 1 ≤ length c ≤ size) (chunkArray array size).
Proof.
  intros Hsize. split.
  - unfold chunkArray. rewrite chunkArray_loop_concat by lia. done.
  - by apply chunkArray_loop_sizes.
Qed.

Lemma chunkArray_partitions_witness :
  concat (chunkArray ["a"; "b"; "c"; "d"; "e"] 2) = ["a"; "b"; "c"; "d"; "e"]
  ∧ Forall (λ c : list string, 1 ≤ length c ≤ 2) (chunkArray ["a"; "b"; "c"; "d"; "e"] 2).
Proof. apply (chunkArray_partitions ["a"; "b"; "c"; "d"; "e"] 2). lia. Defined.

(** ** Objects used as dictionaries *)

Lemma obj_get_set_eq {V} k (v : V) o : obj_get k (obj_set k v o) = Some v.
Proof.
  induction o as [|[k' v'] o IH]; simpl.
  - by rewrite String.eqb_refl.
  - destruct (String.eqb k k') eqn:Hk; simpl; [by rewrite String.eqb_refl|].
    by rewrite Hk.
Qed.

Lemma obj_get_set_ne {V} k k' (v : V) o : k ≠ k' → obj_get k' (obj_set k v o) = obj_get k' o.
Proof.
  intros Hne. induction o as [|[k2 v2] o IH]; simpl.
  - destruct (String.eqb k' k) eqn:Hk; [|done]. apply String.eqb_eq in Hk. congruence.
  - destruct (String.eqb k k2) eqn:Hk; simpl.
    + apply String.eqb_eq in Hk as <-.
      destruct (String.eqb k' k) eqn:Hk'; [|done]. apply String.eqb_eq in Hk'. congruence.
    + destruct (String.eqb k' k2); [done|exact IH].
Qed.

Lemma obj_set_not_nil {V} k (v : V) o : obj_set k v o ≠ [].
Proof. destruct o as [|[k' v'] o]; simpl; [done|]. by destruct (String.eqb k k'). Qed.

Lemma obj_set_fresh {V} k (v : V) o : k ∉ o.*1 → obj_set k v o = o ++ [(k, v)].
Proof.
  induction o as [|[k' v'] o IH]; intros Hk; simpl; [done|].
  rewrite fmap_cons, not_elem_of_cons in Hk. destruct Hk as [Hne Hk]. simpl in Hne.
  destruct (String.eqb k k') eqn:Heq; [apply String.eqb_eq in Heq; congruence|].
  by rewrite IH.
Qed.

Lemma obj_get_Some_keys {V} k (v : V) o : obj_get k o = Some v → k ∈ o.*1.
Proof.
  induction o as [|[k' v'] o IH]; simpl; [done|].
  destruct (String.eqb k k') eqn:Heq.
  - apply String.eqb_eq in Heq as ->. intros _. left.
  - intros H. right. by apply IH.
Qed.

Lemma obj_get_elem {V} k (v : V) o : NoDup (o.*1) → (k, v) ∈ o → obj_get k o = Some v.
Proof.
  induction o as [|[k' v'] o IH]; intros Hnd Hin; simpl; [inversion Hin|].
  rewrite fmap_cons in Hnd. apply NoDup_cons in Hnd as [Hk' Hnd]. simpl in Hk'.
  apply elem_of_cons in Hin as [[= <- <-]|Hin]; [by rewrite String.eqb_refl|].
  destruct (String.eqb k k') eqn:Heq; [|by apply IH].
  apply String.eqb_eq in Heq as ->. exfalso. apply Hk'.
  apply list_elem_of_fmap. by exists (k', v).
Qed.

(** ** Builds of a project list *)

Section BuildRuns.
Context (env : Env) (d : string).

Lemma pushes_pushes es1 es2 w : pushes es2 (pushes es1 w) = pushes (es2 ++ es1) w.
Proof. unfold pushes. simpl. by rewrite app_assoc. Qed.

Lemma pushes_nil w : pushes [] w = w.
Proof. by destruct w. Qed.

Lemma build_one_run acc p w :
  build_one env d acc p w = (Ok (build_step env d acc p), pushes [EvBuild p] w).
Proof.
  unfold build_one, build_step. munfold.
  by destruct (buildProject env d p).
Qed.

Lemma build_chunk_run ps : ∀ acc w,
  build_chunk env d acc ps w
  = (Ok (foldl (build_step env d) acc ps), pushes (reverse (EvBuild <$> ps)) w).
Proof.
  induction ps as [|p ps IH]; intros acc w; simpl.
  - by rewrite pushes_nil.
  - unfold mbind, M_bind. rewrite build_one_run, IH, pushes_pushes.
    by rewrite reverse_cons.
Qed.

Lemma build_chunks_run cs : ∀ acc w,
  build_chunks env d acc cs w
  = (Ok (foldl (build_step env d) acc (concat cs)),
     pushes (reverse (EvBuild <$> concat cs)) w).
Proof.
  induction cs as [|c cs IH]; intros acc w; simpl.
  - by rewrite pushes_nil.
  - unfold mbind, M_bind. rewrite build_chunk_run, IH, pushes_pushes.
    by rewrite foldl_app, fmap_app, reverse_app.
Qed.

Lemma build_errors_nil ps : ∀ acc,
  errors (foldl (build_step env d) acc ps) = []
  ↔ errors acc = [] ∧ ∀ p, p ∈ ps → is_ok (buildProject env d p) = true.
Proof.
  induction ps as [|p ps IH]; intros acc; simpl.
  - split; [intros H; split; [done|]; intros p Hp; inversion Hp | by intros [H _]].
  - rewrite IH. unfold build_step.
    destruct (buildProject env d p) as [dist|m] eqn:Hb; simpl.
    + split; intros [He Hall]; (split; [done|]).
      * intros q Hq. apply elem_of_cons in Hq as [->|Hq]; [by rewrite Hb|by apply Hall].
      * intros q Hq. apply Hall. by right.
    + split; intros [He Hall].
      * by apply obj_set_not_nil in He.
      * specialize (Hall p (list_elem_of_here _ _)). by rewrite Hb in Hall.
Qed.

Lemma build_results_get ps p : ∀ acc,
  obj_get p (results (foldl (build_step env d) acc ps))
  = match buildProject env d p with
    | Ok distPath => if decide (p ∈ ps) then Some distPath else obj_get p (results acc)
    | Throw _ => obj_get p (results acc)
    end.
Proof.
  induction ps as [|q ps IH]; intros acc; simpl.
  - destruct (buildProject env d p); [|done].
    destruct (decide (p ∈ [])) as [H|_]; [inversion H|done].
  - rewrite IH.
    assert (Hq : obj_get p (results (build_step env d acc q))
                 = if decide (q = p)
                   then match buildProject env d p with
                        | Ok distPath => Some distPath
                        | Throw _ => obj_get p (results acc)
                        end
                   else obj_get p (results acc)).
    { unfold build_step. destruct (decide (q = p)) as [->|Hne].
      - destruct (buildProject env d p); simpl; [by rewrite obj_get_set_eq|done].
      - destruct (buildProject env d q); simpl; [by apply obj_get_set_ne|done]. }
    rewrite Hq. destruct (buildProject env d p) as [dist|m].
    + destruct (decide (p ∈ ps)) as [Hin|Hnin].
      * destruct (decide (p ∈ q :: ps)) as [_|Hn]; [done|]. exfalso. apply Hn. by right.
      * destruct (decide (q = p)) as [->|Hne].
        -- destruct (decide (p ∈ p :: ps)) as [_|Hn]; [done|]. exfalso. apply Hn. left.
        -- destruct (decide (p ∈ q :: ps)) as [Hi|_]; [|done].
           apply elem_of_cons in Hi as [->|Hi]; done.
    + by destruct (decide (q = p)).
Qed.
End BuildRuns.


(** ** Project information *)

Section ProjectInfoLemmas.
Import ProjectInfo.
Context (PROJECT_CONFIGS : list (string * ProjectConfig)).
Context (path_join : string → string → string).
Context (readJson : string → Result PackageJson).

Lemma getAllProjectsInfo_loop_spec (rest : list (string * ProjectConfig)) : ∀ results,
  (∀ k pc, (k, pc) ∈ rest → obj_get k PROJECT_CONFIGS = Some pc) →
  NoDup (results.*1 ++ rest.*1) →
  getAllProjectsInfo_loop PROJECT_CONFIGS path_join readJson (rest.*1) results
  = Ok (results ++ ((λ e, (e.1, project_entry path_join readJson e.2)) <$> rest)).
Proof.
  induction rest as [|[k pc] rest IH]; intros results Hget Hnd; simpl.
  - by rewrite app_nil_r.
  - assert (Hk : obj_get k PROJECT_CONFIGS = Some pc) by (apply Hget; left).
    assert (Hfresh : k ∉ results.*1).
    { apply NoDup_app in Hnd as (_ & Hdis & _). intros Hin.
      apply (Hdis k Hin). left. }
    assert (Hnd' : ∀ v : Info, NoDup ((obj_set k v results).*1 ++ rest.*1)).
    { intros v. rewrite obj_set_fresh by done. rewrite fmap_app, <- app_assoc. exact Hnd. }
    assert (Hget' : ∀ k' pc', (k', pc') ∈ rest → obj_get k' PROJECT_CONFIGS = Some pc').
    { intros k' pc' Hin. apply Hget. by right. }
    unfold getProjectInfo. rewrite Hk. unfold project_entry.
    destruct (readJson (path_join (pc_localPath pc) "package.json")) as [pj|m].
    + rewrite IH by done. rewrite obj_set_fresh by done. by rewrite <- app_assoc.
    + rewrite IH by done. rewrite obj_set_fresh by done. by rewrite <- app_assoc.
Qed.
End ProjectInfoLemmas.

(** X3: [getAllProjectsInfo] is never rejected and answers with one
    entry for every configured project, in the order of the table: the
    build command and the local path of the table, the name and version
    of [package.json] where given, and for a project whose
    [package.json] cannot be read the name of the table, version 0.0.0
    and the error message. *)
Theorem getAllProjectsInfo_reports_every_project
    (PROJECT_CONFIGS : list (string * ProjectConfig))
    (path_join : string → string → string)
    (readJson : string → Result ProjectInfo.PackageJson) :
  NoDup (Object_keys PROJECT_CONFIGS) →
  ProjectInfo.getAllProjectsInfo PROJECT_CONFIGS path_join readJson
  = Ok ((λ e, (e.1, project_entry path_join readJson e.2)) <$> PROJECT_CONFIGS).
Proof.
  intros Hnd. unfold ProjectInfo.getAllProjectsInfo, Object_keys.
  rewrite (getAllProjectsInfo_loop_spec PROJECT_CONFIGS path_join readJson PROJECT_CONFIGS []).
  - done.
  - intros k pc Hin. by apply obj_get_elem.
  - exact Hnd.
Qed.

Lemma getAllProjectsInfo_reports_every_project_witness :
  ProjectInfo.getAllProjectsInfo default_projects posix_join readJson_user_portal_fails
  = Ok ((λ e, (e.1, project_entry posix_join readJson_user_portal_fails e.2))
          <$> default_projects).
Proof.
  apply (getAllProjectsInfo_reports_every_project default_projects posix_join
           readJson_user_portal_fails).
  apply (bool_decide_unpack _). vm_compute. exact Logic.I.
Defined.

(** * The proxy service: outcome of a reconfiguration, template and active projects *)

(** X4: a reconfiguration never touches the store.  When it is
    fulfilled, the live file holds the generated text and both the
    syntax check and the reload accepted it.  When it is rejected,
    whichever step failed, the live file holds the text of the newest
    snapshot (the prior text when the file existed), and when there is
    no snapshot at all the rejected text stays in place.  A live file
    that existed is in the newest snapshot afterwards. *)
Theorem updateNginxConfig_outcome (env : Env) (d : string) (qs : list string) (h : string)
    (w : World) :
  w_hashes (updateNginxConfig env d qs h w).2 = w_hashes w
  ∧ w_lists (updateNginxConfig env d qs h w).2 = w_lists w
  ∧ (is_ok (updateNginxConfig env d qs h w).1 = true →
       live_config (w_nginx (updateNginxConfig env d qs h w).2)
       = Some (generateNginxConfig env qs h (w_clock w))
       ∧ nginx_t env (Some (generateNginxConfig env qs h (w_clock w))) = Ok tt
       ∧ nginx_reload env (Some (generateNginxConfig env qs h (w_clock w))) = Ok tt)
  ∧ (is_ok (updateNginxConfig env d qs h w).1 = false →
       live_config (w_nginx (updateNginxConfig env d qs h w).2)
       = Some (default (generateNginxConfig env qs h (w_clock w))
                 (prior_config (w_nginx w))))
  ∧ (∀ old, live_config (w_nginx w) = Some old →
       head (snapshots (w_nginx (updateNginxConfig env d qs h w).2))
       = Some (S (w_clock w), old)).
Proof.
  destruct (updateNginxConfig_frame env d qs h w) as (Hh & Hl & _).
  split; [exact Hh|]. split; [exact Hl|].
  unfold updateNginxConfig, backupNginxConfig, validateNginxConfig, restoreBackupConfig,
    reloadNginx, prior_config.
  munfold. simpl.
  destruct (live_config (w_nginx w)) as [old|] eqn:Hlive; simpl.
  - destruct (nginx_t env (Some (generateNginxConfig env qs h (w_clock w)))) as [[]|m];
      simpl.
    + destruct (nginx_reload env (Some (generateNginxConfig env qs h (w_clock w))))
        as [[]|m']; simpl.
      * repeat split; try done. by intros ? [= <-].
      * destruct (nginx_reload env (Some old)) as [[]|m'']; simpl;
          (repeat split; try done; by intros ? [= <-]).
    + destruct (nginx_reload env (Some old)) as [[]|m'']; simpl;
        (repeat split; try done; by intros ? [= <-]).
  - destruct (nginx_t env (Some (generateNginxConfig env qs h (w_clock w)))) as [[]|m];
      simpl.
    + destruct (nginx_reload env (Some (generateNginxConfig env qs h (w_clock w))))
        as [[]|m']; simpl.
      * repeat split; done.
      * destruct (snapshots (w_nginx w)) as [|[name text] rest]; simpl; [repeat split; done|].
        destruct (nginx_reload env (Some text)) as [[]|m'']; simpl; repeat split; done.
    + destruct (snapshots (w_nginx w)) as [|[name text] rest]; simpl; [repeat split; done|].
      destruct (nginx_reload env (Some text)) as [[]|m'']; simpl; repeat split; done.
Qed.

(** ** Texts *)

Lemma string_app_assoc (a b c : string) : (a +:+ b) +:+ c = a +:+ b +:+ c.
Proof.
  induction a as [|x a IH]; [done|].
  change (String x ((a +:+ b) +:+ c) = String x (a +:+ b +:+ c)). by f_equal.
Qed.

Lemma prefix_app (p b : string) : String.prefix p (p +:+ b) = true.
Proof.
  induction p as [|x p IH]; [by destruct b|].
  change (String x p +:+ b) with (String x (p +:+ b)). simpl.
  destruct (ascii_dec x x); [exact IH|done].
Qed.

Lemma includes_prefix (s p : string) :
  String.prefix p s = true → String_includes s p = true.
Proof. intros H. destruct s; cbn [String_includes]; by rewrite H. Qed.

Lemma includes_here (p b : string) : String_includes (p +:+ b) p = true.
Proof. apply includes_prefix, prefix_app. Qed.

Lemma includes_app_r (a s p : string) :
  String_includes s p = true → String_includes (a +:+ s) p = true.
Proof.
  intros H. induction a as [|x a IH]; [done|].
  change (String x a +:+ s) with (String x (a +:+ s)). cbn [String_includes].
  rewrite IH. apply orb_true_r.
Qed.

Lemma includes_mid (a p b : string) : String_includes (a +:+ p +:+ b) p = true.
Proof. apply includes_app_r, includes_here. Qed.

Lemma prefix_app_l (p s b : string) :
  String.prefix p s = true → String.prefix p (s +:+ b) = true.
Proof.
  revert s. induction p as [|x p IH]; intros s.
  - intros _. by destruct (s +:+ b).
  - destruct s as [|y s]; [done|].
    change (String y s +:+ b) with (String y (s +:+ b)). simpl.
    destruct (ascii_dec x y); [apply IH|done].
Qed.

Lemma includes_app_l (s b p : string) :
  String_includes s p = true → String_includes (s +:+ b) p = true.
Proof.
  induction s as [|x s IH].
  - cbn [String_includes]. rewrite orb_false_r. intros H.
    apply includes_prefix. by apply (prefix_app_l p "" b).
  - cbn [String_includes]. intros H. apply orb_true_iff in H as [H|H].
    + apply includes_prefix. by apply (prefix_app_l p (String x s) b).
    + change (String x s +:+ b) with (String x (s +:+ b)). cbn [String_includes].
      rewrite (IH H). apply orb_true_r.
Qed.

Lemma text_of_app (l1 l2 : list string) : text_of (l1 ++ l2) = text_of l1 +:+ text_of l2.
Proof.
  induction l1 as [|x l1 IH]; [done|].
  change (text_of ((x :: l1) ++ l2)) with (x +:+ text_of (l1 ++ l2)).
  change (text_of (x :: l1)) with (x +:+ text_of l1).
  by rewrite IH, string_app_assoc.
Qed.

(** A text that ends one piece and goes on through the next one occurs
    in the whole. *)
Lemma includes_text_of (l1 l2 : list string) (a b y : string) :
  String_includes (text_of (l1 ++ (a +:+ b) :: y :: l2)) (b +:+ y) = true.
Proof.
  rewrite text_of_app. apply includes_app_r.
  change (text_of ((a +:+ b) :: y :: l2)) with ((a +:+ b) +:+ y +:+ text_of l2).
  rewrite string_app_assoc. apply includes_app_r.
  rewrite <- string_app_assoc. apply includes_here.
Qed.

Lemma includes_concat (sep : string) (xs : list string) (x p : string) :
  x ∈ xs → String_includes x p = true → String_includes (String.concat sep xs) p = true.
Proof.
  intros Hin Hp. induction xs as [|y xs IH]; [inversion Hin|].
  apply elem_of_cons in Hin as [<-|Hin].
  - destruct xs as [|z xs]; simpl; [done|]. by apply includes_app_l.
  - destruct xs as [|z xs]; [inversion Hin|].
    change (String.concat sep (y :: z :: xs)) with (y +:+ sep +:+ String.concat sep (z :: xs)).
    apply includes_app_r, includes_app_r. by apply IH.
Qed.

Lemma obj_get_Some_elem {V} k (v : V) o : obj_get k o = Some v → (k, v) ∈ o.
Proof.
  induction o as [|[k' v'] o IH]; simpl; [done|].
  destruct (String.eqb k k') eqn:Heq.
  - apply String.eqb_eq in Heq as ->. intros [= ->]. left.
  - intros H. right. by apply IH.
Qed.

Section TemplateLemmas.
Import NginxTemplate.
Context (PROJECT_CONFIGS : list (string * ProjectConfig)).
Context (toISOString : nat → string).

Lemma location_block_includes p config :
  obj_get p PROJECT_CONFIGS = Some config →
  String_includes (location_block PROJECT_CONFIGS p) ("location " +:+ pc_nginxLocation config)
  = true.
Proof.
  intros Hp. unfold location_block. rewrite Hp.
  apply (includes_text_of [nl; "    # "; pc_name config; nl] _ "    " "location ").
Qed.

Lemma generated_includes_location projectIds serverHost now p config :
  p ∈ projectIds → obj_get p PROJECT_CONFIGS = Some config →
  String_includes (generateNginxConfig PROJECT_CONFIGS toISOString projectIds serverHost now)
    ("location " +:+ pc_nginxLocation config) = true.
Proof.
  intros Hin Hp. unfold generateNginxConfig.
  set (locations := String.concat nl (map (location_block PROJECT_CONFIGS) projectIds)).
  assert (Hloc : String_includes locations ("location " +:+ pc_nginxLocation config) = true).
  { apply (includes_concat nl _ (location_block PROJECT_CONFIGS p)).
    - apply list_elem_of_fmap. by exists p.
    - by apply location_block_includes. }
  match goal with
  | |- String_includes (text_of ?l) _ = true =>
      match l with
      | context C [locations :: ?rest] =>
          let pre := context C [@nil string] in
          change l with (pre ++ locations :: rest)
      end
  end.
  rewrite text_of_app. apply includes_app_r.
  change (text_of (locations :: ?r)) with (locations +:+ text_of r).
  by apply includes_app_l.
Qed.
End TemplateLemmas.

Lemma updateNginxConfig_fulfilled_live env d qs h w :
  is_ok (updateNginxConfig env d qs h w).1 = true →
  live_config (w_nginx (updateNginxConfig env d qs h w).2)
  = Some (generateNginxConfig env qs h (w_clock w)).
Proof.
  unfold updateNginxConfig, backupNginxConfig, validateNginxConfig, restoreBackupConfig,
    reloadNginx.
  munfold. simpl.
  destruct (live_config (w_nginx w)) as [old|]; simpl;
    (destruct (nginx_t env (Some (generateNginxConfig env qs h (w_clock w)))) as [[]|m];
       simpl;
     [ destruct (nginx_reload env (Some (generateNginxConfig env qs h (w_clock w))))
         as [[]|m']; simpl; [done|]
     | ]).
  - by destruct (nginx_reload env (Some old)).
  - by destruct (nginx_reload env (Some old)).
  - destruct (snapshots (w_nginx w)) as [|[name text] rest]; simpl; [done|].
    by destruct (nginx_reload env (Some text)).
  - destruct (snapshots (w_nginx w)) as [|[name text] rest]; simpl; [done|].
    by destruct (nginx_reload env (Some text)).
Qed.

(** X5: when the configuration text is the template of
    [generateNginxConfig], a fulfilled reconfiguration leaves a live file
    in which [getActiveProjects] finds every configured project of the
    deployment: the [location] line it looks for is the one the template
    writes. *)
Theorem reconfigured_projects_are_active
    (env : Env) (PROJECT_CONFIGS : list (string * ProjectConfig)) (toISOString : nat → string)
    (d : string) (qs : list string) (h : string) (w : World)
    (p : string) (config : ProjectConfig) :
  generateNginxConfig env = NginxTemplate.generateNginxConfig PROJECT_CONFIGS toISOString →
  is_ok (updateNginxConfig env d qs h w).1 = true →
  p ∈ qs →
  obj_get p PROJECT_CONFIGS = Some config →
  p ∈ NginxTemplate.getActiveProjects PROJECT_CONFIGS
        (w_nginx (updateNginxConfig env d qs h w).2).
Proof.
  intros Htemplate Hok Hin Hp.
  unfold NginxTemplate.getActiveProjects.
  rewrite (updateNginxConfig_fulfilled_live env d qs h w Hok), Htemplate.
  apply list_elem_of_fmap. exists (p, config). split; [done|].
  apply list_elem_of_filter. split.
  - exact (generated_includes_location PROJECT_CONFIGS toISOString qs h (w_clock w) p config
             Hin Hp).
  - by apply obj_get_Some_elem.
Qed.

Lemma reconfigured_projects_are_active_witness :
  "user-portal"
  ∈ NginxTemplate.getActiveProjects default_projects
      (w_nginx (updateNginxConfig env_template "deploy-1" ["admin-portal"; "user-portal"]
                  "10.0.0.5" world0).2).
Proof.
  apply (reconfigured_projects_are_active env_template default_projects decimal_time
           "deploy-1" ["admin-portal"; "user-portal"] "10.0.0.5" world0 "user-portal"
           (mkProjectConfig "user-portal" "用户门户" "" "main" "/srv/projects/user-portal"
              "npm run build" "dist" "/var/www/user" "/user" (Some 8081%N))).
  - reflexivity.
  - vm_compute. reflexivity.
  - apply (bool_decide_unpack _). vm_compute. exact Logic.I.
  - vm_compute. reflexivity.
Defined.

(** * The Job Store: bounded logs and the flat status layout *)

Lemma take_drop_nil {T} (n k : nat) (l : list T) :
  n = 0 ∨ length l ≤ k → take n (drop k l) = [].
Proof. intros [->|H]; [done|]. rewrite drop_ge by done. apply take_nil. Qed.

Ltac split_comparisons :=
  repeat match goal with
         | |- context [Z.ltb ?a ?b] => destruct (Z.ltb_spec a b)
         | |- context [Z.leb ?a ?b] => destruct (Z.leb_spec a b)
         | |- context [Z.eqb ?a ?b] => destruct (Z.eqb_spec a b)
         end.

Lemma Array_slice_range {T} (start stop : Z) (l : list T) :
  stop ≠ (-1)%Z →
  Array_slice start (Some (stop + 1)%Z) l = RedisCommands.range start stop l.
Proof.
  intros Hstop. unfold Array_slice, RedisCommands.range, RedisCommands.resolve_range.
  set (len := Z.of_nat (length l)).
  assert (Hlen : (0 ≤ len)%Z) by (unfold len; lia).
  assert (Hl : length l = Z.to_nat len) by (unfold len; lia).
  split_comparisons; simpl;
    first [ apply take_drop_nil; lia
          | solve [repeat (f_equal; try lia)] ].
Qed.

Lemma Array_slice_to_end {T} (start : Z) (l : list T) :
  Array_slice start None l = RedisCommands.range start (-1) l.
Proof.
  unfold Array_slice, RedisCommands.range, RedisCommands.resolve_range.
  set (len := Z.of_nat (length l)).
  assert (Hlen : (0 ≤ len)%Z) by (unfold len; lia).
  assert (Hl : length l = Z.to_nat len) by (unfold len; lia).
  split_comparisons; simpl;
    first [ apply take_drop_nil; lia
          | solve [repeat (f_equal; try lia)] ].
Qed.

Lemma Array_slice_to_zero {T} (start : Z) (l : list T) :
  Array_slice start (Some 0%Z) l = [].
Proof.
  unfold Array_slice. split_comparisons; simpl; apply take_drop_nil; lia.
Qed.

Lemma Array_slice_first {T} (n : nat) (l : list T) :
  Array_slice 0 (Some (Z.of_nat n)) l = take n l.
Proof.
  unfold Array_slice. split_comparisons; simpl; try lia.
  replace (Z.to_nat (0 `min` Z.of_nat (length l))) with 0 by lia. rewrite drop_0.
  destruct (decide (n ≤ length l)).
  - f_equal. lia.
  - rewrite !take_ge by lia. done.
Qed.

(** X6: in memory, [lrange] answers what the server answers for every
    pair of offsets, and [ltrim] keeps what the server keeps unless the
    second offset is -1: there the server keeps the list from [start] to
    its end, and the in-memory [ltrim] empties it. *)
Theorem memory_list_commands_against_the_server
    (key : string) (start stop : Z) (storage : Lists) :
  MemoryRedisCommands.lrange key start stop storage
  = RedisCommands.lrange key start stop storage
  ∧ (stop ≠ (-1)%Z →
     default [] (MemoryRedisCommands.ltrim key start stop storage !! key)
     = default [] (RedisCommands.ltrim key start stop storage !! key))
  ∧ (stop = (-1)%Z → is_Some (storage !! key) →
     MemoryRedisCommands.ltrim key start stop storage !! key = Some []
     ∧ default [] (RedisCommands.ltrim key start stop storage !! key)
       = RedisCommands.lrange key start (-1) storage).
Proof.
  split; [|split].
  - unfold MemoryRedisCommands.lrange, RedisCommands.lrange.
    destruct (Z.eqb_spec stop (-1)) as [->|Hne].
    + apply Array_slice_to_end.
    + by apply Array_slice_range.
  - intros Hne. unfold MemoryRedisCommands.ltrim, RedisCommands.ltrim.
    destruct (storage !! key) as [items|] eqn:Hk; [|done].
    rewrite lookup_insert_eq. simpl. rewrite Array_slice_range by done.
    destruct (RedisCommands.range start stop items) as [|x kept] eqn:Hr.
    + by rewrite lookup_delete_eq.
    + by rewrite lookup_insert_eq.
  - intros -> [items Hk]. unfold MemoryRedisCommands.ltrim, RedisCommands.ltrim,
      RedisCommands.lrange.
    rewrite Hk. simpl. rewrite lookup_insert_eq. split.
    + by rewrite Array_slice_to_zero.
    + destruct (RedisCommands.range start (-1) items) as [|x kept] eqn:Hr.
      * by rewrite lookup_delete_eq.
      * by rewrite lookup_insert_eq.
Qed.

Lemma bool_decide_is_Some {A} (o : option A) :
  bool_decide (is_Some o) = match o with Some _ => true | None => false end.
Proof.
  destruct o.
  - apply bool_decide_eq_true_2. by eexists.
  - apply bool_decide_eq_false_2. by intros [? ?].
Qed.

Lemma range_first_hundred {T} (l : list T) : RedisCommands.range 0 99 l = take 100 l.
Proof.
  rewrite <- Array_slice_range by done.
  change (99 + 1)%Z with (Z.of_nat 100). apply Array_slice_first.
Qed.

(** X7: [addDeploymentLog] is never rejected and never touches a hash
    or another list.  Unless a hash sits under the log key, the log of
    the deployment afterwards is its newest hundred entries, newest
    first: the entry just built, then what the log held before, cut
    after the hundredth. *)
Theorem addDeploymentLog_keeps_the_newest_hundred
    (env : Env) (toISOString : nat → string) (JSON_stringify : LogEntry → string)
    (d level message : string) (data : option string) (w : World) :
  (addDeploymentLog env toISOString JSON_stringify d level message data w).1 = Ok tt
  ∧ w_hashes (addDeploymentLog env toISOString JSON_stringify d level message data w).2
    = w_hashes w
  ∧ (∀ k, k ≠ logsKey d →
       w_lists (addDeploymentLog env toISOString JSON_stringify d level message data w).2 !! k
       = w_lists w !! k)
  ∧ (w_hashes w !! logsKey d = None →
       w_lists (addDeploymentLog env toISOString JSON_stringify d level message data w).2
         !! logsKey d
       = Some (take 100
                 (JSON_stringify (mkLogEntry (toISOString (w_clock w)) level message data)
                    :: default [] (w_lists w !! logsKey d)))).
Proof.
  unfold addDeploymentLog, redis_lpush, redis_ltrim, list_command, redis_expire,
    get_lists, put_lists.
  munfold. simpl.
  set (entry := JSON_stringify _).
  destruct (REDIS_ENABLED env); rewrite !bool_decide_is_Some;
    destruct (w_hashes w !! logsKey d) as [h|] eqn:Hh; simpl.
  - repeat split; done.
  - rewrite Hh. simpl. unfold RedisCommands.ltrim, RedisCommands.lpush.
    rewrite lookup_insert_eq, range_first_hundred. simpl.
    repeat split; try done.
    + intros k Hk. by rewrite insert_insert_eq, lookup_insert_ne.
    + intros _. by rewrite insert_insert_eq, lookup_insert_eq.
  - destruct (w_lists w !! logsKey d) as [old|] eqn:Hl; simpl.
    + rewrite Hh. simpl. unfold MemoryRedisCommands.ltrim, MemoryRedisCommands.lpush.
      rewrite !bool_decide_is_Some, !lookup_insert_eq. simpl.
      repeat split; try done.
      intros k Hk. by rewrite insert_insert_eq, lookup_insert_ne.
    + repeat split; try done.
  - rewrite Hh. simpl. unfold MemoryRedisCommands.ltrim, MemoryRedisCommands.lpush.
    rewrite lookup_insert_eq.
    change (99 + 1)%Z with (Z.of_nat 100). rewrite Array_slice_first.
    repeat split; try done.
    + intros k Hk. by rewrite insert_insert_eq, lookup_insert_ne.
    + intros _. by rewrite insert_insert_eq, lookup_insert_eq.
Qed.

Section LegacyStatusRuns.
Context (env : Env) (toISOString : nat → string).

(** Both backends merge the fields of the object into the stored hash. *)
Lemma hset_object_backends key data h :
  (if REDIS_ENABLED env then RedisCommands.hset_object key data h
   else MemoryRedisCommands.hset_object key data h)
  = <[key := foldl (λ t kv, <[kv.1 := kv.2]> t) (default ∅ (h !! key)) data]> h.
Proof. by destruct (REDIS_ENABLED env). Qed.

Lemma exists_backends key h l :
  (if REDIS_ENABLED env then RedisCommands.exists_ key h l
   else MemoryRedisCommands.exists_ key h l)
  = match h !! key, l !! key with None, None => false | _, _ => true end.
Proof.
  assert (H : bool_decide (is_Some (h !! key) ∨ is_Some (l !! key))
              = match h !! key, l !! key with None, None => false | _, _ => true end).
  { destruct (h !! key) eqn:Hh, (l !! key) eqn:Hl.
    - apply bool_decide_eq_true_2. left. by eexists.
    - apply bool_decide_eq_true_2. left. by eexists.
    - apply bool_decide_eq_true_2. right. by eexists.
    - apply bool_decide_eq_false_2. intros [[? ?]|[? ?]]; done. }
  by destruct (REDIS_ENABLED env).
Qed.

Lemma redis_exists_run key w :
  redis_exists env key w
  = (Ok (match w_hashes w !! key, w_lists w !! key with None, None => false | _, _ => true end),
     w).
Proof. unfold redis_exists, get_lists. munfold. by rewrite exists_backends. Qed.

Lemma redis_hset_object_run key data w :
  w_lists w !! key = None →
  redis_hset_object env key data w
  = (Ok tt,
     mkWorld (<[key := foldl (λ t kv, <[kv.1 := kv.2]> t) (default ∅ (w_hashes w !! key)) data]>
                (w_hashes w))
       (w_lists w) (w_nginx w) (w_clock w) (w_trace w)).
Proof.
  intros Hl. unfold redis_hset_object, get_lists. munfold.
  rewrite bool_decide_is_Some, Hl.
  unfold RedisCommands.hset_object, MemoryRedisCommands.hset_object.
  by destruct (REDIS_ENABLED env).
Qed.

(** The object [updateDeploymentStatus] hands to [hset]. *)
Lemma updateDeploymentStatus_run d s m p e w :
  w_lists w !! statusKey d = None →
  ∃ h' c,
    updateDeploymentStatus env toISOString d s m p e w
    = (Ok tt, mkWorld (<[statusKey d := h']> (w_hashes w)) (w_lists w) (w_nginx w) c
                (w_trace w))
    ∧ h' !! "status" = Some (VStr s)
    ∧ h' !! "currentStep" = Some (VStr m)
    ∧ h' !! "updatedAt" = Some (VStr (toISOString (w_clock w)))
    ∧ (∀ n, p = Some n → h' !! "progress" = Some (VStr (index_key n)))
    ∧ h' !! "startTime"
      = match w_hashes w !! statusKey d with
        | Some h => h !! "startTime"
        | None => Some (VStr (toISOString (S (w_clock w))))
        end
    ∧ h' !! "estimatedCompletion"
      = match w_hashes w !! statusKey d with
        | Some h => h !! "estimatedCompletion"
        | None => Some (VStr (toISOString (S (S (w_clock w)) + estimatedDuration)))
        end
    ∧ h' !! "data" = w_hashes w !! statusKey d ≫= (λ h, h !! "data").
Proof.
  intros Hl.
  unfold updateDeploymentStatus, redis_expire.
  unfold try_catch, mbind, M_bind, Date_now. rewrite redis_exists_run. cbn [w_hashes w_lists].
  rewrite Hl.
  destruct (w_hashes w !! statusKey d) as [h|] eqn:Hh.
  - unfold mret, M_ret. rewrite redis_hset_object_run by exact Hl.
    cbn [w_hashes w_lists w_nginx w_clock w_trace]. rewrite Hh.
    eexists _, _. split; [reflexivity|].
    destruct p as [n|]; destruct e as [t|]; try destruct (String.eqb t "");
      cbn [obj_set foldl fst snd default String.eqb Ascii.eqb Bool.eqb];
      repeat split; try (intros ? [= <-]); try done;
      repeat (rewrite lookup_insert_ne by done); first [by rewrite lookup_insert_eq|done].
  - unfold mret, M_ret. cbn [w_hashes w_lists w_nginx w_clock w_trace].
    rewrite redis_hset_object_run by exact Hl.
    cbn [w_hashes w_lists w_nginx w_clock w_trace]. rewrite Hh.
    eexists _, _. split; [reflexivity|].
    destruct p as [n|]; destruct e as [t|]; try destruct (String.eqb t "");
      cbn [obj_set foldl fst snd default String.eqb Ascii.eqb Bool.eqb];
      repeat split; try (intros ? [= <-]); try done;
      repeat (rewrite lookup_insert_ne by done); first [by rewrite lookup_insert_eq|done].
Qed.
End LegacyStatusRuns.

(** X8: [updateDeploymentStatus] is never rejected and writes status,
    step and update time into the flat record of the deployment, leaving
    every other key alone.  The start time and the estimated completion
    are written by the call that creates the key (the second clock
    reading, and the third plus eight minutes) and by no later call: on
    a key that exists they, and a [data] field put there by the
    pipeline, stay as they are. *)
Theorem legacy_status_stamps_the_start_once
    (env : Env) (toISOString : nat → string)
    (d s m : string) (p : option nat) (e : option string) (w : World) :
  w_lists w !! statusKey d = None →
  (updateDeploymentStatus env toISOString d s m p e w).1 = Ok tt
  ∧ (∀ k, k ≠ statusKey d →
       w_hashes (updateDeploymentStatus env toISOString d s m p e w).2 !! k = w_hashes w !! k)
  ∧ ∃ h',
      w_hashes (updateDeploymentStatus env toISOString d s m p e w).2 !! statusKey d = Some h'
      ∧ h' !! "status" = Some (VStr s)
      ∧ h' !! "currentStep" = Some (VStr m)
      ∧ h' !! "updatedAt" = Some (VStr (toISOString (w_clock w)))
      ∧ h' !! "startTime"
        = match w_hashes w !! statusKey d with
          | Some h => h !! "startTime"
          | None => Some (VStr (toISOString (S (w_clock w))))
          end
      ∧ h' !! "estimatedCompletion"
        = match w_hashes w !! statusKey d with
          | Some h => h !! "estimatedCompletion"
          | None => Some (VStr (toISOString (S (S (w_clock w)) + estimatedDuration)))
          end
      ∧ h' !! "data" = data_field w d.
Proof.
  intros Hl.
  destruct (updateDeploymentStatus_run env toISOString d s m p e w Hl)
    as (h' & c & -> & Hs & Hm & Hu & _ & Hst & He & Hd).
  simpl. split; [done|]. split.
  - intros k Hk. by rewrite lookup_insert_ne.
  - exists h'. rewrite lookup_insert_eq. by repeat split.
Qed.

Lemma legacy_status_stamps_the_start_once_witness :
  (updateDeploymentStatus env_all_ok decimal_time "deploy-0" "uploading" "upload" (Some 70)
     None world_flat).1 = Ok tt
  ∧ (∀ k, k ≠ statusKey "deploy-0" →
       w_hashes (updateDeploymentStatus env_all_ok decimal_time "deploy-0" "uploading" "upload"
                   (Some 70) None world_flat).2 !! k
       = w_hashes world_flat !! k)
  ∧ ∃ h',
      w_hashes (updateDeploymentStatus env_all_ok decimal_time "deploy-0" "uploading" "upload"
                  (Some 70) None world_flat).2 !! statusKey "deploy-0" = Some h'
      ∧ h' !! "status" = Some (VStr "uploading")
      ∧ h' !! "currentStep" = Some (VStr "upload")
      ∧ h' !! "updatedAt" = Some (VStr (decimal_time (w_clock world_flat)))
      ∧ h' !! "startTime"
        = match w_hashes world_flat !! statusKey "deploy-0" with
          | Some h => h !! "startTime"
          | None => Some (VStr (decimal_time (S (w_clock world_flat))))
          end
      ∧ h' !! "estimatedCompletion"
        = match w_hashes world_flat !! statusKey "deploy-0" with
          | Some h => h !! "estimatedCompletion"
          | None =>
              Some (VStr (decimal_time (S (S (w_clock world_flat)) + estimatedDuration)))
          end
      ∧ h' !! "data" = data_field world_flat "deploy-0".
Proof.
  apply (legacy_status_stamps_the_start_once env_all_ok decimal_time "deploy-0" "uploading"
           "upload" (Some 70) None world_flat).
  reflexivity.
Defined.



(** * The deployment history *)

Lemma String_split_piece (a rest : string) :
  no_colon a = true →
  String_split ":" (a +:+ ":" +:+ rest) = a :: String_split ":" rest.
Proof.
  induction a as [|c a IH]; intros Ha.
  - reflexivity.
  - simpl in Ha. apply andb_true_iff in Ha as [Hc Ha].
    change (String c a +:+ ":" +:+ rest) with (String c (a +:+ ":" +:+ rest)).
    cbn [String_split]. apply negb_true_iff in Hc. rewrite Hc.
    by rewrite (IH Ha).
Qed.

(** The id of a deployment is read back from its status key, provided
    the id holds no colon. *)
Lemma id_of_statusKey (d : string) :
  no_colon d = true → DeploymentHistory.id_of_key (statusKey d) = d.
Proof.
  intros Hd. unfold DeploymentHistory.id_of_key, statusKey.
  change ("deployment:" +:+ d +:+ ":status")
    with ("deployment" +:+ ":" +:+ d +:+ ":" +:+ "status").
  rewrite (String_split_piece "deployment") by reflexivity.
  by rewrite (String_split_piece d) by done.
Qed.

Lemma Array_slice_elem {T} (start end_ : Z) (l : list T) (i : nat) (x : T) :
  l !! i = Some x → (0 ≤ start ≤ Z.of_nat i)%Z → (Z.of_nat i < end_)%Z →
  x ∈ Array_slice start (Some end_) l.
Proof.
  intros Hi Hstart Hend. pose proof (lookup_lt_Some _ _ _ Hi) as Hlt.
  unfold Array_slice. cbv zeta beta.
  destruct (Z.ltb_spec start 0); [lia|]. destruct (Z.ltb_spec end_ 0); [lia|].
  set (k := Z.to_nat (start `min` Z.of_nat (length l))).
  set (n := Z.to_nat (end_ `min` Z.of_nat (length l) - start `min` Z.of_nat (length l))).
  assert (Hk : k ≤ i) by (unfold k; lia).
  assert (Hn : i - k < n) by (unfold n, k; lia).
  apply (list_elem_of_lookup_2 _ (i - k)).
  rewrite lookup_take_lt by exact Hn. rewrite lookup_drop.
  replace (k + (i - k)) with i by lia. exact Hi.
Qed.

Lemma Array_slice_subset {T} (start : Z) (end_ : option Z) (l : list T) (x : T) :
  x ∈ Array_slice start end_ l → x ∈ l.
Proof.
  unfold Array_slice. intros H.
  apply elem_of_take in H as (i & Hi & _). rewrite lookup_drop in Hi.
  by apply list_elem_of_lookup_2 in Hi.
Qed.

Lemma Array_slice_length {T} (start len : Z) (l : list T) :
  (0 ≤ len)%Z → (Z.of_nat (length (Array_slice start (Some (start + len)%Z) l)) ≤ len)%Z.
Proof.
  intros Hlen. unfold Array_slice. cbv zeta beta. rewrite length_take, length_drop.
  split_comparisons; lia.
Qed.

Lemma length_omap {A B} (f : A → option B) (l : list A) : length (omap f l) ≤ length l.
Proof.
  induction l as [|x l IH]; [done|].
  change (omap f (x :: l)) with (match f x with Some y => y :: omap f l | None => omap f l end).
  destruct (f x); simpl; lia.
Qed.

(** X10: the history counts every key it was given as [total]; every
    deployment it lists comes from one of those keys, carries the fields
    stored under the status key of its id, and has a non-empty [status]
    field there; and with a limit that is not negative (a limit of 0 or
    NaN counts as 50) it lists no more deployments than the limit. *)
Theorem history_page_is_sound
    (redis_enabled : bool) (keys : list string)
    (sort : list DeploymentHistory.Entry → list DeploymentHistory.Entry)
    (limit offset : option Z) (w : World) :
  (∀ l, sort l ≡ₚ l) →
  DeploymentHistory.total
    (DeploymentHistory.getDeploymentHistory redis_enabled keys sort limit offset w)
  = length keys
  ∧ (∀ entry,
       entry ∈ DeploymentHistory.deployments
                 (DeploymentHistory.getDeploymentHistory redis_enabled keys sort limit offset w) →
       DeploymentHistory.deploymentId entry ∈ DeploymentHistory.id_of_key <$> keys
       ∧ DeploymentHistory.statusData entry
         = default ∅ (w_hashes w !! statusKey (DeploymentHistory.deploymentId entry))
       ∧ truthy (DeploymentHistory.statusData entry !! "status") = true)
  ∧ ((0 ≤ DeploymentHistory.or_number limit 50)%Z →
     (Z.of_nat (length (DeploymentHistory.deployments
                          (DeploymentHistory.getDeploymentHistory redis_enabled keys sort
                             limit offset w)))
      ≤ DeploymentHistory.or_number limit 50)%Z).
Proof.
  intros Hsort. unfold DeploymentHistory.getDeploymentHistory. simpl.
  split; [by rewrite length_map|]. split.
  - intros entry Hin. rewrite Hsort in Hin.
    apply list_elem_of_omap in Hin as (id & Hid & Hentry).
    apply Array_slice_subset in Hid.
    destruct (truthy _) eqn:Htruthy; [|done]. injection Hentry as <-. simpl.
    split; [exact Hid|]. split; [|exact Htruthy].
    unfold Redis.hgetall, MemoryRedis.hgetall. by destruct redis_enabled.
  - intros Hlimit. rewrite Hsort.
    pose proof (Array_slice_length (DeploymentHistory.or_number offset 0)
                  (DeploymentHistory.or_number limit 50)
                  (map DeploymentHistory.id_of_key keys) Hlimit) as Hpage.
    match goal with |- context [omap ?f ?l] => pose proof (length_omap f l) end.
    lia.
Qed.

Lemma history_page_is_sound_witness :
  DeploymentHistory.total
    (DeploymentHistory.getDeploymentHistory true [statusKey "deploy-0"] id (Some 10%Z) None
       world_flat)
  = length [statusKey "deploy-0"]
  ∧ (∀ entry,
       entry ∈ DeploymentHistory.deployments
                 (DeploymentHistory.getDeploymentHistory true [statusKey "deploy-0"] id
                    (Some 10%Z) None world_flat) →
       DeploymentHistory.deploymentId entry
       ∈ DeploymentHistory.id_of_key <$> [statusKey "deploy-0"]
       ∧ DeploymentHistory.statusData entry
         = default ∅ (w_hashes world_flat !! statusKey (DeploymentHistory.deploymentId entry))
       ∧ truthy (DeploymentHistory.statusData entry !! "status") = true)
  ∧ ((0 ≤ DeploymentHistory.or_number (Some 10%Z) 50)%Z →
     (Z.of_nat (length (DeploymentHistory.deployments
                          (DeploymentHistory.getDeploymentHistory true [statusKey "deploy-0"]
                             id (Some 10%Z) None world_flat)))
      ≤ DeploymentHistory.or_number (Some 10%Z) 50)%Z).
Proof.
  apply (history_page_is_sound true [statusKey "deploy-0"] id (Some 10%Z) None world_flat).
  intros l. reflexivity.
Defined.



(** * What the pipeline leaves alone *)

Section Preservation.
Context (I : World → Prop).

Lemma pres_bind {A B} (c : M A) (f : A → M B) :
  preserves I c → (∀ a, preserves I (f a)) → preserves I (c ≫= f).
Proof. intros Hc Hf. eapply hoare_bind; [exact Hc|exact Hf]. Qed.

Lemma pres_try_catch {A} (body : M A) handler :
  preserves I body → (∀ e, preserves I (handler e)) → preserves I (try_catch body handler).
Proof. intros Hc Hf. eapply hoare_try_catch; [exact Hc|exact Hf]. Qed.

Lemma pres_ret {A} (a : A) : preserves I (mret a).
Proof. intros w Hw. exact Hw. Qed.

Lemma pres_throw {A} e : preserves I (throw (A:=A) e).
Proof. intros w Hw. exact Hw. Qed.

Lemma pres_await {A} (r : Result A) : preserves I (await r).
Proof. intros w Hw. unfold await. by destruct r. Qed.

Lemma pres_unawaited (c : M unit) : preserves I c → preserves I (unawaited c).
Proof. intros Hc. by apply hoare_unawaited. Qed.

Lemma pres_for_of {X} (xs : list X) (body : X → M unit) :
  (∀ x, preserves I (body x)) → preserves I (for_of xs body).
Proof.
  intros Hbody. apply (hoare_for_of xs body (λ _, I) (λ _, I)).
  intros done x _. apply Hbody.
Qed.

Lemma pres_Promise_all {X} (xs : list X) (chain : X → M unit) :
  (∀ x, preserves I (chain x)) → preserves I (Promise_all (map chain xs)).
Proof.
  intros Hchain. eapply hoare_conseq.
  - apply (hoare_Promise_all xs chain (λ _, I) (λ _, True)).
    intros done x _. eapply hoare_conseq; [apply (Hchain x)| | |]; simpl; auto.
  - auto.
  - simpl. intros _ w [Hw _]. exact Hw.
  - auto.
Qed.
End Preservation.

Section PipelineFrame.
Context (env : Env) (d : string) (w0 : World).

Lemma same_fields_store w w' :
  w_hashes w' = w_hashes w → w_lists w' = w_lists w → (same_fields env d w0) w → (same_fields env d w0) w'.
Proof.
  intros Hh Hl [Hf Hlists]. split.
  - intros k f Hkf. unfold field_of. rewrite Hh. by apply Hf.
  - by rewrite Hl.
Qed.

Lemma pres_store_frame {A} P (c : M A) : store_frame P c → preserves (same_fields env d w0) c.
Proof.
  intros Hc w Hw. destruct (Hc w) as (Hh & Hl & _).
  assert ((same_fields env d w0) (c w).2) by (by apply (same_fields_store w)).
  by destruct (c w) as [[a|e] w'].
Qed.

Lemma assign_chars_data_other (target : gmap string Val) f :
  f ∉ ["0"; "1"; "2"; "3"] → assign_chars 0 "data" target !! f = target !! f.
Proof.
  intros Hf. simpl.
  rewrite !lookup_insert_ne; [done|..];
    intros <-; apply Hf; repeat first [left|right].
Qed.

Lemma pres_hset_data key st :
  key = statusKey d → preserves (same_fields env d w0) (redis_hset_data env key st).
Proof.
  intros -> w [Hf Hl]. unfold redis_hset_data. munfold. split; [|exact Hl].
  intros k f Hkf. rewrite <- (Hf k f Hkf). unfold field_of. simpl.
  destruct (decide (k = statusKey d)) as [->|Hk].
  - destruct Hkf as [Hkf|Hkf]; [done|]. unfold written_fields in Hkf.
    destruct (REDIS_ENABLED env).
    + unfold Redis.hset. rewrite lookup_insert_eq. simpl.
      rewrite lookup_insert_ne by (intros <-; apply Hkf; left).
      by destruct (w_hashes w !! statusKey d).
    + unfold MemoryRedis.hset. rewrite lookup_insert_eq.
      cbn [mbind option_bind]. rewrite assign_chars_data_other by done.
      by destruct (w_hashes w !! statusKey d).
  - destruct (REDIS_ENABLED env); unfold Redis.hset, MemoryRedis.hset;
      by rewrite lookup_insert_ne.
Qed.

Lemma pres_initialize qs : preserves (same_fields env d w0) (initializeDeploymentStatus env d qs).
Proof.
  unfold initializeDeploymentStatus.
  apply pres_bind; [apply (pres_store_frame (λ _, True)), frame_Date_now|intros now].
  apply pres_bind; [by apply pres_hset_data|intros ?].
  unfold redis_expire. apply pres_ret.
Qed.

Lemma pres_updateSingle p s m pr :
  preserves (same_fields env d w0) (updateSingleProjectStatus env d p s m pr).
Proof.
  unfold updateSingleProjectStatus, redis_hgetall, redis_expire.
  apply pres_bind; [apply pres_bind; [by intros w Hw|intros ?; apply pres_ret]|intros h].
  destruct (h !! "data") as [data|]; [|apply pres_ret].
  destruct (truthy (Some data)); [|apply pres_ret].
  apply pres_bind; [apply pres_await|intros st].
  apply pres_bind; [by apply pres_hset_data|intros ?]. apply pres_ret.
Qed.

Lemma pres_updateOverall s m : preserves (same_fields env d w0) (updateOverallStatus env d s m).
Proof.
  unfold updateOverallStatus, redis_hgetall, redis_expire.
  apply pres_bind; [apply pres_bind; [by intros w Hw|intros ?; apply pres_ret]|intros h].
  destruct (h !! "data") as [data|]; [|apply pres_ret].
  destruct (truthy (Some data)); [|apply pres_ret].
  apply pres_bind; [apply pres_await|intros st].
  apply pres_bind.
  { destruct (String.eqb s "completed"); [|apply pres_ret].
    apply pres_bind; [apply (pres_store_frame (λ _, True)), frame_Date_now|intros ?].
    apply pres_ret. }
  intros est.
  apply pres_bind; [by apply pres_hset_data|intros ?].
  apply pres_bind; [apply pres_ret|intros ?].
  apply (pres_store_frame (λ _, True)), frame_emit. exact Logic.I.
Qed.

Lemma pres_updateProjectStatus qs s m : preserves (same_fields env d w0) (updateProjectStatus env d qs s m).
Proof. unfold updateProjectStatus. apply pres_for_of. intros p. apply pres_updateSingle. Qed.

Lemma pres_clone_chain p : preserves (same_fields env d w0) (clone_chain env d p).
Proof.
  unfold clone_chain. apply pres_try_catch.
  - apply pres_bind; [apply (pres_store_frame (λ _, True)); frame_steps|intros ?].
    apply pres_bind; [apply pres_await|intros ?].
    apply pres_updateSingle.
  - intros e. apply pres_bind; [|intros ?; apply pres_throw].
    apply pres_unawaited, pres_updateSingle.
Qed.
End PipelineFrame.

Lemma pipeline_keeps_other_fields (env : Env) (job : MultiProjectJobData) (w0 : World) :
  same_fields env (jd_deploymentId job) w0 (processMultiProjectDeployment env job w0).2.
Proof.
  set (d := jd_deploymentId job).
  assert (Hrun : preserves (same_fields env d w0) (processMultiProjectDeployment env job)).
  { unfold processMultiProjectDeployment. fold d.
    apply pres_try_catch.
    - repeat match goal with
        | |- preserves _ (_ ≫= _) => apply pres_bind; [|intros ?]
        | |- preserves _ (initializeDeploymentStatus _ _ _) => apply pres_initialize
        | |- preserves _ (updateProjectStatus _ _ _ _ _) => apply pres_updateProjectStatus
        | |- preserves _ (updateOverallStatus _ _ _ _) => apply pres_updateOverall
        | |- preserves _ (updateSingleProjectStatus _ _ _ _ _ _) => apply pres_updateSingle
        | |- preserves _ (Promise_all _) =>
            apply pres_Promise_all; intros ?; apply pres_clone_chain
        | |- preserves _ (for_of _ _) => apply pres_for_of; intros ?
        | |- preserves _ (if ?b then _ else _) => destruct b
        | |- preserves _ (buildMultipleProjects _ _ _) =>
            apply (pres_store_frame _ _ _ (λ _, True)), buildMultipleProjects_frame
        | |- preserves _ (updateNginxConfig _ _ _ _) =>
            apply (pres_store_frame _ _ _ is_nginx_event), updateNginxConfig_frame
        | |- preserves _ (cleanupBuild _ _) =>
            apply (pres_store_frame _ _ _ (λ _, True)); unfold cleanupBuild; solve [frame_steps]
        | |- preserves _ (await _) => apply pres_await
        | |- preserves _ (mret _) => apply pres_ret
        | |- preserves _ _ => apply (pres_store_frame _ _ _ (λ _, True)); solve [frame_steps]
        end.
    - intros e.
      apply pres_bind; [apply pres_updateOverall|intros ?].
      apply pres_bind;
        [apply (pres_store_frame _ _ _ (λ _, True)); unfold cleanupOnFailure; frame_steps
        |intros ?].
      apply pres_bind; [apply (pres_store_frame _ _ _ (λ _, True)); frame_steps|intros ?].
      apply pres_throw. }
  assert (H0 : same_fields env d w0 w0) by (by split).
  specialize (Hrun w0 H0).
  by destruct (processMultiProjectDeployment env job w0) as [[a|e] w'].
Qed.

(** X12: whatever the outcome of a run of the pipeline, and on either
    backend, the store differs from the store before the run at most in
    the fields the status reporter writes under the status key of the
    deployment ([data] on the server): every other key, every other
    field of that key (a flat [status] among them) and every log are as
    they were. *)
Theorem pipeline_writes_only_its_own_fields
    (env : Env) (job : MultiProjectJobData) (w0 : World) (k f : string) :
  k ≠ statusKey (jd_deploymentId job) ∨ f ∉ written_fields env →
  field_of (processMultiProjectDeployment env job w0).2 k f = field_of w0 k f
  ∧ w_lists (processMultiProjectDeployment env job w0).2 = w_lists w0.
Proof.
  intros Hkf. destruct (pipeline_keeps_other_fields env job w0) as [Hf Hl].
  split; [by apply Hf|exact Hl].
Qed.

Lemma pipeline_writes_only_its_own_fields_witness :
  field_of (processMultiProjectDeployment env_build_b_fails job_ab world_flat).2
    "deployment:deploy-1:status" "status"
  = field_of world_flat "deployment:deploy-1:status" "status"
  ∧ w_lists (processMultiProjectDeployment env_build_b_fails job_ab world_flat).2
    = w_lists world_flat.
Proof.
  apply (pipeline_writes_only_its_own_fields env_build_b_fails job_ab world_flat
           "deployment:deploy-1:status" "status").
  right. apply (bool_decide_unpack _). vm_compute. exact Logic.I.
Defined.

Lemma hgetall_field (redis_enabled : bool) (w : World) (key f : string) :
  (if redis_enabled then Redis.hgetall key (w_hashes w)
   else MemoryRedis.hgetall key (w_hashes w)) !! f
  = field_of w key f.
Proof.
  unfold Redis.hgetall, MemoryRedis.hgetall, field_of.
  destruct redis_enabled; by destruct (w_hashes w !! key).
Qed.

(** X13: a deployment that has no flat [status] before a run of the
    pipeline is not listed by the history after the run either, whatever
    keys the store answers with and whatever the outcome of the run: the
    pipeline writes no [status] field, and the history lists only
    records that have one. *)
Theorem history_omits_pipeline_deployments
    (env : Env) (job : MultiProjectJobData) (w0 : World) (keys : list string)
    (sort : list DeploymentHistory.Entry → list DeploymentHistory.Entry)
    (limit offset : option Z) (entry : DeploymentHistory.Entry) :
  (∀ l, sort l ≡ₚ l) →
  truthy (field_of w0 (statusKey (jd_deploymentId job)) "status") = false →
  entry ∈ DeploymentHistory.deployments
            (DeploymentHistory.getDeploymentHistory (REDIS_ENABLED env) keys sort limit offset
               (processMultiProjectDeployment env job w0).2) →
  DeploymentHistory.deploymentId entry ≠ jd_deploymentId job.
Proof.
  intros Hsort Hnone Hin Heq.
  unfold DeploymentHistory.getDeploymentHistory in Hin. simpl in Hin. rewrite Hsort in Hin.
  apply list_elem_of_omap in Hin as (id & _ & Hentry).
  rewrite hgetall_field in Hentry.
  match type of Hentry with
  | context [truthy ?x] => destruct (truthy x) eqn:Htruthy; [|done]
  end.
  injection Hentry as <-. simpl in Heq. subst id.
  destruct (pipeline_keeps_other_fields env job w0) as [Hf _].
  rewrite Hf in Htruthy; [congruence|].
  right. unfold written_fields. destruct (REDIS_ENABLED env).
  - apply (bool_decide_unpack _). vm_compute. exact Logic.I.
  - apply (bool_decide_unpack _). vm_compute. exact Logic.I.
Qed.

Lemma history_omits_pipeline_deployments_witness :
  DeploymentHistory.deploymentId
    (DeploymentHistory.mkEntry "deploy-0" {[ "status" := VStr "building" ]})
  ≠ jd_deploymentId job_ab.
Proof.
  apply (history_omits_pipeline_deployments env_build_b_fails job_ab world_flat
           [statusKey "deploy-0"; statusKey "deploy-1"] id None None
           (DeploymentHistory.mkEntry "deploy-0" {[ "status" := VStr "building" ]})).
  - intros l. reflexivity.
  - vm_compute. reflexivity.
  - vm_compute. apply list_elem_of_here.
Defined.

(** * The in-process queue: what its states look like *)

Section QueueInvariant.
Import MemoryQueue.

Lemma status_of_set_status_ne h r r' s :
  r ≠ r' → status_of (set_status r s h) r' = status_of h r'.
Proof.
  intros Hne. unfold status_of, set_status.
  destruct (h !! r) as [j|]; [|done]. by rewrite list_lookup_insert_ne.
Qed.

Lemma status_of_set_status h r r' s s' :
  status_of (set_status r s h) r' = Some s' → s' = s ∨ status_of h r' = Some s'.
Proof.
  destruct (decide (r = r')) as [<-|Hne].
  - unfold status_of, set_status. destruct (h !! r) as [j|] eqn:Hj.
    + pose proof (lookup_lt_Some _ _ _ Hj).
      rewrite list_lookup_insert_eq by done. simpl. intros [= <-]. by left.
    + rewrite Hj. done.
  - rewrite status_of_set_status_ne by done. by right.
Qed.

Lemma exclusive_single q i r rest :
  exclusive q → loops q !! i = Some (r, rest) → i = 0 ∧ loops q = [(r, rest)].
Proof.
  intros [_ Hone] Hi. destruct (loops q) as [|l0 [|l1 ls]]; simpl in *; [done| |lia].
  destruct i; [|done]. by injection Hi as ->.
Qed.

Lemma job_states_outcome (b : bool) : (if b then "completed" else "failed") ∈ job_states.
Proof. unfold job_states. destruct b; repeat first [left|right]. Qed.

Lemma next_job_queue_inv rest q :
  loops q = [] →
  (∀ r s, status_of (heap q) r = Some s → s ∈ job_states) →
  (∀ r, status_of (heap q) r = Some "active" → False) →
  Forall (λ x, x < length (heap q)) rest →
  queue_inv (next_job rest q).
Proof.
  intros Hl Hst Hact Hb. destruct rest as [|r rest]; simpl.
  - split; [|split]; simpl.
    + exact Hst.
    + intros r Hr. by destruct (Hact r Hr).
    + intros r rest. rewrite Hl. intros H. inversion H.
  - apply Forall_cons in Hb as [Hr Hb]. split; [|split]; simpl.
    + intros r' s Hs. apply status_of_set_status in Hs as [->|Hs].
      * unfold job_states. right. left.
      * by apply (Hst r').
    + intros r' Hr'. rewrite Hl. simpl. destruct (decide (r = r')) as [<-|Hne].
      * by exists rest.
      * rewrite status_of_set_status_ne in Hr' by done. by destruct (Hact r' Hr').
    + intros r' rest'. rewrite Hl. simpl. intros Hin.
      apply list_elem_of_singleton in Hin as [= -> ->].
      rewrite set_status_length. by split.
Qed.

Lemma step_queue_inv q l : wf q → exclusive q → queue_inv q → queue_inv (step q l).
Proof.
  intros [Hwf Hnd] Hex Hinv. pose proof Hinv as (Hst & Hact & Hb).
  destruct l as [data opts now| |i ok]; simpl.
  - (* add *)
    split; [|split]; simpl.
    + intros r s. unfold status_of. intros Hs.
      destruct (decide (r < length (heap q))) as [Hr|Hr].
      * rewrite lookup_app_l in Hs by done. by apply (Hst r).
      * destruct (decide (r = length (heap q))) as [->|Hne].
        -- rewrite list_lookup_middle in Hs by done. simpl in Hs. injection Hs as <-.
           unfold job_states. left.
        -- rewrite lookup_ge_None_2 in Hs; [done|]. rewrite length_app. simpl. lia.
    + intros r. unfold status_of. intros Hs. apply Hact. unfold status_of.
      destruct (decide (r < length (heap q))) as [Hr|Hr].
      * by rewrite lookup_app_l in Hs.
      * destruct (decide (r = length (heap q))) as [->|Hne].
        -- rewrite list_lookup_middle in Hs by done. done.
        -- rewrite lookup_ge_None_2 in Hs; [done|]. rewrite length_app. simpl. lia.
    + intros r rest Hin. destruct (Hb r rest Hin) as [Hr Hrest].
      rewrite length_app. split; [lia|].
      eapply Forall_impl; [exact Hrest|]. simpl. intros; lia.
  - (* a scheduled call of processJobs fires *)
    destruct (immediates q) as [|n]; [exact Hinv|].
    unfold processJobs. simpl. destruct (processing q) eqn:Hp; [exact Hinv|].
    destruct Hex as [Hidle _]. specialize (Hidle Hp).
    apply next_job_queue_inv; simpl.
    + exact Hidle.
    + exact Hst.
    + intros r Hr. destruct (Hact r Hr) as [rest Hl]. by rewrite Hidle in Hl.
    + apply Forall_forall. intros r Hr. unfold getWaiting in Hr.
      apply list_elem_of_filter in Hr as [_ Hr]. by apply Hwf.
  - (* a handler settles *)
    unfold settle. destruct (loops q !! i) as [[r rest]|] eqn:Hi; [|exact Hinv].
    destruct (exclusive_single q i r rest Hex Hi) as [-> Hl].
    destruct (Hb r rest) as [Hr Hrest]; [rewrite Hl; left|].
    apply next_job_queue_inv; simpl.
    + by rewrite Hl.
    + intros r' s Hs. apply status_of_set_status in Hs as [->|Hs].
      * apply job_states_outcome.
      * by apply (Hst r').
    + intros r' Hr'. destruct (decide (r = r')) as [<-|Hne].
      * rewrite set_status_status in Hr' by done. by destruct ok.
      * rewrite status_of_set_status_ne in Hr' by done.
        destruct (Hact r' Hr') as [rest' Hl']. rewrite Hl in Hl'. by injection Hl' as ->.
    + by rewrite set_status_length.
Qed.

Lemma run_queue_inv ls : queue_inv (run ls).
Proof.
  unfold run.
  cut (∀ q, wf q → exclusive q → queue_inv q → queue_inv (foldl step q ls)).
  { intros H. apply H.
    - split; simpl; [intros r Hr; inversion Hr | constructor].
    - split; [done|simpl; lia].
    - split; [|split]; simpl.
      + intros r s. unfold status_of. by rewrite lookup_nil.
      + intros r. unfold status_of. by rewrite lookup_nil.
      + intros r rest H'. inversion H'. }
  induction ls as [|l ls IH]; intros q Hwf Hex Hinv; simpl; [done|].
  apply IH; [by apply step_wf|by apply step_exclusive|by apply step_queue_inv].
Qed.
End QueueInvariant.

Lemma count_by_state (f : nat → option string) (l : list nat) :
  (∀ x, x ∈ l → ∃ s, f x = Some s ∧ s ∈ job_states) →
  length (filter (λ x, f x = Some "waiting") l)
  + length (filter (λ x, f x = Some "active") l)
  + length (filter (λ x, f x = Some "completed") l)
  + length (filter (λ x, f x = Some "failed") l)
  = length l.
Proof.
  induction l as [|x l IH]; intros Hall; [done|].
  assert (IH' := IH (λ y Hy, Hall y (list_elem_of_further _ _ _ Hy))).
  destruct (Hall x (list_elem_of_here _ _)) as (s & Hs & Hin).
  rewrite !filter_cons, Hs.
  unfold job_states in Hin.
  repeat (apply elem_of_cons in Hin as [->|Hin]);
    [ | | | | inversion Hin];
    repeat case_decide; try congruence; simpl; lia.
Qed.

(** X14: in every state the in-process queue reaches, at most one job
    of the map is active, and none when no pass is under way.
    [getQueueStatus] answers with counts only when no job is active, and
    then the waiting, completed and failed jobs add up to the jobs of the
    map; while a job of the map is active it answers 500: the active jobs
    are plain job objects, and [job.progress()] throws. *)
Theorem queue_status_of_the_memory_queue (ls : list MemoryQueue.Label) :
  length (MemoryQueue.getActive (MemoryQueue.run ls)) ≤ 1
  ∧ (MemoryQueue.processing (MemoryQueue.run ls) = false →
     MemoryQueue.getActive (MemoryQueue.run ls) = [])
  ∧ (MemoryQueue.getActive (MemoryQueue.run ls) = [] →
     ∃ waiting completed failed,
       QueueStatus.getQueueStatus (MemoryQueue.run ls)
       = QueueStatus.Counts waiting 0 completed failed []
       ∧ waiting + completed + failed = length (MemoryQueue.jobs (MemoryQueue.run ls)))
  ∧ (MemoryQueue.getActive (MemoryQueue.run ls) ≠ [] →
     ∃ message, QueueStatus.getQueueStatus (MemoryQueue.run ls)
                = QueueStatus.InternalError message).
Proof.
  pose proof (run_wf ls) as [Hwf Hnd].
  pose proof (run_exclusive ls) as [Hidle Hone].
  pose proof (run_queue_inv ls) as (Hst & Hact & _).
  set (q := MemoryQueue.run ls) in *.
  assert (Hheads : ∀ r, r ∈ MemoryQueue.getActive q → ∃ rest, MemoryQueue.loops q = [(r, rest)]).
  { intros r Hr. unfold MemoryQueue.getActive in Hr.
    apply list_elem_of_filter in Hr as [Hr _]. by apply Hact. }
  assert (Hndact : NoDup (MemoryQueue.getActive q)).
  { unfold MemoryQueue.getActive. by apply NoDup_filter. }
  split; [|split; [|split]].
  - destruct (MemoryQueue.getActive q) as [|r1 [|r2 rs]]; simpl; [lia|lia|].
    exfalso. destruct (Hheads r1) as [rest1 H1]; [left|].
    destruct (Hheads r2) as [rest2 H2]; [right; left|].
    rewrite H1 in H2. injection H2 as -> _.
    apply NoDup_cons in Hndact as [Hn _]. apply Hn. left.
  - intros Hp. destruct (MemoryQueue.getActive q) as [|r rs] eqn:Ha; [done|].
    destruct (Hheads r) as [rest Hl]; [left|]. by rewrite (Hidle Hp) in Hl.
  - intros Ha. unfold QueueStatus.getQueueStatus. rewrite Ha. simpl.
    eexists _, _, _. split; [reflexivity|].
    pose proof (count_by_state (MemoryQueue.status_of (MemoryQueue.heap q))
                  ((MemoryQueue.jobs q).*2)) as Hcount.
    unfold MemoryQueue.getWaiting, QueueStatus.getCompleted, QueueStatus.getFailed.
    unfold MemoryQueue.getActive in Ha. rewrite Ha in Hcount. simpl in Hcount.
    rewrite length_fmap in Hcount. rewrite <- Hcount; [lia|].
    intros r Hr. specialize (Hwf r Hr).
    destruct (MemoryQueue.heap q !! r) as [j|] eqn:Hj.
    + exists (MemoryQueue.status j). unfold MemoryQueue.status_of. rewrite Hj. split; [done|].
      apply (Hst r). unfold MemoryQueue.status_of. by rewrite Hj.
    + apply lookup_ge_None in Hj. lia.
  - intros Ha. unfold QueueStatus.getQueueStatus.
    destruct (MemoryQueue.getActive q); [done|]. by eexists.
Qed.

(** ** A job added while a pass is under way *)

Section LatePush.
Import MemoryQueue.

(** While a pass is under way, the scheduled calls of [processJobs]
    return at once. *)
Lemma immediates_during_a_pass n : ∀ q,
  processing q = true → immediates q = n →
  foldl step q (replicate n Immediate)
  = mkState (heap q) (jobs q) (processing q) (loops q) 0 (started q) (emitted q).
Proof.
  induction n as [|n IH]; intros q Hp Hn; simpl.
  - destruct q. simpl in *. by subst.
  - rewrite Hn. unfold processJobs. simpl. rewrite Hp.
    rewrite IH by done. done.
Qed.

Lemma settle_head q r rest ok :
  loops q = [(r, rest)] →
  step q (Settle 0 ok)
  = next_job rest
      (mkState (set_status r (if ok then "completed" else "failed") (heap q)) (jobs q)
         (processing q) [] (immediates q) (started q)
         ((if ok then "completed" else "failed", id_of (heap q) r) :: emitted q)).
Proof. intros Hl. simpl. unfold settle. by rewrite Hl. Qed.

(** The rest of a pass leaves every job object alone that the pass does
    not hold. *)
Lemma rest_of_a_pass rest : ∀ r outcomes q r',
  loops q = [(r, rest)] → length outcomes = S (length rest) →
  r' ∉ r :: rest →
  loops (foldl step q (Settle 0 <$> outcomes)) = []
  ∧ processing (foldl step q (Settle 0 <$> outcomes)) = false
  ∧ heap (foldl step q (Settle 0 <$> outcomes)) !! r' = heap q !! r'
  ∧ jobs (foldl step q (Settle 0 <$> outcomes)) = jobs q
  ∧ immediates (foldl step q (Settle 0 <$> outcomes)) = immediates q.
Proof.
  induction rest as [|r2 rest IH]; intros r outcomes q r' Hl Hlen Hr';
    (destruct outcomes as [|ok outcomes]; [done|]);
    change (foldl step q (Settle 0 <$> ok :: outcomes))
      with (foldl step (step q (Settle 0 ok)) (Settle 0 <$> outcomes));
    rewrite (settle_head q r _ ok Hl);
    apply not_elem_of_cons in Hr' as [Hne Hr'].
  - destruct outcomes; [|done]. simpl.
    repeat split; try done. by rewrite set_status_lookup_ne.
  - simpl in Hlen. simpl next_job.
    set (q2 := mkState _ _ _ _ _ _ _).
    destruct (IH r2 outcomes q2 r') as (H1 & H2 & H3 & H4 & H5);
      [done|lia|done|].
    rewrite H1, H2, H3, H4, H5. repeat split; try done.
    unfold q2. simpl. apply not_elem_of_cons in Hr' as [Hne2 _].
    by rewrite !set_status_lookup_ne.
Qed.
End LatePush.

(** X15: a job added while a pass is under way is not run by that pass,
    and the [processJobs] call its own [add] scheduled returns at once
    when it fires before the pass ends.  Once the pass has ended the job
    is still 'waiting', no call is scheduled and none is running: until
    some later [add], nothing the queue does will ever start it. *)
Theorem job_added_during_a_pass_is_left_waiting
    (ls : list MemoryQueue.Label) (data : MemoryQueue.Payload) (opts : MemoryQueue.JobOptions)
    (now : nat) (outcomes : list bool) (r : nat) (rest : list nat) :
  MemoryQueue.loops (MemoryQueue.run ls) = [(r, rest)] →
  length outcomes = S (length rest) →
  MemoryQueue.getJob (MemoryQueue.job_id data now)
    (MemoryQueue.run
       (ls ++ [MemoryQueue.Add data opts now]
           ++ replicate (S (MemoryQueue.immediates (MemoryQueue.run ls))) MemoryQueue.Immediate
           ++ (MemoryQueue.Settle 0 <$> outcomes)))
  = Some (MemoryQueue.mkJob (MemoryQueue.job_id data now) data opts "waiting" 0 now)
  ∧ (∀ l, not_an_add l →
       MemoryQueue.step
         (MemoryQueue.run
            (ls ++ [MemoryQueue.Add data opts now]
                ++ replicate (S (MemoryQueue.immediates (MemoryQueue.run ls)))
                     MemoryQueue.Immediate
                ++ (MemoryQueue.Settle 0 <$> outcomes))) l
       = MemoryQueue.run
           (ls ++ [MemoryQueue.Add data opts now]
               ++ replicate (S (MemoryQueue.immediates (MemoryQueue.run ls)))
                    MemoryQueue.Immediate
               ++ (MemoryQueue.Settle 0 <$> outcomes))).
Proof.
  intros Hl Hlen.
  pose proof (run_exclusive ls) as [Hidle _].
  pose proof (run_queue_inv ls) as (_ & _ & Hb).
  unfold MemoryQueue.run in *. rewrite !foldl_app.
  set (q := foldl MemoryQueue.step MemoryQueue.empty ls) in *.
  assert (Hp : MemoryQueue.processing q = true).
  { destruct (MemoryQueue.processing q); [done|]. by rewrite Hidle in Hl. }
  destruct (Hb r rest) as [Hr Hrest]; [rewrite Hl; left|].
  simpl foldl at 3 6 9.
  set (q1 := MemoryQueue.add data opts now q).
  rewrite (immediates_during_a_pass (S (MemoryQueue.immediates q)) q1) by done.
  set (q2 := MemoryQueue.mkState _ _ _ _ 0 _ _).
  destruct (rest_of_a_pass rest r outcomes q2 (length (MemoryQueue.heap q)))
    as (H1 & H2 & H3 & H4 & H5); [done|done| |].
  { rewrite Forall_forall in Hrest. intros Hin.
    apply elem_of_cons in Hin as [Hin|Hin]; [lia|]. specialize (Hrest _ Hin). lia. }
  split.
  - unfold MemoryQueue.getJob. rewrite H4. simpl. rewrite obj_get_set_eq. simpl.
    rewrite H3. simpl. by rewrite list_lookup_middle.
  - intros [data' opts' now'| |i ok] Hna; [done| |]; simpl.
    + by rewrite H5.
    + unfold MemoryQueue.settle. by rewrite H1.
Qed.

Lemma job_added_during_a_pass_is_left_waiting_witness :
  MemoryQueue.getJob
    (MemoryQueue.job_id (MemoryQueue.mkPayload (Some "deploy-2") "main") 1001)
    (MemoryQueue.run
       (pass_under_way
          ++ [MemoryQueue.Add (MemoryQueue.mkPayload (Some "deploy-2") "main")
                (MemoryQueue.mkOptions 5 3) 1001]
          ++ replicate (S (MemoryQueue.immediates (MemoryQueue.run pass_under_way)))
               MemoryQueue.Immediate
          ++ (MemoryQueue.Settle 0 <$> [true])))
  = Some (MemoryQueue.mkJob
            (MemoryQueue.job_id (MemoryQueue.mkPayload (Some "deploy-2") "main") 1001)
            (MemoryQueue.mkPayload (Some "deploy-2") "main") (MemoryQueue.mkOptions 5 3)
            "waiting" 0 1001)
  ∧ (∀ l, not_an_add l →
       MemoryQueue.step
         (MemoryQueue.run
            (pass_under_way
               ++ [MemoryQueue.Add (MemoryQueue.mkPayload (Some "deploy-2") "main")
                     (MemoryQueue.mkOptions 5 3) 1001]
               ++ replicate (S (MemoryQueue.immediates (MemoryQueue.run pass_under_way)))
                    MemoryQueue.Immediate
               ++ (MemoryQueue.Settle 0 <$> [true]))) l
       = MemoryQueue.run
           (pass_under_way
              ++ [MemoryQueue.Add (MemoryQueue.mkPayload (Some "deploy-2") "main")
                    (MemoryQueue.mkOptions 5 3) 1001]
              ++ replicate (S (MemoryQueue.immediates (MemoryQueue.run pass_under_way)))
                   MemoryQueue.Immediate
              ++ (MemoryQueue.Settle 0 <$> [true]))).
Proof.
  apply (job_added_during_a_pass_is_left_waiting pass_under_way
           (MemoryQueue.mkPayload (Some "deploy-2") "main") (MemoryQueue.mkOptions 5 3) 1001
           [true] 0 []).
  - vm_compute. reflexivity.
  - reflexivity.
Defined.

(** * From the trigger to the status query *)

(** X16: in memory mode a deployment the webhook has just accepted is
    reported by the status query from the queue, as pending, with
    progress 0, the step 'waiting' and the time it was added, provided
    the store holds no flat status for it; this is so whatever the queue
    held before. *)
Theorem accepted_deployment_is_reported_pending
    (secret : string) (now added : nat) (random : string) (req : WebhookController.Request)
    (q q' : MemoryQueue.State) (w : World) (d : string) (priority projectCount : nat) :
  WebhookController.handleMultiProjectDeployment (memory_add_at added) secret now random req q
  = (WebhookController.Created d priority projectCount, q') →
  truthy (field_of w (statusKey d) "status") = false →
  DeploymentController.getDeploymentStatus false (DeploymentController.memory_getJob q') d w
  = DeploymentController.FromQueue "pending" 0 "waiting" added.
Proof.
  intros Hadd Hflat.
  unfold WebhookController.handleMultiProjectDeployment in Hadd.
  destruct (negb _); [done|].
  destruct (Validator.validateMultiProjectDeploymentRequest _) as [err|request]; [done|].
  injection Hadd as <- _ _ <-.
  remember ("deploy-" +:+ index_key now +:+ "-" +:+ random) as d eqn:Ed.
  assert (Hd : String.eqb d "" = false) by (by rewrite Ed).
  clear Ed.
  unfold DeploymentController.getDeploymentStatus. rewrite Hd.
  assert (Hjob : DeploymentController.memory_getJob
                   (memory_add_at added
                      (WebhookController.mkEnqueue "build-and-deploy-multi" d request
                         (WebhookController.priority_of (Validator.dr_metadata request)) 3) q) d
                 = Some (DeploymentController.mkJobView "waiting" (Some 0) added)).
  { unfold DeploymentController.memory_getJob, memory_add_at,
      MemoryQueue.getJob, MemoryQueue.add, MemoryQueue.job_id.
    simpl. rewrite Hd. simpl. rewrite obj_get_set_eq. simpl.
    by rewrite list_lookup_middle. }
  rewrite Hjob.
  change (MemoryRedis.hgetall (statusKey d) (w_hashes w) !! "status")
    with ((if false then Redis.hgetall (statusKey d) (w_hashes w)
           else MemoryRedis.hgetall (statusKey d) (w_hashes w)) !! "status").
  rewrite hgetall_field.
  destruct (field_of w (statusKey d) "status") as [v|] eqn:Hv; [|done].
  by rewrite Hflat.
Qed.

Lemma accepted_deployment_is_reported_pending_witness :
  DeploymentController.getDeploymentStatus false
    (DeploymentController.memory_getJob
       (WebhookController.handleMultiProjectDeployment (memory_add_at 1737)
          "default-secret" 1736 "k3x9q2m1z" two_project_request MemoryQueue.empty).2)
    "deploy-1736-k3x9q2m1z" world0
  = DeploymentController.FromQueue "pending" 0 "waiting" 1737.
Proof.
  apply (accepted_deployment_is_reported_pending "default-secret" 1736 1737 "k3x9q2m1z"
           two_project_request MemoryQueue.empty _ world0 "deploy-1736-k3x9q2m1z" 10 2).
  - vm_compute. reflexivity.
  - reflexivity.
Defined.

(** * The request schema *)

Lemma first_error_None checks :
  Validator.first_error checks = None ↔ Forall (λ c, c = None) checks.
Proof.
  induction checks as [|[e|] checks IH]; simpl.
  - split; [constructor|done].
  - split; [done|]. intros H. by inversion H.
  - rewrite IH. split; [by constructor|]. intros H. by inversion H.
Qed.

Lemma string_eqb_empty s : String.eqb s "" = false ↔ 1 ≤ String.length s.
Proof. destruct s; simpl; split; try done; lia. Qed.

Lemma check_string_None k lo hi s :
  1 ≤ lo →
  Validator.check_string k (Some lo) (Some hi) s = None ↔ length_between lo hi s.
Proof.
  intros Hlo. unfold Validator.check_string, length_between. simpl.
  destruct (String.eqb s "") eqn:He.
  - apply String.eqb_eq in He as ->. simpl. split; [done|lia].
  - destruct (Nat.ltb_spec (String.length s) lo); [split; [done|lia]|].
    destruct (Nat.ltb_spec hi (String.length s)); split; try done; lia.
Qed.

Lemma check_string_unbounded k s :
  Validator.check_string k None None s = None ↔ s ≠ "".
Proof.
  unfold Validator.check_string. simpl.
  destruct (String.eqb_spec s ""); split; try done.
Qed.

Lemma check_valid_None k allowed v :
  Validator.check_valid k allowed v = None ↔ ∀ s, v = Some s → s ∈ allowed.
Proof.
  unfold Validator.check_valid. destruct v as [s|]; [|split; [by intros _ s|done]].
  destruct (existsb (String.eqb s) allowed) eqn:He.
  - split; [|done]. intros _ s' [= <-].
    apply existsb_exists in He as (x & Hx & Heq). apply String.eqb_eq in Heq as ->.
    by apply list_elem_of_In.
  - split; [done|]. intros H. specialize (H s eq_refl).
    assert (existsb (String.eqb s) allowed = true); [|congruence].
    apply existsb_exists. exists s. split; [by apply list_elem_of_In|apply String.eqb_refl].
Qed.

Lemma check_projectIds_None v :
  Validator.check_projectIds v = None
  ↔ ∃ items, v = Some items ∧ 1 ≤ length items ≤ 10 ∧ Forall (length_between 1 100) items.
Proof.
  unfold Validator.check_projectIds. destruct v as [items|].
  - rewrite first_error_None, Forall_app, Forall_cons, Forall_singleton.
    split.
    + intros (Hitems & Hmin & Hmax). exists items. split; [done|].
      destruct (Nat.ltb_spec (length items) 1); [done|].
      destruct (Nat.ltb_spec 10 (length items)); [done|].
      split; [lia|]. apply Forall_forall. intros s Hs.
      apply (check_string_None "projectIds" 1 100 s); [lia|].
      rewrite Forall_forall in Hitems. apply Hitems.
      apply list_elem_of_In, in_map, list_elem_of_In, Hs.
    + intros (items' & [= <-] & Hlen & Hitems). split; [|split].
      * apply Forall_forall. intros c Hc.
        apply list_elem_of_In, in_map_iff in Hc as (s & <- & Hs).
        apply check_string_None; [lia|].
        rewrite Forall_forall in Hitems. by apply Hitems, list_elem_of_In.
      * destruct (Nat.ltb_spec (length items) 1); [lia|done].
      * destruct (Nat.ltb_spec 10 (length items)); [lia|done].
  - split; [done|]. by intros (items & ? & _).
Qed.

Lemma schema_validate_None data :
  Validator.schema_validate data = None ↔ well_formed data.
Proof.
  unfold Validator.schema_validate, well_formed.
  rewrite first_error_None. rewrite !Forall_cons, check_projectIds_None.
  assert (Hreq : ∀ k lo hi v, 1 ≤ lo →
            Validator.check_required_string k (Some lo) (Some hi) v = None
            ↔ ∃ s, v = Some s ∧ length_between lo hi s).
  { intros k lo hi [s|] Hlo; simpl.
    - rewrite check_string_None by done. split; [by exists s|by intros (? & [= <-] & ?)].
    - split; [done|by intros (? & ? & _)]. }
  rewrite !Hreq by lia.
  assert (Hopt : Validator.check_optional_string "commitHash" (Some 7) (Some 40)
                   (Validator.commitHash data) = None
                 ↔ ∀ c, Validator.commitHash data = Some c → length_between 7 40 c).
  { destruct (Validator.commitHash data) as [c|]; simpl.
    - rewrite check_string_None by lia. split; [by intros ? ? [= <-]|auto].
    - split; [by intros|done]. }
  rewrite Hopt.
  assert (Htime : Validator.check_required_string "timestamp" None None
                    (Validator.timestamp data) = None
                  ↔ ∃ t, Validator.timestamp data = Some t ∧ t ≠ "").
  { destruct (Validator.timestamp data) as [t|]; simpl.
    - rewrite check_string_unbounded. split; [by exists t|by intros (? & [= <-] & ?)].
    - split; [done|by intros (? & ? & _)]. }
  rewrite Htime.
  assert (Hmeta : Validator.check_metadata (Validator.metadata data) = None
                  ↔ ∀ m, Validator.metadata data = Some m →
                      (∀ b, Validator.buildType m = Some b
                            → b ∈ ["development"; "staging"; "production"])
                      ∧ (∀ p, Validator.md_priority m = Some p
                              → p ∈ ["low"; "normal"; "high"])).
  { unfold Validator.check_metadata. destruct (Validator.metadata data) as [m|].
    - rewrite first_error_None, Forall_cons, Forall_singleton, !check_valid_None.
      split; [by intros ? ? [= <-]|auto].
    - split; [by intros|done]. }
  rewrite Hmeta. split.
  - intros (? & ? & ? & ? & ? & ? & _). done.
  - intros (? & ? & ? & ? & ? & ?). do 6 (split; [done|]). constructor.
Qed.

